(** * nolitsa.data: generators of chaotic and noisy time series

    A shallow embedding of [src/nolitsa/data.py] and the properties of its
    six generators ([falpha], [henon], [ikeda], [lorenz], [mackey_glass],
    [roessler]).

    The Python functions are translated statement by statement:
    - Python integers are [Z]; floats are an abstract numeric type [F] with
      the operations the module uses (class [Num]).  Everything that only
      depends on control flow and array shapes is proved for every [Num]
      instance; statements about values are proved for the real numbers
      (instance [Num_R]), the usual idealisation of binary64 arithmetic.
      What is decided by a rounded quotient, the strides [int(sample / step)]
      and [int(n * sample / tau)], is stated for every instance, through
      the value of the quotient as computed.
    - one-dimensional arrays are lists, arrays of shape (N, 2) are lists of
      pairs; indexing, slicing and broadcasting follow Python and NumPy,
      with their exceptions as the [Raised] results of type [result].
    - the process-wide random stream and the stale contents of freshly
      allocated ([np.empty]) buffers live in a [World] that is threaded
      through every generator (monad [M]).
    - the ODE integrator and the inverse real FFT are collaborators outside
      the module: they are section variables, constrained only where a
      theorem needs it. *)

From Stdlib Require Import ZArith QArith Reals Lra Lia.
From stdpp Require Import base list.

Set Default Proof Using "Type".
Local Open Scope Z_scope.

(** ** Exceptions and results *)

(** The exceptions of Python and NumPy that the module can raise, and
    [IntegrationError] for what the integrator raises on its own account
    (SciPy's [RuntimeError]). *)
Inductive exn : Set :=
| ValueError
| IndexError
| TypeError
| ZeroDivisionError
| IntegrationError.

Inductive result (A : Type) : Type :=
| Raised (e : exn)
| Returned (v : A).

Arguments Raised {A} e.
Arguments Returned {A} v.

Definition rbind {A B} (m : result A) (k : A → result B) : result B :=
  match m with
  | Raised e => Raised e
  | Returned v => k v
  end.

Notation "'let?' x := m 'in' k" := (rbind m (fun x => k))
  (at level 10, x pattern, m at level 100, k at level 200,
   format "'[v' 'let?'  x  :=  m  'in' '/' k ']'").

Definition returns {A} (m : result A) : Prop := ∃ v, m = Returned v.
Definition raises {A} (m : result A) : Prop := ∃ e, m = Raised e.

(** ** Sequences: Python indexing, ranges and slices *)

Section sequences.
Context {A : Type}.
Implicit Types (l : list A) (i start step : Z).

(** [x[i]] accepts [-len <= i < len]; negative indices count from the end. *)
Definition norm_index (len : nat) (i : Z) : option nat :=
  if bool_decide (0 ≤ i < Z.of_nat len) then Some (Z.to_nat i)
  else if bool_decide (- Z.of_nat len ≤ i < 0) then Some (Z.to_nat (i + Z.of_nat len))
  else None.

Definition getitem l i : result A :=
  match norm_index (length l) i with
  | Some k => match l !! k with
              | Some v => Returned v
              | None => Raised IndexError
              end
  | None => Raised IndexError
  end.

Definition setitem l i (v : A) : result (list A) :=
  match norm_index (length l) i with
  | Some k => Returned (<[k := v]> l)
  | None => Raised IndexError
  end.

(** [range(lo, hi)] and [range(start, stop, step)] for a nonzero step. *)
Definition py_range (lo hi : Z) : list Z := seqZ lo (hi - lo).

Definition py_range3 (start stop step : Z) : list Z :=
  if bool_decide (0 < step) then
    (λ k, start + k * step) <$> seqZ 0 ((stop - start + step - 1) `div` step)
  else if bool_decide (step < 0) then
    (λ k, start + k * step) <$> seqZ 0 ((start - stop - step - 1) `div` (- step))
  else [].

(** The start of a slice [x[start:...]], clipped as [slice.indices] does. *)
Definition clip_start (len : nat) (start step : Z) : Z :=
  let n := Z.of_nat len in
  if bool_decide (0 < step) then
    if bool_decide (start < 0) then Z.max (start + n) 0 else Z.min start n
  else
    if bool_decide (start < 0) then Z.max (start + n) (-1) else Z.min start (n - 1).

(** [x[start:]] *)
Definition slice_from l start : list A :=
  drop (Z.to_nat (clip_start (length l) start 1)) l.

(** [x[start::step]]: a zero step is a [ValueError]; a negative step walks
    down to index 0. *)
Definition slice_from_step l start step : result (list A) :=
  if bool_decide (step = 0) then Raised ValueError
  else
    let first := clip_start (length l) start step in
    let stop := if bool_decide (0 < step) then Z.of_nat (length l) else -1 in
    Returned (omap (λ i, l !! Z.to_nat i) (py_range3 first stop step)).

(** The stop of a slice [x[:stop]], clipped. *)
Definition clip_stop (len : nat) (stop : Z) : nat :=
  let n := Z.of_nat len in
  Z.to_nat (if bool_decide (stop < 0) then Z.max (stop + n) 0 else Z.min stop n).

(** A [for] loop over a list of indices, threading the loop state and
    stopping at the first exception. *)
Fixpoint for_each {S : Type} (idxs : list Z) (body : Z → S → result S) (s : S)
  : result S :=
  match idxs with
  | [] => Returned s
  | i :: rest => let? s' := body i s in for_each rest body s'
  end.
End sequences.

(** ** Floats

    The operations of Python and NumPy floats that the module uses.
    [of_Z] is the conversion of an integer, [ftrunc] is [int(x)], [fis_zero]
    decides [x == 0] (the truth value of a float) and [fltb] is [<]. *)

Class Num (F : Type) : Type := {
  of_Z : Z → F;
  fadd : F → F → F;
  fsub : F → F → F;
  fmul : F → F → F;
  fdiv : F → F → F;
  fopp : F → F;
  fpow : F → F → F;
  fsqrt : F → F;
  fabs : F → F;
  fcos : F → F;
  fsin : F → F;
  fpi : F;
  fltb : F → F → bool;
  fis_zero : F → bool;
  ftrunc : F → Z
}.

Declare Scope num_scope.
Delimit Scope num_scope with fl.
Infix "+" := fadd : num_scope.
Infix "-" := fsub : num_scope.
Infix "*" := fmul : num_scope.
Infix "/" := fdiv : num_scope.
Infix "**" := fpow (at level 30, right associativity) : num_scope.
Notation "- x" := (fopp x) : num_scope.
Notation "0" := (of_Z 0) : num_scope.
Notation "1" := (of_Z 1) : num_scope.
Notation "2" := (of_Z 2) : num_scope.

(** A decimal literal such as [0.9]: the float nearest to the quotient of
    two exactly representable integers. *)
Definition lit `{Num F} (q : Q) : F :=
  (of_Z (Qnum q) / of_Z (Zpos (Qden q)))%fl.

(** The values a caller may pass as an initial condition [x0]: [None], a
    float, or a tuple or list of floats. *)
Inductive pyval (F : Type) : Type :=
| PNone
| PFloat (v : F)
| PSeq (vs : list F).

Arguments PNone {F}.
Arguments PFloat {F} v.
Arguments PSeq {F} vs.

Section numpy.
Context `{Num F}.

(** [not x0] *)
Definition py_not (x0 : pyval F) : bool :=
  match x0 with
  | PNone => true
  | PFloat v => fis_zero v
  | PSeq vs => bool_decide (vs = [])
  end.

(** Python's [x / y] on floats raises on a zero divisor (NumPy's does not). *)
Definition py_div (x y : F) : result F :=
  if fis_zero y then Raised ZeroDivisionError else Returned (x / y)%fl.

(** NumPy's rule for assigning [src] to a one-dimensional target of [m]
    elements: a scalar or a sequence of one element is repeated, a sequence
    of [m] elements is copied, any other size is a [ValueError]. *)
Definition broadcast_to (m : nat) (src : pyval F) : result (list F) :=
  match src with
  | PNone => Raised TypeError
  | PFloat v => Returned (replicate m v)
  | PSeq vs =>
      if bool_decide (length vs = m) then Returned vs
      else match vs with
           | [v] => Returned (replicate m v)
           | _ => Raised ValueError
           end
  end.

(** The value stored by [x[i] = src] in a row of an array of shape (N, 2). *)
Definition row2 (src : pyval F) : result (F * F) :=
  let? vs := broadcast_to 2 src in
  match vs with
  | [u; v] => Returned (u, v)
  | _ => Raised ValueError
  end.

(** [x[i] = src] for a row of an array of shape (N, 2): the index is
    resolved first, an [IndexError] when it is out of range, and then the
    value is broadcast to the row, a [ValueError] when it does not fit. *)
Definition setrow (x : list (F * F)) (i : Z) (src : pyval F)
  : result (list (F * F)) :=
  match norm_index (length x) i with
  | None => Raised IndexError
  | Some k => let? r := row2 src in Returned (<[k := r]> x)
  end.

(** [x[:stop] = src] *)
Definition assign_upto (x : list F) (stop : Z) (src : pyval F) : result (list F) :=
  let m := clip_stop (length x) stop in
  let? vs := broadcast_to m src in
  Returned (vs ++ drop m x).

(** [np.linspace(start, stop, num)] with the default [endpoint=True]: [num]
    points from [start] to [stop], both included. *)
Definition np_linspace (start stop : F) (num : Z) : result (list F) :=
  if bool_decide (num < 0) then Raised ValueError
  else if bool_decide (num = 0) then Returned []
  else if bool_decide (num = 1) then Returned [start]
  else
    let delta := ((stop - start) / of_Z (num - 1))%fl in
    Returned (((λ k, of_Z k * delta + start)%fl <$> seqZ 0 (num - 1)) ++ [stop]).

(** [np.mean] and [np.std] of a one-dimensional array. *)
Definition np_sum (x : list F) : F := foldr fadd 0%fl x.

Definition np_mean (x : list F) : F :=
  (np_sum x / of_Z (Z.of_nat (length x)))%fl.

Definition np_var (x : list F) : F :=
  np_mean ((λ v, fabs (v - np_mean x) ** 2)%fl <$> x).

Definition np_std (x : list F) : F := fsqrt (np_var x).

(** *** The world: random stream and stale memory *)

Record World : Type := mkWorld {
  tape : nat → F;      (* the uniform variates still to be drawn *)
  cursor : nat;        (* how many have been drawn *)
  stale : nat → F      (* what a fresh buffer holds before it is written *)
}.

Definition M (A : Type) : Type := World → result A * World.

Definition ret {A} (v : A) : M A := λ w, (Returned v, w).

Definition lift {A} (r : result A) : M A := λ w, (r, w).

Definition bind {A B} (m : M A) (k : A → M B) : M B :=
  λ w, match m w with
       | (Raised e, w') => (Raised e, w')
       | (Returned v, w') => k v w'
       end.

(** [np.random.random(k)] *)
Definition np_random (k : Z) : M (list F) :=
  λ w, if bool_decide (k < 0) then (Raised ValueError, w)
       else (Returned ((λ j, tape w (cursor w + j)%nat) <$> seq 0 (Z.to_nat k)),
             mkWorld (tape w) (cursor w + Z.to_nat k) (stale w)).

(** [np.empty(n)]: [n] slots with whatever the memory held. *)
Definition np_empty (n : Z) : M (list F) :=
  λ w, if bool_decide (n < 0) then (Raised ValueError, w)
       else (Returned (stale w <$> seq 0 (Z.to_nat n)), w).

(** [np.empty((n, 2))] *)
Definition np_empty2 (n : Z) : M (list (F * F)) :=
  λ w, if bool_decide (n < 0) then (Raised ValueError, w)
       else (Returned ((λ j, (stale w (2 * j), stale w (2 * j + 1)))%nat
                         <$> seq 0 (Z.to_nat n)), w).
End numpy.

Arguments World F : clear implicits.
Arguments M F A : clear implicits.

Notation "x <- m ;; k" := (bind m (fun x => k))
  (at level 100, m at next level, right associativity,
   format "'[v' x  <-  m  ;; '/' k ']'").

(** ** The generators of [nolitsa/data.py] *)

Section generators.
Context `{Num F}.

(** The external collaborators: [scipy.integrate.odeint], called with a
    derivative function, an initial state and a time grid, and
    [numpy.fft.irfft], called with a one-sided spectrum (complex numbers as
    pairs) and the number of samples. *)
Variable odeint :
  (list F → F → result (list F)) → pyval F → list F → result (list (list F)).
Variable irfft : list (F * F) → Z → result (list F).

(** Element-wise binary operations on arrays, with NumPy's broadcasting of
    an operand of one element. *)
Definition broadcast2 {A B C} (f : A → B → C) (xs : list A) (ys : list B)
  : result (list C) :=
  if bool_decide (length xs = length ys) then Returned (zip_with f xs ys)
  else match xs, ys with
       | [x], _ => Returned (f x <$> ys)
       | _, [y] => Returned ((λ x, f x y) <$> xs)
       | _, _ => Raised ValueError
       end.

(** [power[mask] = 0] for a boolean mask.  A mask of the array's size
    selects the entries to zero; a mask of size zero selects nothing,
    whatever the size of the array; any other size is an [IndexError]. *)
Definition mask_zero (power : list F) (mask : list bool) : result (list F) :=
  if bool_decide (length mask = length power)
  then Returned (zip_with (λ p (m : bool), if m then 0%fl else p) power mask)
  else match mask with
       | [] => Returned power
       | _ :: _ => Raised IndexError
       end.

(** [fft.rfftfreq(n)]: the frequencies [k / n] for [0 <= k <= n // 2]. *)
Definition np_rfftfreq (n : Z) : result (list F) :=
  if bool_decide (n = 0) then Raised ZeroDivisionError
  else let val := (1 / of_Z n)%fl in
       Returned ((λ k, of_Z k * val)%fl <$> seqZ 0 (n `div` 2 + 1)).

(** [scale * (-1 + 2 * u)] for an array [u] of uniform variates. *)
Definition jitter_at (scale e : F) : F := (scale * (of_Z (-1) + 2 * e))%fl.

Definition jitter (scale : F) (u : list F) : list F := jitter_at scale <$> u.

(** *** falpha *)

(** Lines 69-89: the sequence before it is rescaled. *)
Definition falpha_signal (length : Z) (alpha : F) (fl fu : option F) : M F (list F) :=
  freqs <- lift (np_rfftfreq length) ;;
  let power := (λ f, f ** (- alpha))%fl <$> slice_from freqs 1 in
  let power := 0%fl :: power in
  power <- lift (match fl with
                 | Some c => if fis_zero c then Returned power
                             else mask_zero power ((λ f, fltb f c) <$> freqs)
                 | None => Returned power
                 end) ;;
  power <- lift (match fu with
                 | Some c => if fis_zero c then Returned power
                             else mask_zero power ((λ f, fltb c f) <$> freqs)
                 | None => Returned power
                 end) ;;
  u <- np_random (Z.of_nat (List.length freqs)) ;;
  let phase := (λ e, 2 * fpi * e)%fl <$> u in
  y <- lift (broadcast2 (λ p φ, (fsqrt p * fcos φ, fsqrt p * fsin φ)%fl) power phase) ;;
  y <- lift (if bool_decide (length `mod` 2 = 0) then
               let? last := getitem y (-1) in
               let re := (last.1 * fsqrt 2)%fl in
               let im := (last.2 * fsqrt 2)%fl in
               setitem y (-1) (fsqrt (re * re + im * im), 0)%fl
             else Returned y) ;;
  lift (irfft y length).

(** Lines 92-93. *)
Definition rescale (mean var : F) (x : list F) : list F :=
  let s := np_std x in
  let x := (λ v, fsqrt var * v / s)%fl <$> x in
  let m := np_mean x in
  (λ v, mean + v - m)%fl <$> x.

Definition falpha (length : Z) (alpha : F) (fl fu : option F) (mean var : F)
  : M F (list F) :=
  x <- falpha_signal length alpha fl fu ;;
  ret (rescale mean var x).

(** The loop body of both maps: [x[i] = step(x[i - 1])]. *)
Definition map_body (step : F * F → F * F) (i : Z) (x : list (F * F))
  : result (list (F * F)) :=
  let? p := getitem x (i - 1) in setitem x i (step p).

(** *** henon *)

Definition henon_step (a b : F) (p : F * F) : F * F :=
  (1 - a * p.1 ** 2 + b * p.2, p.1)%fl.

Definition henon (length : Z) (x0 : pyval F) (a b : F) (discard : Z)
  : M F (list (F * F)) :=
  x <- np_empty2 (length + discard) ;;
  x <- (if py_not x0 then
          u <- np_random 2 ;;
          let v := zip_with fadd [lit 0.0; lit 0.9] (jitter (lit 0.01) u) in
          lift (setrow x 0 (PSeq v))
        else
          lift (setrow x 0 x0)) ;;
  x <- lift (for_each (py_range 1 (length + discard))
               (map_body (henon_step a b)) x) ;;
  ret (slice_from x discard).

(** *** ikeda *)

Definition ikeda_step (alpha beta gamma mu : F) (p : F * F) : F * F :=
  let phi := (beta - alpha / (1 + p.1 ** 2 + p.2 ** 2))%fl in
  (gamma + mu * (p.1 * fcos phi - p.2 * fsin phi),
   mu * (p.1 * fsin phi + p.2 * fcos phi))%fl.

Definition ikeda (length : Z) (x0 : pyval F) (alpha beta gamma mu : F) (discard : Z)
  : M F (list (F * F)) :=
  x <- np_empty2 (length + discard) ;;
  x <- (if py_not x0 then
          u <- np_random 2 ;;
          lift (setrow x 0 (PSeq (jitter (lit 0.1) u)))
        else
          lift (setrow x 0 x0)) ;;
  x <- lift (for_each (py_range 1 (length + discard))
               (map_body (ikeda_step alpha beta gamma mu)) x) ;;
  ret (slice_from x discard).

(** *** lorenz and roessler *)

(** [sample = int(sample / step)], the down-sampling stride of both flows. *)
Definition flow_stride (sample step : F) : result Z :=
  let? q := py_div sample step in Returned (ftrunc q).

(** The stride and the time grid [t] of both flows (lines 215-217 and
    316-318). *)
Definition flow_grid (length : Z) (step sample : F) (discard : Z)
  : result (Z * list F) :=
  let? sample := flow_stride sample step in
  let? t := np_linspace 0%fl (of_Z (sample * (length + discard)) * step)%fl
              (sample * (length + discard)) in
  Returned (sample, t).

Definition _lorenz (sigma beta rho : F) (x : list F) (t : F) : result (list F) :=
  let? x1 := getitem x 1 in
  let? x0 := getitem x 0 in
  let? x2 := getitem x 2 in
  Returned [sigma * (x1 - x0); x0 * (rho - x2) - x1; x0 * x1 - beta * x2]%fl.

Definition lorenz (length : Z) (x0 : pyval F) (sigma beta rho step sample : F)
    (discard : Z) : M F (list F * list (list F)) :=
  x0 <- (if py_not x0 then
           u <- np_random 3 ;;
           ret (PSeq (zip_with fadd [lit 0.0; lit (-0.01); lit 9.0]
                        (jitter (lit 0.25) u)))
         else ret x0) ;;
  lift (let? (sample, t) := flow_grid length step sample discard in
        let? ts := slice_from_step t (discard * sample) sample in
        let? xs := odeint (_lorenz sigma beta rho) x0 t in
        let? xs := slice_from_step xs (discard * sample) sample in
        Returned (ts, xs)).

Definition _roessler (a b c : F) (x : list F) (t : F) : result (list F) :=
  let? x1 := getitem x 1 in
  let? x2 := getitem x 2 in
  let? x0 := getitem x 0 in
  Returned [- (x1 + x2); x0 + a * x1; b + x2 * (x0 - c)]%fl.

Definition roessler (length : Z) (x0 : pyval F) (a b c step sample : F)
    (discard : Z) : M F (list F * list (list F)) :=
  g <- lift (flow_grid length step sample discard) ;;
  let '(sample, t) := g in
  x0 <- (if py_not x0 then
           u <- np_random 3 ;;
           ret (PSeq (zip_with fadd [lit (-9.0); lit 0.0; lit 0.0]
                        (jitter (lit 0.25) u)))
         else ret x0) ;;
  lift (let? ts := slice_from_step t (discard * sample) sample in
        let? xs := odeint (_roessler a b c) x0 t in
        let? xs := slice_from_step xs (discard * sample) sample in
        Returned (ts, xs)).

(** *** mackey_glass *)

(** [sample = int(n * sample / tau)], the subsampling stride. *)
Definition delay_stride (n : Z) (sample tau : F) : result Z :=
  let? q := py_div (of_Z n * sample)%fl tau in Returned (ftrunc q).

(** The nonlinearity [u / (1 + u ** c)] of the delay equation. *)
Definition mg_f (c u : F) : F := (u / (1 + u ** c))%fl.

(** The right-hand side of line 276, read from the buffer [x] at index [i]. *)
Definition mg_next (A B c : F) (n : Z) (x : list F) (i : Z) : result F :=
  let? xi := getitem x i in
  let? xd := getitem x (i - n) in
  let? xd1 := getitem x (i - n + 1) in
  Returned (A * xi + B * (mg_f c xd + mg_f c xd1))%fl.

Definition mg_body (A B c : F) (n : Z) (i : Z) (x : list F) : result (list F) :=
  let? v := mg_next A B c n x i in setitem x (i + 1) v.

Definition mg_A (b tau : F) (n : Z) : result F :=
  py_div (of_Z (2 * n) - b * tau)%fl (of_Z (2 * n) + b * tau)%fl.

Definition mg_B (a b tau : F) (n : Z) : result F :=
  py_div (a * tau)%fl (of_Z (2 * n) + b * tau)%fl.

(** Lines 263-270: the stride and the seeded buffer. *)
Definition mg_seed (length : Z) (x0 : pyval F) (tau : F) (n : Z) (sample : F)
    (discard : Z) : M F (Z * list F) :=
  sample <- lift (delay_stride n sample tau) ;;
  let grids := n * discard + sample * length in
  x <- np_empty grids ;;
  x <- (if py_not x0 then
          u <- np_random n ;;
          lift (assign_upto x n (PSeq (fadd (lit 0.5) <$> jitter (lit 0.05) u)))
        else lift (assign_upto x n x0)) ;;
  ret (sample, x).

(** Lines 263-277: the stride and the whole fine grid after the loop. *)
Definition mg_grid (length : Z) (x0 : pyval F) (a b c tau : F) (n : Z)
    (sample : F) (discard : Z) : M F (Z * list F) :=
  s <- mg_seed length x0 tau n sample discard ;;
  let '(sample, x) := s in
  let grids := n * discard + sample * length in
  lift (let? A := mg_A b tau n in
        let? B := mg_B a b tau n in
        let? x := for_each (py_range (n - 1) (grids - 1)) (mg_body A B c n) x in
        Returned (sample, x)).

Definition mackey_glass (length : Z) (x0 : pyval F) (a b c tau : F) (n : Z)
    (sample : F) (discard : Z) : M F (list F) :=
  g <- mg_grid length x0 a b c tau n sample discard ;;
  let '(sample, x) := g in
  lift (slice_from_step x (n * discard) sample).

End generators.

(** ** Real numbers as floats *)

(** [int(x)] truncates toward zero. *)
Definition Rtrunc (x : R) : Z :=
  if Rle_dec 0 x then Int_part x else - Int_part (- x).

(** [x ** y]: an integral exponent is a repeated product or quotient, any
    other exponent is the real power of a positive base. *)
Definition Rpow (x y : R) : R :=
  if Req_dec_T y (IZR (Int_part y)) then powerRZ x (Int_part y) else Rpower x y.

#[export] Instance Num_R : Num R := {|
  of_Z := IZR;
  fadd := Rplus;
  fsub := Rminus;
  fmul := Rmult;
  fdiv := Rdiv;
  fopp := Ropp;
  fpow := Rpow;
  fsqrt := sqrt;
  fabs := Rabs;
  fcos := cos;
  fsin := sin;
  fpi := PI;
  fltb := λ x y, if Rlt_dec x y then true else false;
  fis_zero := λ x, if Req_dec_T x 0 then true else false;
  ftrunc := Rtrunc
|}.

(** ** Reference collaborators

    A forward Euler integrator and the textbook inverse real transform.
    The theorems below hold for every integrator and transform that meets
    the stated contract; these two are the instances they are run on.
    Like SciPy's integrator, the Euler integrator rejects a derivative
    whose size is not the size of the state. *)

Section collaborators.
Context `{Num F}.

Fixpoint euler_run (f : list F → F → result (list F)) (y : list F) (t0 : F)
    (ts : list F) : result (list (list F)) :=
  match ts with
  | [] => Returned []
  | t1 :: ts' =>
      let? d := f y t0 in
      if bool_decide (length d = length y) then
        let y' := zip_with (λ yi di, yi + (t1 - t0) * di)%fl y d in
        let? rest := euler_run f y' t1 ts' in
        Returned (y' :: rest)
      else Raised IntegrationError
  end.

Definition euler_odeint (f : list F → F → result (list F)) (y0 : pyval F)
    (t : list F) : result (list (list F)) :=
  let? y := match y0 with
            | PNone => Raised TypeError
            | PFloat v => Returned [v]
            | PSeq vs => Returned vs
            end in
  match t with
  | [] => Returned []
  | t0 :: ts => let? rest := euler_run f y t0 ts in Returned (y :: rest)
  end.

(** Sample [k] of the inverse transform of the one-sided spectrum [y] for
    [n] samples; bins missing from [y] count as zero. *)
Definition dft_sample (y : list (F * F)) (n k : Z) : F :=
  let zero : F := 0%fl in
  let bin j := default (zero, zero) (y !! Z.to_nat j) in
  let angle j := (2 * fpi * of_Z (j * k)%Z / of_Z n)%fl in
  let wave j := (2 * ((bin j).1 * fcos (angle j) - (bin j).2 * fsin (angle j)))%fl in
  let nyquist := if bool_decide (n `mod` 2 = 0)
                 then ((bin (n `div` 2)%Z).1 * fcos (fpi * of_Z k))%fl else zero in
  (1 / of_Z n * ((bin 0%Z).1 + foldr (λ j acc, wave j + acc) zero (seqZ 1 ((n - 1) `div` 2))%Z
                 + nyquist))%fl.

Definition dft_irfft (y : list (F * F)) (n : Z) : result (list F) :=
  if bool_decide (n ≤ 0) then Raised ValueError
  else Returned (dft_sample y n <$> seqZ 0 n).
End collaborators.

(** ** Vocabulary of the specification *)

(** "Rounding to the nearest integer": [z] is an integer nearest to [x]. *)
Definition nearest_integer (x : R) (z : Z) : Prop :=
  (Rabs (x - IZR z) <= 1 / 2)%R.

(** A supplied initial condition of the expected size [d], or none. *)
Definition valid_x0 {F} (d : nat) (x0 : pyval F) : Prop :=
  match x0 with
  | PNone => True
  | PFloat _ => False
  | PSeq vs => length vs = d
  end.

(** The parameter sets on which [mackey_glass] runs to completion: positive
    [length] and [n], non-negative [discard], nonzero divisors, a stride
    [sub] of at least 1, an initial block of [n] values (or none), and a
    fine grid that holds the initial block. *)
Definition mg_valid `{Num F} (length : Z) (x0 : pyval F) (b tau : F) (n : Z)
    (sample : F) (discard sub : Z) : Prop :=
  0 < length ∧ 0 ≤ discard ∧ 0 < n ∧
  fis_zero tau = false ∧
  sub = ftrunc (of_Z n * sample / tau)%fl ∧ 1 ≤ sub ∧
  fis_zero (of_Z (2 * n) + b * tau)%fl = false ∧
  valid_x0 (Z.to_nat n) x0 ∧
  n ≤ n * discard + sub * length.

(** The integrator contract the flows rely on: for the derivative [f] and
    a three-component initial state, [odeint] returns one state per grid
    point. *)
Definition integrates {F}
    (odeint : (list F → F → result (list F)) → pyval F → list F
              → result (list (list F)))
    (f : list F → F → result (list F)) : Prop :=
  ∀ (y0 : list F) (t : list F), length y0 = 3%nat →
    ∃ ys, odeint f (PSeq y0) t = Returned ys ∧ length ys = length t.

(** What an integrator does with the derivative [f] on a grid of two or
    more points: it evaluates [f] at the initial state and the first grid
    point; an exception raised there is the integrator's exception, and a
    derivative whose size is not the size of the state is rejected. *)
Definition checks_state {F}
    (odeint : (list F → F → result (list F)) → pyval F → list F
              → result (list (list F)))
    (f : list F → F → result (list F)) : Prop :=
  ∀ (y0 : list F) (t0 t1 : F) (ts : list F),
    (∀ e, f y0 t0 = Raised e → odeint f (PSeq y0) (t0 :: t1 :: ts) = Raised e) ∧
    (∀ d, f y0 t0 = Returned d → length d ≠ length y0 →
          odeint f (PSeq y0) (t0 :: t1 :: ts) = Raised IntegrationError).

(** The transform contract [falpha] relies on: [irfft] returns [n] samples
    for every positive [n]. *)
Definition inverts {F} (irfft : list (F * F) → Z → result (list F)) : Prop :=
  ∀ (y : list (F * F)) (n : Z), 0 < n →
    ∃ x, irfft y n = Returned x ∧ length x = Z.to_nat n.

(** "The cutoffs zero every frequency bin": every bin above frequency 0
    (whose power is 0 from the start) lies strictly below a lower cutoff
    that is in force, or strictly above an upper cutoff that is in force. *)
Definition passband_empty (length : Z) (fl fu : option R) : Prop :=
  ∀ k : Z, 1 ≤ k ≤ length `div` 2 →
    let f := (IZR k * (1 / IZR length))%R in
    (∃ c, fl = Some c ∧ c ≠ 0%R ∧ (f < c)%R) ∨
    (∃ c, fu = Some c ∧ c ≠ 0%R ∧ (c < f)%R).

(** A transform that maps the zero spectrum to the zero signal, as every
    linear transform does. *)
Definition zero_preserving (irfft : list (R * R) → Z → result (list R)) : Prop :=
  ∀ (m : nat) (n : Z), 0 < n →
    irfft (replicate m (0%R, 0%R)) n = Returned (replicate (Z.to_nat n) 0%R).

(** A world for the examples: every variate is 1/2, stale memory holds 7. *)
Definition world0 : World R :=
  mkWorld (λ _, (1 / 2)%R) 0 (λ _, 7%R).

(** The same world with other stale memory: fresh buffers hold 1. *)
Definition world1 : World R :=
  mkWorld (λ _, (1 / 2)%R) 0 (λ _, 1%R).

(** The world after [k] more variates have been drawn. *)
Definition advance {F} (w : World F) (k : nat) : World F :=
  mkWorld (tape w) (cursor w + k) (stale w).

(** Lines 69-87 of [falpha]: the one-sided spectrum handed to the inverse
    transform, complex amplitudes as pairs. *)
Definition falpha_spectrum `{Num F} (length : Z) (alpha : F) (fl fu : option F)
  : M F (list (F * F)) :=
  freqs <- lift (np_rfftfreq length) ;;
  let power := (λ f, f ** (- alpha))%fl <$> slice_from freqs 1 in
  let power := 0%fl :: power in
  power <- lift (match fl with
                 | Some c => if fis_zero c then Returned power
                             else mask_zero power ((λ f, fltb f c) <$> freqs)
                 | None => Returned power
                 end) ;;
  power <- lift (match fu with
                 | Some c => if fis_zero c then Returned power
                             else mask_zero power ((λ f, fltb c f) <$> freqs)
                 | None => Returned power
                 end) ;;
  u <- np_random (Z.of_nat (List.length freqs)) ;;
  let phase := (λ e, 2 * fpi * e)%fl <$> u in
  y <- lift (broadcast2 (λ p φ, (fsqrt p * fcos φ, fsqrt p * fsin φ)%fl) power phase) ;;
  lift (if bool_decide (length `mod` 2 = 0) then
          let? last := getitem y (-1) in
          let re := (last.1 * fsqrt 2)%fl in
          let im := (last.2 * fsqrt 2)%fl in
          setitem y (-1) (fsqrt (re * re + im * im), 0)%fl
        else Returned y).

(** A frequency that no cutoff in force masks: not below the lower cutoff,
    not above the upper one (a cutoff of 0 is not in force). *)
Definition in_passband (fl fu : option R) (f : R) : Prop :=
  (∀ c, fl = Some c → c ≠ 0%R → ¬ (f < c)%R) ∧
  (∀ c, fu = Some c → c ≠ 0%R → ¬ (c < f)%R).

(** An inverse transform with another normalisation: every sample of
    [irfft] scaled by [c] and shifted by [b]. *)
Definition renormalised (c b : R) (irfft : list (R * R) → Z → result (list R))
  : list (R * R) → Z → result (list R) :=
  λ y n, let? x := irfft y n in Returned ((λ v, c * v + b)%R <$> x).

(** The next [k] variates of the random stream. *)
Definition drawn {F} (w : World F) (k : nat) : list F :=
  (λ j, tape w (cursor w + j)%nat) <$> seq 0 k.

(** The outcome of a call with [g] applied to what it returned. *)
Definition map_result {F A B} (g : A → B) (p : result A * World F)
  : result B * World F :=
  match p with
  | (Returned v, w) => (Returned (g v), w)
  | (Raised e, w) => (Raised e, w)
  end.

(** * Properties *)

(** ** Results *)

Lemma raises_not_returns {A} (m : result A) : raises m → ¬ returns m.
Proof. intros [e ->] [v Hv]. discriminate. Qed.

Lemma rbind_returned {A B} (m : result A) (k : A → result B) (b : B) :
  rbind m k = Returned b → ∃ a, m = Returned a ∧ k a = Returned b.
Proof. destruct m as [e|a]; simpl; [discriminate | eauto]. Qed.

(** ** Indexing and slicing *)

Section sequence_facts.
Context {A : Type}.
Implicit Types (l : list A) (i start step : Z).

Lemma norm_index_nonneg (len : nat) i :
  0 ≤ i < Z.of_nat len → norm_index len i = Some (Z.to_nat i).
Proof. intros Hi. unfold norm_index. by rewrite bool_decide_eq_true_2. Qed.

Lemma norm_index_neg (len : nat) i :
  - Z.of_nat len ≤ i < 0 →
  norm_index len i = Some (Z.to_nat (i + Z.of_nat len)).
Proof.
  intros Hi. unfold norm_index.
  rewrite bool_decide_eq_false_2 by lia. by rewrite bool_decide_eq_true_2.
Qed.

Lemma norm_index_lt (len : nat) i k : norm_index len i = Some k → (k < len)%nat.
Proof.
  unfold norm_index. repeat case_bool_decide; intros [= <-]; lia.
Qed.

Lemma getitem_nonneg l i :
  0 ≤ i < Z.of_nat (length l) →
  ∃ v, l !! Z.to_nat i = Some v ∧ getitem l i = Returned v.
Proof.
  intros Hi. unfold getitem. rewrite norm_index_nonneg by done.
  destruct (lookup_lt_is_Some_2 l (Z.to_nat i)) as [v Hv]; [lia|].
  exists v. by rewrite Hv.
Qed.

Lemma getitem_lookup l i v :
  0 ≤ i → l !! Z.to_nat i = Some v → getitem l i = Returned v.
Proof.
  intros Hi Hv. pose proof (lookup_lt_Some _ _ _ Hv).
  destruct (getitem_nonneg l i) as (v' & Hv' & ->); [lia|]. congruence.
Qed.

(** [x[-1]] is the last slot of a non-empty buffer. *)
Lemma getitem_minus_one l v :
  l !! (length l - 1)%nat = Some v → getitem l (-1) = Returned v.
Proof.
  intros Hv. pose proof (lookup_lt_Some _ _ _ Hv). unfold getitem.
  rewrite norm_index_neg by lia.
  replace (Z.to_nat (-1 + Z.of_nat (length l))) with (length l - 1)%nat by lia.
  by rewrite Hv.
Qed.

Lemma setitem_nonneg l i (v : A) :
  0 ≤ i < Z.of_nat (length l) → setitem l i v = Returned (<[Z.to_nat i := v]> l).
Proof. intros Hi. unfold setitem. by rewrite norm_index_nonneg. Qed.

Lemma setitem_length l i (v : A) l' :
  setitem l i v = Returned l' → length l' = length l.
Proof.
  unfold setitem. destruct (norm_index _ _); intros [= <-].
  by rewrite length_insert.
Qed.

Lemma length_omap_lookup l (idxs : list Z) :
  Forall (λ i, 0 ≤ i < Z.of_nat (length l)) idxs →
  length (omap (λ i, l !! Z.to_nat i) idxs) = length idxs.
Proof.
  induction 1 as [|i idxs Hi _ IH]; [done|]. csimpl.
  destruct (lookup_lt_is_Some_2 l (Z.to_nat i)) as [v ->]; [lia|].
  csimpl. by f_equal.
Qed.

Lemma py_range3_up start stop step :
  0 < step →
  py_range3 start stop step
  = (λ k, start + k * step) <$> seqZ 0 ((stop - start + step - 1) `div` step).
Proof. intros Hs. unfold py_range3. by rewrite bool_decide_eq_true_2. Qed.

Lemma slice_from_step_zero l start : slice_from_step l start 0 = Raised ValueError.
Proof. done. Qed.

(** A forward slice of a buffer of exactly [start + step * L] slots has [L]
    entries, and entry [k] is slot [start + k * step]. *)
Lemma slice_from_step_exact l start step (L : Z) :
  0 < step → 0 ≤ start → 0 ≤ L →
  Z.of_nat (length l) = start + step * L →
  ∃ r, slice_from_step l start step = Returned r ∧
       length r = Z.to_nat L ∧
       ∀ k : nat, (k < Z.to_nat L)%nat →
                  r !! k = l !! Z.to_nat (start + Z.of_nat k * step).
Proof.
  intros Hstep Hstart HL Hlen. unfold slice_from_step.
  rewrite bool_decide_eq_false_2 by lia. cbv zeta.
  eexists; split; [done|]. rewrite bool_decide_eq_true_2 by lia.
  assert (clip_start (length l) start step = start) as ->.
  { unfold clip_start. rewrite bool_decide_eq_true_2 by lia.
    rewrite bool_decide_eq_false_2 by lia. nia. }
  rewrite py_range3_up by done.
  assert ((Z.of_nat (length l) - start + step - 1) `div` step = L) as ->.
  { rewrite Hlen. symmetry. apply (Z.div_unique _ _ _ (step - 1)); lia. }
  assert (Forall (λ i, 0 ≤ i < Z.of_nat (length l))
            ((λ k, start + k * step) <$> seqZ 0 L)) as Hall.
  { apply Forall_fmap, Forall_forall. intros k Hk%elem_of_seqZ. simpl. nia. }
  split.
  - rewrite length_omap_lookup by done. by rewrite length_fmap, length_seqZ.
  - intros k Hk.
    assert (∀ (idxs : list Z),
              Forall (λ i, 0 ≤ i < Z.of_nat (length l)) idxs →
              omap (λ i, l !! Z.to_nat i) idxs !! k
              = idxs !! k ≫= λ i, l !! Z.to_nat i) as Hgen.
    { clear. intros idxs Hall. revert k.
      induction Hall as [|i idxs Hi _ IH]; intros k; [done|]. csimpl.
      destruct (lookup_lt_is_Some_2 l (Z.to_nat i)) as [v Hv]; [lia|].
      rewrite Hv. destruct k; csimpl; [by rewrite Hv | apply IH]. }
    rewrite Hgen by done. rewrite list_lookup_fmap.
    rewrite lookup_seqZ_lt by lia. simpl. do 2 f_equal; lia.
Qed.

Lemma slice_from_nonneg l start :
  0 ≤ start → slice_from l start = drop (Z.to_nat start) l.
Proof.
  intros Hs. unfold slice_from, clip_start. simpl.
  rewrite bool_decide_eq_false_2 by lia.
  destruct (decide (start ≤ Z.of_nat (length l))).
  - by rewrite Z.min_l.
  - rewrite Z.min_r by lia. rewrite !drop_ge; [done | lia | lia].
Qed.

Lemma clip_stop_fits (len : nat) (stop : Z) :
  0 ≤ stop ≤ Z.of_nat len → clip_stop len stop = Z.to_nat stop.
Proof.
  intros Hs. unfold clip_stop. rewrite bool_decide_eq_false_2 by lia.
  by rewrite Z.min_l by lia.
Qed.
End sequence_facts.

(** ** The world monad *)

Section monad_facts.
Context `{Num F}.

Lemma bind_returned {A B} (m : M F A) (k : A → M F B) w v w' :
  m w = (Returned v, w') → bind m k w = k v w'.
Proof. intros Hm. unfold bind. by rewrite Hm. Qed.

Lemma bind_raised {A B} (m : M F A) (k : A → M F B) w e w' :
  m w = (Raised e, w') → bind m k w = (Raised e, w').
Proof. intros Hm. unfold bind. by rewrite Hm. Qed.

Lemma np_random_returned (k : Z) (w : World F) :
  0 ≤ k →
  np_random k w
  = (Returned ((λ j, tape w (cursor w + j)%nat) <$> seq 0 (Z.to_nat k)),
     mkWorld (tape w) (cursor w + Z.to_nat k) (stale w)).
Proof. intros Hk. unfold np_random. by rewrite bool_decide_eq_false_2 by lia. Qed.

Lemma np_empty_returned (n : Z) (w : World F) :
  0 ≤ n → np_empty n w = (Returned (stale w <$> seq 0 (Z.to_nat n)), w).
Proof. intros Hn. unfold np_empty. by rewrite bool_decide_eq_false_2 by lia. Qed.

Lemma np_empty2_returned (n : Z) (w : World F) :
  0 ≤ n →
  ∃ x, np_empty2 n w = (Returned x, w) ∧ length x = Z.to_nat n.
Proof.
  intros Hn. unfold np_empty2. rewrite bool_decide_eq_false_2 by lia.
  eexists; split; [done|]. by rewrite length_fmap, length_seq.
Qed.
End monad_facts.

(** ** The discrete maps *)

Section maps.
Context `{Num F}.
Implicit Types (x : list (F * F)) (step : F * F → F * F).

(** The loop of [henon] and [ikeda], for any one-step map [step]. *)
Lemma map_loop step (cnt : nat) : ∀ (lo : Z) x,
  1 ≤ lo → lo + Z.of_nat cnt = Z.of_nat (length x) →
  ∃ x', for_each (seqZ lo (Z.of_nat cnt)) (map_body step) x = Returned x' ∧
        length x' = length x ∧
        (∀ j : nat, Z.of_nat j < lo → x' !! j = x !! j) ∧
        (∀ j : nat, lo ≤ Z.of_nat (S j) < Z.of_nat (length x) →
                    x' !! S j = step <$> x' !! j).
Proof.
  induction cnt as [|cnt IH]; intros lo x Hlo Hlen.
  - exists x. do 3 (split; [done|]). intros j Hj. lia.
  - rewrite seqZ_cons by lia. simpl. unfold map_body at 1.
    destruct (getitem_nonneg x (lo - 1)) as (p & Hp & ->); [lia|]. simpl.
    rewrite setitem_nonneg by lia.
    replace (Z.pred (Z.of_nat (S cnt))) with (Z.of_nat cnt) by lia.
    destruct (IH (Z.succ lo) (<[Z.to_nat lo := step p]> x)) as (x' & Hrun & Hl & Hlow & Hrec).
    { lia. } { rewrite length_insert. lia. }
    rewrite length_insert in Hl, Hrec.
    exists x'. split; [done|]. split; [done|]. split.
    + intros j Hj. rewrite Hlow by lia. apply list_lookup_insert_ne. lia.
    + intros j Hj. destruct (decide (Z.of_nat (S j) = lo)) as [Heq|Hne].
      * rewrite !Hlow by lia. replace (S j) with (Z.to_nat lo) by lia.
        rewrite list_lookup_insert_eq by lia.
        rewrite list_lookup_insert_ne by lia.
        replace j with (Z.to_nat (lo - 1)) by lia. by rewrite Hp.
      * apply Hrec. lia.
Qed.

Lemma map_tail step x (length discard : Z) (w : World F) :
  0 < length → 0 ≤ discard → Z.of_nat (List.length x) = length + discard →
  ∃ xs, (x' <- lift (for_each (py_range 1 (length + discard)) (map_body step) x) ;;
         ret (slice_from x' discard)) w = (Returned xs, w) ∧
        List.length xs = Z.to_nat length ∧
        (∀ k : nat, (S k < Z.to_nat length)%nat → xs !! S k = step <$> xs !! k) ∧
        (discard = 0 → xs !! 0%nat = x !! 0%nat).
Proof.
  intros HL HD Hlen. unfold py_range.
  destruct (map_loop step (Z.to_nat (length + discard - 1)) 1 x)
    as (x' & Hrun & Hl & Hlow & Hrec); [lia | lia |].
  rewrite Z2Nat.id in Hrun by lia.
  exists (slice_from x' discard). split.
  { unfold bind, lift, ret. by rewrite Hrun. }
  rewrite slice_from_nonneg by done. split; [|split].
  - rewrite length_drop. lia.
  - intros k Hk. rewrite !lookup_drop.
    replace (Z.to_nat discard + S k)%nat with (S (Z.to_nat discard + k)) by lia.
    apply Hrec. lia.
  - intros ->. simpl. rewrite drop_0. apply Hlow. lia.
Qed.

(** A row of two floats is stored as it is. *)
Lemma row2_pair (u v : F) : row2 (PSeq [u; v]) = Returned (u, v).
Proof. done. Qed.

(** Once the value fits the row, [x[i] = src] is the write of the row. *)
Lemma setrow_fits (x : list (F * F)) (i : Z) (src : pyval F) (r : F * F) :
  row2 src = Returned r → setrow x i src = setitem x i r.
Proof.
  intros Hr. unfold setrow, setitem. rewrite Hr. by destruct (norm_index _ _).
Qed.

(** In range, [x[i] = src] fails exactly when the value does not fit. *)
Lemma setrow_nonneg (x : list (F * F)) (i : Z) (src : pyval F) :
  0 ≤ i < Z.of_nat (length x) →
  setrow x i src = let? r := row2 src in setitem x i r.
Proof.
  intros Hi. unfold setrow, setitem. rewrite norm_index_nonneg by done.
  by destruct (row2 src).
Qed.

Lemma henon_runs (length : Z) (x0 : pyval F) (a b : F) (discard : Z) (w : World F) :
  0 < length → 0 ≤ discard → valid_x0 2 x0 →
  ∃ xs w', henon length x0 a b discard w = (Returned xs, w') ∧
    List.length xs = Z.to_nat length ∧
    (∀ k : nat, (S k < Z.to_nat length)%nat →
                xs !! S k = henon_step a b <$> xs !! k) ∧
    (∀ u v, x0 = PSeq [u; v] → discard = 0 → xs !! 0%nat = Some (u, v) ∧ w' = w).
Proof.
  intros HL HD Hx0. unfold henon.
  destruct (np_empty2_returned (length + discard) w) as (x & Hx & Hlen); [lia|].
  rewrite (bind_returned _ _ _ _ _ Hx).
  destruct x0 as [| |vs]; simpl in Hx0; [|done|].
  - simpl py_not. cbv iota.
    set (w1 := mkWorld (tape w) (cursor w + Z.to_nat 2) (stale w)).
    set (r := (lit 0.0 + jitter_at (lit 0.01) (tape w (cursor w + 0)%nat),
               lit 0.9 + jitter_at (lit 0.01) (tape w (cursor w + 1)%nat))%fl).
    destruct (map_tail (henon_step a b) (<[0%nat := r]> x) length discard w1)
      as (xs & Hrun & Hl & Hrec & _); [done | done | rewrite length_insert; lia |].
    exists xs, w1. split; [|split; [done|split; [done|]]].
    + erewrite bind_returned; [exact Hrun|].
      erewrite bind_returned; [|by apply np_random_returned].
      unfold lift. rewrite setrow_nonneg by lia. simpl.
      by rewrite setitem_nonneg by lia.
    + intros u v [=].
  - destruct vs as [|u [|v [|? ?]]]; try done.
    destruct (map_tail (henon_step a b) (<[0%nat := (u, v)]> x) length discard w)
      as (xs & Hrun & Hl & Hrec & H0); [done | done | rewrite length_insert; lia |].
    exists xs, w. split; [|split; [done|split; [done|]]].
    + erewrite bind_returned; [exact Hrun|].
      unfold lift. rewrite setrow_nonneg by lia. simpl.
      by rewrite setitem_nonneg by lia.
    + intros ? ? [= <- <-] ->. split; [|done]. rewrite H0 by done.
      apply list_lookup_insert_eq. lia.
Qed.
End maps.

Section maps_ikeda.
Context `{Num F}.

Lemma ikeda_runs (length : Z) (x0 : pyval F) (alpha beta gamma mu : F)
    (discard : Z) (w : World F) :
  0 < length → 0 ≤ discard → valid_x0 2 x0 →
  ∃ xs w', ikeda length x0 alpha beta gamma mu discard w = (Returned xs, w') ∧
    List.length xs = Z.to_nat length ∧
    (∀ k : nat, (S k < Z.to_nat length)%nat →
                xs !! S k = ikeda_step alpha beta gamma mu <$> xs !! k) ∧
    (∀ u v, x0 = PSeq [u; v] → discard = 0 → xs !! 0%nat = Some (u, v) ∧ w' = w).
Proof.
  intros HL HD Hx0. unfold ikeda.
  destruct (np_empty2_returned (length + discard) w) as (x & Hx & Hlen); [lia|].
  rewrite (bind_returned _ _ _ _ _ Hx).
  set (step := ikeda_step alpha beta gamma mu).
  destruct x0 as [| |vs]; simpl in Hx0; [|done|].
  - simpl py_not. cbv iota.
    set (w1 := mkWorld (tape w) (cursor w + Z.to_nat 2) (stale w)).
    set (r := (jitter_at (lit 0.1) (tape w (cursor w + 0)%nat),
               jitter_at (lit 0.1) (tape w (cursor w + 1)%nat))).
    destruct (map_tail step (<[0%nat := r]> x) length discard w1)
      as (xs & Hrun & Hl & Hrec & _); [done | done | rewrite length_insert; lia |].
    exists xs, w1. split; [|split; [done|split; [done|]]].
    + erewrite bind_returned; [exact Hrun|].
      erewrite bind_returned; [|by apply np_random_returned].
      unfold lift. rewrite setrow_nonneg by lia. simpl.
      by rewrite setitem_nonneg by lia.
    + intros u v [=].
  - destruct vs as [|u [|v [|? ?]]]; try done.
    destruct (map_tail step (<[0%nat := (u, v)]> x) length discard w)
      as (xs & Hrun & Hl & Hrec & H0); [done | done | rewrite length_insert; lia |].
    exists xs, w. split; [|split; [done|split; [done|]]].
    + erewrite bind_returned; [exact Hrun|].
      unfold lift. rewrite setrow_nonneg by lia. simpl.
      by rewrite setitem_nonneg by lia.
    + intros ? ? [= <- <-] ->. split; [|done]. rewrite H0 by done.
      apply list_lookup_insert_eq. lia.
Qed.
End maps_ikeda.

(** ** Real arithmetic *)

Section real_facts.
Local Open Scope R_scope.

Lemma Int_part_IZR (z : Z) : Int_part (IZR z) = z.
Proof.
  symmetry. apply Int_part_spec. split; lra.
Qed.

Lemma Rtrunc_IZR (z : Z) : Rtrunc (IZR z) = z.
Proof.
  unfold Rtrunc. destruct (Rle_dec 0 (IZR z)) as [Hz|Hz].
  - apply Int_part_IZR.
  - rewrite <- opp_IZR, Int_part_IZR. lia.
Qed.



Lemma Rtrunc_unique (x : R) (z : Z) :
  0 <= x → IZR z <= x < IZR z + 1 → Rtrunc x = z.
Proof.
  intros Hx Hz. unfold Rtrunc. destruct (Rle_dec 0 x); [|done].
  symmetry. apply Int_part_spec. lra.
Qed.

Lemma Rpow_IZR (x : R) (z : Z) : Rpow x (IZR z) = powerRZ x z.
Proof.
  unfold Rpow. rewrite Int_part_IZR. by destruct (Req_dec_T _ _).
Qed.

Lemma Rpow_2 (x : R) : Rpow x 2 = x * x.
Proof. rewrite Rpow_IZR. simpl. lra. Qed.

Lemma fis_zero_R_false (x : R) : x ≠ 0 → fis_zero x = false.
Proof. intros Hx. simpl. by destruct (Req_dec_T x 0). Qed.

Lemma fis_zero_R_true : fis_zero (0 : R) = true.
Proof. simpl. by destruct (Req_dec_T 0 0). Qed.
End real_facts.

(** ** henon on the reals *)

Section henon_real.
Local Open Scope R_scope.

Lemma henon_step_R (a b : R) (p : R * R) :
  henon_step a b p = (1 - a * p.1 ^ 2 + b * p.2, p.1).
Proof.
  unfold henon_step. cbn [fadd fsub fmul fpow of_Z Num_R].
  rewrite Rpow_2. f_equal. lra.
Qed.

(** C5: [henon(length=5, x0=(0.0, 0.0), a=1.4, b=0.3, discard=0)] returns the
    five states (0,0), (1,0), (-0.4,1), (1.076,-0.4) and
    (1 - 1.4*1.076^2 + 0.3*(-0.4), 1.076); for every positive length and
    every explicit two-component x0 with discard=0 the call returns, its
    first state is x0, and each further state is obtained from the one
    before it by x' = 1 - a*x^2 + b*y, y' = x. *)
Theorem henon_determinism :
  (∀ w : World R,
     henon 5 (PSeq [0; 0]) 1.4 0.3 0 w
     = (Returned [(0, 0); (1, 0); (-0.4, 1); (1.076, -0.4);
                  (1 - 1.4 * 1.076 ^ 2 + 0.3 * (-0.4), 1.076)], w)) ∧
  (∀ (length : Z) (u v a b : R) (w : World R),
     (0 < length)%Z →
     ∃ xs, henon length (PSeq [u; v]) a b 0 w = (Returned xs, w) ∧
           List.length xs = Z.to_nat length ∧
           xs !! 0%nat = Some (u, v) ∧
           ∀ (k : nat) p q, xs !! k = Some p → xs !! S k = Some q →
                            q = (1 - a * p.1 ^ 2 + b * p.2, p.1)).
Proof.
  assert (∀ (length : Z) (u v a b : R) (w : World R),
     (0 < length)%Z →
     ∃ xs, henon length (PSeq [u; v]) a b 0 w = (Returned xs, w) ∧
           List.length xs = Z.to_nat length ∧
           xs !! 0%nat = Some (u, v) ∧
           ∀ (k : nat) p q, xs !! k = Some p → xs !! S k = Some q →
                            q = (1 - a * p.1 ^ 2 + b * p.2, p.1)) as Hgen.
  { intros length u v a b w HL.
    destruct (henon_runs length (PSeq [u; v]) a b 0 w)
      as (xs & w' & Hrun & Hlen & Hrec & Hfirst); [done | done | done |].
    destruct (Hfirst u v) as [H0 ->]; [done | done |].
    exists xs. do 3 (split; [done|]).
    intros k p q Hp Hq. pose proof (lookup_lt_Some _ _ _ Hq) as Hk.
    rewrite Hrec, Hp in Hq by lia. injection Hq as <-. apply henon_step_R. }
  split; [|exact Hgen].
  intros w. destruct (Hgen 5%Z 0 0 1.4 0.3 w) as (xs & -> & Hlen & H0 & Hrec); [done|].
  do 2 f_equal.
  destruct xs as [|p0 [|p1 [|p2 [|p3 [|p4 [|? ?]]]]]]; try done.
  injection H0 as ->.
  pose proof (Hrec 0%nat _ _ eq_refl eq_refl) as ->.
  pose proof (Hrec 1%nat _ _ eq_refl eq_refl) as ->.
  pose proof (Hrec 2%nat _ _ eq_refl eq_refl) as ->.
  pose proof (Hrec 3%nat _ _ eq_refl eq_refl) as ->.
  cbn [fst snd]. repeat (f_equal; try lra).
Qed.
End henon_real.

(** ** The delay recurrence *)

Section delay.
Context `{Num F}.
Implicit Types (x : list F) (A B c : F) (n : Z).

(** One iteration away from the wrap-around: all three reads are at
    non-negative indices. *)
Lemma mg_body_inner A B c n x (i : Z) :
  0 < n → n ≤ i → i + 1 < Z.of_nat (length x) →
  ∃ xi xd xd1,
    x !! Z.to_nat i = Some xi ∧ x !! Z.to_nat (i - n) = Some xd ∧
    x !! Z.to_nat (i - n + 1) = Some xd1 ∧
    mg_body A B c n i x
    = Returned (<[Z.to_nat (i + 1) := (A * xi + B * (mg_f c xd + mg_f c xd1))%fl]> x).
Proof.
  intros Hn Hi Hlen. unfold mg_body, mg_next.
  destruct (getitem_nonneg x i) as (xi & Hxi & ->); [lia|].
  destruct (getitem_nonneg x (i - n)) as (xd & Hxd & ->); [lia|].
  destruct (getitem_nonneg x (i - n + 1)) as (xd1 & Hxd1 & ->); [lia|].
  exists xi, xd, xd1. simpl. by rewrite setitem_nonneg by lia.
Qed.

(** The first iteration, [i = n - 1]: [x[i - n]] is [x[-1]], the last slot. *)
Lemma mg_body_first A B c n x :
  0 < n → n < Z.of_nat (length x) →
  ∃ xi xd xd1,
    x !! Z.to_nat (n - 1) = Some xi ∧ x !! (length x - 1)%nat = Some xd ∧
    x !! 0%nat = Some xd1 ∧
    getitem x (n - 1 - n) = Returned xd ∧
    mg_body A B c n (n - 1) x
    = Returned (<[Z.to_nat n := (A * xi + B * (mg_f c xd + mg_f c xd1))%fl]> x).
Proof.
  intros Hn Hlen. unfold mg_body, mg_next.
  destruct (getitem_nonneg x (n - 1)) as (xi & Hxi & ->); [lia|].
  destruct (lookup_lt_is_Some_2 x (length x - 1)) as [xd Hxd]; [lia|].
  replace (n - 1 - n) with (-1) by lia.
  rewrite (getitem_minus_one x xd Hxd).
  replace (-1 + 1) with 0 by lia.
  destruct (getitem_nonneg x 0) as (xd1 & Hxd1 & ->); [lia|].
  exists xi, xd, xd1. simpl.
  replace (n - 1 + 1) with n by lia. by rewrite setitem_nonneg by lia.
Qed.

(** The loop from [lo >= n] on: slots up to [lo] are kept, and every later
    slot obeys the recurrence on the final buffer. *)
Lemma mg_loop_inner A B c n (cnt : nat) : ∀ (lo : Z) x,
  0 < n → n ≤ lo → lo + Z.of_nat cnt + 1 = Z.of_nat (length x) →
  ∃ x', for_each (seqZ lo (Z.of_nat cnt)) (mg_body A B c n) x = Returned x' ∧
        length x' = length x ∧
        (∀ j : nat, Z.of_nat j ≤ lo → x' !! j = x !! j) ∧
        (∀ i : Z, lo ≤ i → i + 1 < Z.of_nat (length x) →
           ∃ xi xd xd1,
             x' !! Z.to_nat i = Some xi ∧ x' !! Z.to_nat (i - n) = Some xd ∧
             x' !! Z.to_nat (i - n + 1) = Some xd1 ∧
             x' !! Z.to_nat (i + 1)
             = Some (A * xi + B * (mg_f c xd + mg_f c xd1))%fl).
Proof.
  induction cnt as [|cnt IH]; intros lo x Hn Hlo Hlen.
  - exists x. do 3 (split; [done|]). intros i Hi Hi'. lia.
  - rewrite seqZ_cons by lia. simpl.
    destruct (mg_body_inner A B c n x lo) as (xi & xd & xd1 & Hxi & Hxd & Hxd1 & ->);
      [lia..|]. simpl.
    replace (Z.pred (Z.of_nat (S cnt))) with (Z.of_nat cnt) by lia.
    set (v := (A * xi + B * (mg_f c xd + mg_f c xd1))%fl) in *.
    destruct (IH (Z.succ lo) (<[Z.to_nat (lo + 1) := v]> x))
      as (x' & Hrun & Hl & Hlow & Hrec); [lia | lia | rewrite length_insert; lia |].
    rewrite length_insert in Hl, Hrec.
    assert (∀ j : nat, Z.of_nat j ≤ lo → x' !! j = x !! j) as Hkeep.
    { intros j Hj. rewrite Hlow by lia. apply list_lookup_insert_ne. lia. }
    exists x'. do 2 (split; [done|]). split; [done|].
    intros i Hi Hi'. destruct (decide (i = lo)) as [->|Hne].
    + exists xi, xd, xd1.
      rewrite <- Hxi, <- Hxd, <- Hxd1.
      split; [apply Hkeep; lia|]. split; [apply Hkeep; lia|].
      split; [apply Hkeep; lia|].
      rewrite Hlow by lia. apply list_lookup_insert_eq. lia.
    + apply Hrec; lia.
Qed.
End delay.

Section delay_runs.
Context `{Num F}.

Lemma mg_seed_runs (length : Z) (x0 : pyval F) (b tau : F) (n : Z) (sample : F)
    (discard sub : Z) (w : World F) :
  mg_valid length x0 b tau n sample discard sub →
  let G := n * discard + sub * length in
  ∃ seeds w',
    mg_seed length x0 tau n sample discard w
    = (Returned (sub, seeds ++ drop (Z.to_nat n) (stale w <$> seq 0 (Z.to_nat G))), w') ∧
    List.length seeds = Z.to_nat n ∧
    (∀ vs, x0 = PSeq vs → seeds = vs ∧ w' = w).
Proof.
  intros (HL & HD & Hn & Htau & Hsub & Hsub1 & Hden & Hx0 & HG) G.
  unfold mg_seed, delay_stride, py_div. rewrite Htau. simpl rbind.
  rewrite <- Hsub. unfold bind at 1, lift at 1. fold G.
  assert (0 ≤ G) as HG0 by (unfold G; nia).
  rewrite (bind_returned _ _ _ _ _ (np_empty_returned G w HG0)).
  set (x := stale w <$> seq 0 (Z.to_nat G)).
  assert (List.length x = Z.to_nat G) as Hlen
    by (unfold x; by rewrite length_fmap, length_seq).
  assert (∀ seeds, List.length seeds = Z.to_nat n →
            assign_upto x n (PSeq seeds) = Returned (seeds ++ drop (Z.to_nat n) x))
    as Hassign.
  { intros seeds Hs. unfold assign_upto.
    rewrite clip_stop_fits by lia. simpl.
    by rewrite bool_decide_eq_true_2 by done. }
  destruct x0 as [| |vs]; simpl in Hx0; [|done|].
  - simpl py_not. cbv iota.
    set (u := (λ j, tape w (cursor w + j)%nat) <$> seq 0 (Z.to_nat n)).
    set (seeds := fadd (lit 0.5) <$> jitter (lit 0.05) u).
    assert (List.length seeds = Z.to_nat n) as Hs.
    { unfold seeds, jitter, u. by rewrite !length_fmap, length_seq. }
    eexists seeds, _. split; [|split; [done | by intros vs [=]]].
    erewrite bind_returned; [done|].
    erewrite bind_returned; [|apply np_random_returned; lia].
    unfold lift. fold u seeds. by rewrite Hassign.
  - assert (py_not (PSeq vs) = false) as ->.
    { simpl. apply bool_decide_eq_false_2. intros ->. simpl in Hx0. lia. }
    exists vs, w. split.
    { unfold bind, lift, ret. by rewrite Hassign. }
    split; [done|]. by intros ? [= <-].
Qed.

(** The whole run of the fine grid: the seeded buffer, the final buffer and
    the recurrence that links them. *)
Lemma mg_grid_runs (length : Z) (x0 : pyval F) (a b c tau : F) (n : Z)
    (sample : F) (discard sub : Z) (w : World F) :
  mg_valid length x0 b tau n sample discard sub →
  let G := n * discard + sub * length in
  let A := ((of_Z (2 * n) - b * tau) / (of_Z (2 * n) + b * tau))%fl in
  let B := (a * tau / (of_Z (2 * n) + b * tau))%fl in
  ∃ seeded x w',
    mg_seed length x0 tau n sample discard w = (Returned (sub, seeded), w') ∧
    mg_grid length x0 a b c tau n sample discard w = (Returned (sub, x), w') ∧
    Z.of_nat (List.length seeded) = G ∧ Z.of_nat (List.length x) = G ∧
    (∀ j : nat, Z.of_nat j < n → x !! j = seeded !! j) ∧
    (∀ j : nat, n ≤ Z.of_nat j < G → seeded !! j = Some (stale w j)) ∧
    (∀ vs, x0 = PSeq vs → take (Z.to_nat n) seeded = vs ∧ w' = w) ∧
    (∀ i : Z, n - 1 ≤ i ≤ G - 2 →
       ∃ xi xd xd1,
         x !! Z.to_nat i = Some xi ∧
         getitem (if bool_decide (i = n - 1) then seeded else x) (i - n) = Returned xd ∧
         x !! Z.to_nat (i - n + 1) = Some xd1 ∧
         x !! Z.to_nat (i + 1) = Some (A * xi + B * (mg_f c xd + mg_f c xd1))%fl).
Proof.
  intros Hv G A B.
  destruct (mg_seed_runs length x0 b tau n sample discard sub w Hv)
    as (seeds & w' & Hseed & Hslen & Hx0).
  destruct Hv as (HL & HD & Hn & Htau & Hsub & Hsub1 & Hden & _ & HG).
  fold G in Hseed, HG.
  set (seeded := seeds ++ drop (Z.to_nat n) (stale w <$> seq 0 (Z.to_nat G))) in *.
  assert (Z.of_nat (List.length seeded) = G) as Hlen.
  { unfold seeded. rewrite length_app, length_drop, length_fmap, length_seq. lia. }
  assert (∀ j : nat, n ≤ Z.of_nat j < G → seeded !! j = Some (stale w j)) as Hstale.
  { intros j Hj. unfold seeded. rewrite lookup_app_r by lia.
    rewrite lookup_drop, list_lookup_fmap.
    replace (Z.to_nat n + (j - List.length seeds))%nat with j by lia.
    by rewrite lookup_seq_lt by lia. }
  assert (∀ vs, x0 = PSeq vs → take (Z.to_nat n) seeded = vs ∧ w' = w) as Htake.
  { intros vs Hvs. destruct (Hx0 vs Hvs) as [<- ->]. split; [|done].
    unfold seeded. by rewrite take_app_length' by done. }
  assert (∀ x, Z.of_nat (List.length x) = G →
    for_each (py_range (n - 1) (G - 1)) (mg_body A B c n) seeded = Returned x →
    mg_grid length x0 a b c tau n sample discard w = (Returned (sub, x), w')) as Hgrid.
  { intros x Hx Hrun. unfold mg_grid.
    rewrite (bind_returned _ _ _ _ _ Hseed). cbv beta iota zeta.
    unfold lift, mg_A, mg_B, py_div. rewrite Hden. simpl rbind.
    fold G A B. by rewrite Hrun. }
  unfold py_range in Hgrid.
  destruct (decide (G = n)) as [Heq|Hne].
  - (* the grid is the initial block: the loop does not run *)
    exists seeded, seeded, w'. split; [done|]. split.
    { apply Hgrid; [done|]. by replace (G - 1 - (n - 1)) with 0 by lia. }
    do 2 (split; [done|]). split; [done|]. split; [done|]. split; [done|].
    intros i Hi. lia.
  - destruct (mg_body_first A B c n seeded)
      as (xi & xd & xd1 & Hxi & Hxd & Hxd1 & Hget & Hbody); [lia | lia |].
    set (v := (A * xi + B * (mg_f c xd + mg_f c xd1))%fl) in *.
    destruct (mg_loop_inner A B c n (Z.to_nat (G - 1 - n)) n (<[Z.to_nat n := v]> seeded))
      as (x & Hrun & Hl & Hlow & Hrec); [lia | lia | rewrite length_insert; lia |].
    rewrite length_insert in Hl, Hrec.
    assert (∀ j : nat, Z.of_nat j < n → x !! j = seeded !! j) as Hkeep.
    { intros j Hj. rewrite Hlow by lia. apply list_lookup_insert_ne. lia. }
    exists seeded, x, w'. split; [done|]. split.
    { apply Hgrid; [lia|]. rewrite seqZ_cons by lia. simpl. rewrite Hbody. simpl.
      replace (Z.succ (n - 1)) with n by lia.
      replace (Z.pred (G - 1 - (n - 1))) with (Z.of_nat (Z.to_nat (G - 1 - n))) by lia.
      done. }
    split; [done|]. split; [lia|]. split; [done|]. split; [done|]. split; [done|].
    intros i Hi. case_bool_decide as Hfirst.
    + subst i. exists xi, xd, xd1. rewrite Hkeep, Hxi by lia.
      split; [done|]. split; [done|].
      replace (n - 1 - n + 1) with 0 by lia. change (Z.to_nat 0) with 0%nat.
      rewrite Hkeep, Hxd1 by lia.
      split; [done|]. replace (n - 1 + 1) with n by lia.
      rewrite Hlow by lia. apply list_lookup_insert_eq. lia.
    + destruct (Hrec i) as (yi & yd & yd1 & Hyi & Hyd & Hyd1 & Hnext); [lia | lia |].
      exists yi, yd, yd1. split; [done|]. split; [|done].
      apply getitem_lookup; [lia | done].
Qed.

Lemma mackey_glass_runs (length : Z) (x0 : pyval F) (a b c tau : F) (n : Z)
    (sample : F) (discard sub : Z) (w : World F) :
  mg_valid length x0 b tau n sample discard sub →
  ∃ x xs w',
    mg_grid length x0 a b c tau n sample discard w = (Returned (sub, x), w') ∧
    mackey_glass length x0 a b c tau n sample discard w = (Returned xs, w') ∧
    List.length xs = Z.to_nat length ∧
    ∀ k : nat, (k < Z.to_nat length)%nat →
               xs !! k = x !! Z.to_nat (n * discard + Z.of_nat k * sub).
Proof.
  intros Hv.
  destruct (mg_grid_runs length x0 a b c tau n sample discard sub w Hv)
    as (seeded & x & w' & _ & Hgrid & _ & Hlen & _).
  destruct Hv as (HL & HD & Hn & _ & _ & Hsub1 & _ & _ & _).
  destruct (slice_from_step_exact x (n * discard) sub length)
    as (xs & Hslice & Hxs & Hlook); [lia | nia | lia | lia |].
  exists x, xs, w'. split; [done|]. split; [|done].
  unfold mackey_glass. rewrite (bind_returned _ _ _ _ _ Hgrid).
  cbv beta iota. unfold lift. by rewrite Hslice.
Qed.
End delay_runs.

(** ** The flows *)

Section flows.
Context `{Num F}.
Variable odeint :
  (list F → F → result (list F)) → pyval F → list F → result (list (list F)).

Lemma np_linspace_length (start stop : F) (num : Z) :
  0 ≤ num →
  ∃ t, np_linspace start stop num = Returned t ∧ length t = Z.to_nat num.
Proof.
  intros Hnum. unfold np_linspace. rewrite bool_decide_eq_false_2 by lia.
  case_bool_decide; [subst; by eexists|].
  case_bool_decide; [subst; by eexists|].
  eexists; split; [done|].
  rewrite length_app, length_fmap, length_seqZ. simpl. lia.
Qed.

Lemma flow_stride_returned (sample step : F) :
  fis_zero step = false →
  flow_stride sample step = Returned (ftrunc (sample / step)%fl).
Proof. intros Hs. unfold flow_stride, py_div. by rewrite Hs. Qed.

Lemma flow_grid_runs (length : Z) (step sample : F) (discard : Z) :
  fis_zero step = false →
  let stride := ftrunc (sample / step)%fl in
  0 ≤ stride * (length + discard) →
  ∃ t, flow_grid length step sample discard = Returned (stride, t) ∧
       np_linspace 0%fl (of_Z (stride * (length + discard)) * step)%fl
         (stride * (length + discard)) = Returned t ∧
       Z.of_nat (List.length t) = stride * (length + discard).
Proof.
  intros Hs stride HN. unfold flow_grid. rewrite flow_stride_returned by done.
  simpl rbind. fold stride.
  destruct (np_linspace_length 0%fl (of_Z (stride * (length + discard)) * step)%fl
              (stride * (length + discard)) HN) as (t & Ht & Hlen).
  exists t. rewrite Ht. split; [done|]. split; [done | lia].
Qed.

(** Sampling a grid of [stride * (length + discard)] points (or states)
    from [discard * stride] on, every [stride]-th one, keeps [length]. *)
Lemma flow_sample {A} (l : list A) (length discard stride : Z) :
  0 < length → 0 ≤ discard → 1 ≤ stride →
  Z.of_nat (List.length l) = stride * (length + discard) →
  ∃ r, slice_from_step l (discard * stride) stride = Returned r ∧
       List.length r = Z.to_nat length.
Proof.
  intros HL HD Hs Hlen.
  destruct (slice_from_step_exact l (discard * stride) stride length)
    as (r & Hr & Hrl & _); [lia | nia | lia | lia |].
  by exists r.
Qed.

(** The last three statements of both flows. *)
Lemma flow_tail (f : list F → F → result (list F)) (x0 : pyval F) (t : list F)
    (length discard stride : Z) :
  0 < length → 0 ≤ discard → 1 ≤ stride →
  Z.of_nat (List.length t) = stride * (length + discard) →
  (∃ ys, odeint f x0 t = Returned ys ∧ List.length ys = List.length t) →
  ∃ ts xs,
    (let? ts := slice_from_step t (discard * stride) stride in
     let? xs := odeint f x0 t in
     let? xs := slice_from_step xs (discard * stride) stride in
     Returned (ts, xs)) = Returned (ts, xs) ∧
    List.length ts = Z.to_nat length ∧ List.length xs = Z.to_nat length.
Proof.
  intros HL HD Hs Hlen (ys & Hys & Hyl).
  destruct (flow_sample t length discard stride) as (ts & -> & Htl); [done..|].
  destruct (flow_sample ys length discard stride) as (xs & Hxs & Hxl);
    [done | done | done | lia |].
  exists ts, xs. simpl. rewrite Hys. simpl. by rewrite Hxs.
Qed.

Lemma lorenz_runs (length : Z) (x0 : pyval F) (sigma beta rho step sample : F)
    (discard : Z) (w : World F) :
  0 < length → 0 ≤ discard → valid_x0 3 x0 →
  fis_zero step = false → 1 ≤ ftrunc (sample / step)%fl →
  integrates odeint (_lorenz sigma beta rho) →
  ∃ ts xs w',
    lorenz odeint length x0 sigma beta rho step sample discard w
    = (Returned (ts, xs), w') ∧
    List.length ts = Z.to_nat length ∧ List.length xs = Z.to_nat length.
Proof.
  intros HL HD Hx0 Hstep Hstride Hode. unfold lorenz.
  destruct (flow_grid_runs length step sample discard Hstep) as (t & Hgrid & _ & Hlen);
    [nia|].
  assert (∀ y0 : list F, List.length y0 = 3%nat → ∃ ts xs,
    (let? (sample, t) := flow_grid length step sample discard in
     let? ts := slice_from_step t (discard * sample) sample in
     let? xs := odeint (_lorenz sigma beta rho) (PSeq y0) t in
     let? xs := slice_from_step xs (discard * sample) sample in
     Returned (ts, xs)) = Returned (ts, xs) ∧
    List.length ts = Z.to_nat length ∧ List.length xs = Z.to_nat length) as Htail.
  { intros y0 Hy0. rewrite Hgrid. simpl rbind.
    apply flow_tail; [done | done | done | done | by apply Hode]. }
  destruct x0 as [| |vs]; simpl in Hx0; [|done|].
  - simpl py_not. cbv iota.
    set (u := (λ j, tape w (cursor w + j)%nat) <$> seq 0 (Z.to_nat 3)).
    set (y0 := zip_with fadd [lit 0.0; lit (-0.01); lit 9.0] (jitter (lit 0.25) u)).
    destruct (Htail y0) as (ts & xs & Hrun & Htl & Hxl); [done|].
    exists ts, xs. eexists. split; [|done].
    erewrite bind_returned; [unfold lift; by rewrite Hrun|].
    erewrite bind_returned; [|by apply np_random_returned]. done.
  - assert (py_not (PSeq vs) = false) as ->.
    { simpl. apply bool_decide_eq_false_2. by intros ->. }
    destruct (Htail vs) as (ts & xs & Hrun & Htl & Hxl); [done|].
    exists ts, xs, w. split; [|done].
    unfold bind, ret, lift. by rewrite Hrun.
Qed.

Lemma roessler_runs (length : Z) (x0 : pyval F) (a b c step sample : F)
    (discard : Z) (w : World F) :
  0 < length → 0 ≤ discard → valid_x0 3 x0 →
  fis_zero step = false → 1 ≤ ftrunc (sample / step)%fl →
  integrates odeint (_roessler a b c) →
  ∃ ts xs w',
    roessler odeint length x0 a b c step sample discard w
    = (Returned (ts, xs), w') ∧
    List.length ts = Z.to_nat length ∧ List.length xs = Z.to_nat length.
Proof.
  intros HL HD Hx0 Hstep Hstride Hode. unfold roessler.
  destruct (flow_grid_runs length step sample discard Hstep) as (t & Hgrid & _ & Hlen);
    [nia|].
  unfold bind at 1, lift at 1. rewrite Hgrid. cbv beta iota.
  destruct x0 as [| |vs]; simpl in Hx0; [|done|].
  - simpl py_not. cbv iota.
    set (u := (λ j, tape w (cursor w + j)%nat) <$> seq 0 (Z.to_nat 3)).
    set (y0 := zip_with fadd [lit (-9.0); lit 0.0; lit 0.0] (jitter (lit 0.25) u)).
    destruct (flow_tail (_roessler a b c) (PSeq y0) t length discard
                (ftrunc (sample / step)%fl))
      as (ts & xs & Hrun & Htl & Hxl); [done | done | done | done | by apply Hode |].
    exists ts, xs. eexists. split; [|done].
    erewrite bind_returned; [unfold lift; by rewrite Hrun|].
    erewrite bind_returned; [|by apply np_random_returned]. done.
  - assert (py_not (PSeq vs) = false) as ->.
    { simpl. apply bool_decide_eq_false_2. by intros ->. }
    destruct (flow_tail (_roessler a b c) (PSeq vs) t length discard
                (ftrunc (sample / step)%fl))
      as (ts & xs & Hrun & Htl & Hxl); [done | done | done | done | by apply Hode |].
    exists ts, xs, w. split; [|done].
    unfold bind, ret, lift. by rewrite Hrun.
Qed.
End flows.

(** ** The noise synthesizer *)

Section noise.
Context `{Num F}.
Variable irfft : list (F * F) → Z → result (list F).

Lemma np_rfftfreq_returned (n : Z) :
  0 < n →
  ∃ freqs, np_rfftfreq n = Returned freqs ∧
           Z.of_nat (length freqs) = n `div` 2 + 1.
Proof.
  intros Hn. unfold np_rfftfreq. rewrite bool_decide_eq_false_2 by lia.
  eexists; split; [done|]. rewrite length_fmap, length_seqZ.
  pose proof (Z.div_pos n 2). lia.
Qed.

(** Applying a cutoff keeps the number of bins. *)
Lemma cutoff_returned (g : F → F → bool) (cut : option F) (power freqs : list F) :
  length power = length freqs →
  ∃ power',
    match cut with
    | Some c => if fis_zero c then Returned power
                else mask_zero power ((λ f, g f c) <$> freqs)
    | None => Returned power
    end = Returned power' ∧ length power' = length freqs.
Proof.
  intros Hlen. destruct cut as [c|]; [|by exists power].
  destruct (fis_zero c); [by exists power|].
  unfold mask_zero. rewrite bool_decide_eq_true_2 by (by rewrite length_fmap).
  eexists; split; [done|]. rewrite length_zip_with, length_fmap. lia.
Qed.

Lemma falpha_signal_runs (length : Z) (alpha : F) (fl fu : option F) (w : World F) :
  0 < length → inverts irfft →
  ∃ x w', falpha_signal irfft length alpha fl fu w = (Returned x, w') ∧
          List.length x = Z.to_nat length.
Proof.
  intros HL Hirfft. unfold falpha_signal.
  destruct (np_rfftfreq_returned length HL) as (freqs & -> & Hfreqs).
  unfold bind at 1, lift at 1. cbv zeta.
  set (power := 0%fl :: _).
  assert (List.length power = List.length freqs) as Hp.
  { unfold power. simpl. rewrite length_fmap, slice_from_nonneg by lia.
    rewrite length_drop. pose proof (Z.div_pos length 2). lia. }
  destruct (cutoff_returned (λ f c, fltb f c) fl power freqs Hp) as (p1 & -> & Hp1).
  unfold bind at 1, lift at 1.
  destruct (cutoff_returned (λ f c, fltb c f) fu p1 freqs Hp1) as (p2 & -> & Hp2).
  unfold bind at 1, lift at 1.
  erewrite bind_returned; [|apply np_random_returned; lia].
  set (w' := mkWorld _ _ _).
  set (phase := _ <$> (_ <$> _)).
  assert (List.length phase = List.length freqs) as Hph.
  { unfold phase. rewrite !length_fmap, length_seq. lia. }
  unfold broadcast2. rewrite bool_decide_eq_true_2 by lia.
  unfold bind at 1, lift at 1.
  set (y := zip_with _ p2 phase).
  assert (Z.of_nat (List.length y) = length `div` 2 + 1) as Hy.
  { unfold y. rewrite length_zip_with. lia. }
  set (ny := if bool_decide (length `mod` 2 = 0) then _ else Returned y).
  assert (∃ y', ny = Returned y') as [y' ->].
  { unfold ny. case_bool_decide; [|by eexists].
    pose proof (Z.div_pos length 2).
    destruct (lookup_lt_is_Some_2 y (List.length y - 1)) as [last Hlast]; [lia|].
    rewrite (getitem_minus_one y last Hlast). simpl.
    unfold setitem. rewrite norm_index_neg by lia. by eexists. }
  unfold bind, lift.
  destruct (Hirfft y' length HL) as (x & -> & Hx). by exists x, w'.
Qed.

Lemma rescale_length (mean var : F) (x : list F) :
  List.length (rescale mean var x) = List.length x.
Proof. unfold rescale. by rewrite !length_fmap. Qed.

Lemma falpha_runs (length : Z) (alpha : F) (fl fu : option F) (mean var : F)
    (w : World F) :
  0 < length → inverts irfft →
  ∃ x w', falpha_signal irfft length alpha fl fu w = (Returned x, w') ∧
          falpha irfft length alpha fl fu mean var w
          = (Returned (rescale mean var x), w') ∧
          List.length (rescale mean var x) = Z.to_nat length.
Proof.
  intros HL Hirfft.
  destruct (falpha_signal_runs length alpha fl fu w HL Hirfft) as (x & w' & Hsig & Hx).
  exists x, w'. split; [done|]. split; [|by rewrite rescale_length].
  unfold falpha. by rewrite (bind_returned _ _ _ _ _ Hsig).
Qed.
End noise.

(** ** The reference collaborators meet their contracts *)

Section collaborator_facts.
Context `{Num F}.

Lemma euler_run_length (f : list F → F → result (list F)) (ts : list F) :
  (∀ y t, length y = 3%nat → ∃ d, f y t = Returned d ∧ length d = 3%nat) →
  ∀ y t0, length y = 3%nat →
    ∃ ys, euler_run f y t0 ts = Returned ys ∧ length ys = length ts.
Proof.
  intros Hf. induction ts as [|t1 ts IH]; intros y t0 Hy; [by exists []|].
  simpl. destruct (Hf y t0 Hy) as (d & -> & Hd). simpl.
  rewrite bool_decide_eq_true_2 by lia.
  destruct (IH (zip_with (λ yi di, yi + (t1 - t0) * di)%fl y d) t1) as (ys & -> & Hys).
  { rewrite length_zip_with. lia. }
  eexists; split; [done|]. simpl. by rewrite Hys.
Qed.

Lemma euler_integrates (f : list F → F → result (list F)) :
  (∀ y t, length y = 3%nat → ∃ d, f y t = Returned d ∧ length d = 3%nat) →
  integrates euler_odeint f.
Proof.
  intros Hf y0 t Hy0. unfold euler_odeint. simpl.
  destruct t as [|t0 ts]; [by exists []|].
  destruct (euler_run_length f ts Hf y0 t0 Hy0) as (ys & -> & Hys).
  eexists; split; [done|]. simpl. by rewrite Hys.
Qed.

Lemma euler_checks_state (f : list F → F → result (list F)) :
  checks_state euler_odeint f.
Proof.
  intros y0 t0 t1 ts. unfold euler_odeint. simpl. split.
  - by intros e ->.
  - intros d -> Hd. simpl. by rewrite bool_decide_eq_false_2.
Qed.

Lemma _lorenz_returned (sigma beta rho : F) (y : list F) (t : F) :
  length y = 3%nat → ∃ d, _lorenz sigma beta rho y t = Returned d ∧ length d = 3%nat.
Proof.
  intros Hy. destruct y as [|y0 [|y1 [|y2 [|? ?]]]]; try done. by eexists.
Qed.

Lemma _roessler_returned (a b c : F) (y : list F) (t : F) :
  length y = 3%nat → ∃ d, _roessler a b c y t = Returned d ∧ length d = 3%nat.
Proof.
  intros Hy. destruct y as [|y0 [|y1 [|y2 [|? ?]]]]; try done. by eexists.
Qed.

Lemma dft_inverts : inverts (dft_irfft (F := F)).
Proof.
  intros y n Hn. unfold dft_irfft. rewrite bool_decide_eq_false_2 by lia.
  eexists; split; [done|]. by rewrite length_fmap, length_seqZ.
Qed.
End collaborator_facts.

(** ** mackey_glass: the recurrence and its first step *)

Section delay_real_examples.
Local Open Scope R_scope.

(** [mackey_glass(length=2, x0=[0.5], a=1, b=0, c=1, tau=1, n=1, sample=1,
    discard=1)] is a valid call with stride 1. *)
Lemma mg_valid_example : mg_valid 2 (PSeq [1 / 2]) 0 1 1 1 1 1.
Proof.
  unfold mg_valid. cbn [fis_zero of_Z fadd fmul fdiv ftrunc Num_R].
  split; [lia|]. split; [lia|]. split; [lia|].
  split; [apply fis_zero_R_false; lra|].
  split; [replace (1 * 1 / 1) with (IZR 1) by lra; by rewrite Rtrunc_IZR|].
  split; [lia|].
  split; [apply fis_zero_R_false; change (2 * 1)%Z with 2%Z; lra|].
  split; [done | lia].
Qed.
End delay_real_examples.


(** C10: on every valid call whose loop runs ([n < G]), the first
    iteration [i = n-1] reads [x[i-n] = x[-1]], the last slot [G-1] of the
    buffer; that slot lies outside the seeded block [0..n-1] and still holds
    whatever [np.empty] left there.  [x[n]] is computed from that stale
    value, with [discard = 1] it is the first returned sample, and the
    seeded block itself is unchanged.  From [i = n] on, every read is at a
    non-negative index of the final grid. *)
Theorem mackey_glass_first_step_reads_stale `{Num F} (length : Z) (x0 : pyval F)
    (a b c tau : F) (n : Z) (sample : F) (discard sub : Z) (w : World F) :
  mg_valid length x0 b tau n sample discard sub →
  let G := n * discard + sub * length in
  let A := ((of_Z (2 * n) - b * tau) / (of_Z (2 * n) + b * tau))%fl in
  let B := (a * tau / (of_Z (2 * n) + b * tau))%fl in
  n < G →
  ∃ seeded x xs w',
    mg_seed length x0 tau n sample discard w = (Returned (sub, seeded), w') ∧
    mg_grid length x0 a b c tau n sample discard w = (Returned (sub, x), w') ∧
    mackey_glass length x0 a b c tau n sample discard w = (Returned xs, w') ∧
    getitem seeded (n - 1 - n) = Returned (stale w (Z.to_nat (G - 1))) ∧
    seeded !! Z.to_nat (G - 1) = Some (stale w (Z.to_nat (G - 1))) ∧
    n ≤ G - 1 ∧
    (∃ xi xd1,
       getitem x (n - 1) = Returned xi ∧ getitem x 0 = Returned xd1 ∧
       getitem x n
       = Returned (A * xi + B * (mg_f c (stale w (Z.to_nat (G - 1))) + mg_f c xd1))%fl) ∧
    (discard = 1 → xs !! 0%nat = x !! Z.to_nat n) ∧
    (∀ vs, x0 = PSeq vs → take (Z.to_nat n) x = vs) ∧
    (∀ i : Z, n ≤ i ≤ G - 2 →
       ∃ xi xd xd1,
         x !! Z.to_nat i = Some xi ∧ x !! Z.to_nat (i - n) = Some xd ∧
         x !! Z.to_nat (i - n + 1) = Some xd1 ∧
         x !! Z.to_nat (i + 1) = Some (A * xi + B * (mg_f c xd + mg_f c xd1))%fl).
Proof.
  intros Hv G A B HnG.
  destruct (mg_grid_runs length x0 a b c tau n sample discard sub w Hv)
    as (seeded & x & w' & Hseed & Hgrid & Hslen & Hlen & Hkeep & Hstale & Htake & Hrec).
  destruct (mackey_glass_runs length x0 a b c tau n sample discard sub w Hv)
    as (x' & xs & w'' & Hgrid' & Hrun & Hxs & Hlook).
  rewrite Hgrid in Hgrid'. injection Hgrid' as <- <-.
  destruct Hv as (HL & HD & Hn & _).
  fold G in Hslen, Hlen, Hstale, Hrec.
  assert (seeded !! Z.to_nat (G - 1) = Some (stale w (Z.to_nat (G - 1)))) as Hlast
    by (apply Hstale; lia).
  assert (getitem seeded (n - 1 - n) = Returned (stale w (Z.to_nat (G - 1)))) as Hread.
  { replace (n - 1 - n) with (-1) by lia. apply getitem_minus_one.
    replace (List.length seeded - 1)%nat with (Z.to_nat (G - 1)) by lia. done. }
  exists seeded, x, xs, w'. do 5 (split; [done|]). split; [lia|].
  split; [|split; [|split]].
  - destruct (Hrec (n - 1)) as (xi & xd & xd1 & Hxi & Hxd & Hxd1 & Hnext); [lia|].
    rewrite bool_decide_eq_true_2 in Hxd by done.
    rewrite Hread in Hxd. injection Hxd as <-.
    replace (n - 1 - n + 1) with 0 in Hxd1 by lia.
    replace (n - 1 + 1) with n in Hnext by lia.
    exists xi, xd1. split; [apply getitem_lookup; [lia | done]|].
    split; apply getitem_lookup; (lia || done).
  - intros ->. rewrite Hlook by lia. do 2 f_equal. lia.
  - intros vs Hvs. destruct (Htake vs Hvs) as [<- _].
    apply list_eq. intros j. rewrite !lookup_take.
    case_decide; [apply Hkeep; lia | done].
  - intros i Hi.
    destruct (Hrec i) as (xi & xd & xd1 & Hxi & Hxd & Hxd1 & Hnext); [lia|].
    rewrite bool_decide_eq_false_2 in Hxd by lia.
    destruct (getitem_nonneg x (i - n)) as (v & Hv & Hg); [lia|].
    rewrite Hg in Hxd. injection Hxd as ->. by exists xi, xd, xd1.
Qed.

Lemma getitem_returned_lookup {A} (l : list A) (i : Z) (v : A) :
  0 ≤ i → getitem l i = Returned v → l !! Z.to_nat i = Some v.
Proof.
  intros Hi. unfold getitem.
  destruct (norm_index (length l) i) as [k|] eqn:Hk; [|done].
  unfold norm_index in Hk. repeat case_bool_decide; try lia; [|done].
  injection Hk as <-. by destruct (l !! Z.to_nat i); intros [= ->].
Qed.

Lemma mg_f_R (u : R) : mg_f (1%R) u = (u / (1 + u))%R.
Proof.
  unfold mg_f. cbn [fadd fdiv fpow of_Z Num_R].
  rewrite Rpow_IZR. simpl. by rewrite Rmult_1_r.
Qed.

(** The same call on two worlds that differ only in the stale memory
    returns two different trajectories. *)
Lemma mackey_glass_depends_on_stale_memory :
  ∃ xs xs' w1 w2,
    mackey_glass 2 (PSeq [(1 / 2)%R]) 1%R 0%R 1%R 1%R 1 1%R 1 world0 = (Returned xs, w1) ∧
    mackey_glass 2 (PSeq [(1 / 2)%R]) 1%R 0%R 1%R 1%R 1 1%R 1 world1 = (Returned xs', w2) ∧
    xs !! 0%nat ≠ xs' !! 0%nat.
Proof.
  destruct (mackey_glass_first_step_reads_stale 2 (PSeq [(1 / 2)%R]) 1%R 0%R 1%R 1%R
              1 1%R 1 1 world0 mg_valid_example)
    as (s & x & xs & w1 & _ & _ & Hrun & _ & _ & _ & (xi & xd1 & Hxi & Hxd1 & Hxn)
        & Hfirst & Htake & _); [lia|].
  destruct (mackey_glass_first_step_reads_stale 2 (PSeq [(1 / 2)%R]) 1%R 0%R 1%R 1%R
              1 1%R 1 1 world1 mg_valid_example)
    as (s' & x' & xs' & w2 & _ & _ & Hrun' & _ & _ & _ & (xi' & xd1' & Hxi' & Hxd1' & Hxn')
        & Hfirst' & Htake' & _); [lia|].
  exists xs, xs', w1, w2. do 2 (split; [done|]).
  rewrite Hfirst, Hfirst' by done.
  apply getitem_returned_lookup in Hxn, Hxn', Hxi, Hxi', Hxd1, Hxd1'; try lia.
  rewrite Hxn, Hxn'.
  assert (x !! 0%nat = Some (1 / 2)%R) as Hx0.
  { specialize (Htake _ eq_refl). by destruct x as [|? ?]; simplify_eq/=. }
  assert (x' !! 0%nat = Some (1 / 2)%R) as Hx0'.
  { specialize (Htake' _ eq_refl). by destruct x' as [|? ?]; simplify_eq/=. }
  change (Z.to_nat (1 - 1)) with 0%nat in *. change (Z.to_nat 0) with 0%nat in *.
  simplify_eq. rewrite !mg_f_R. simpl stale.
  cbn [fadd fsub fmul fdiv of_Z Num_R]. change (2 * 1)%Z with 2%Z.
  intros [= Heq]. lra.
Defined.

(** ** The recurrence on a concrete grid *)

Section delay_grid_example.
Local Open Scope R_scope.


End delay_grid_example.

Section delay_recurrence_examples.
Local Open Scope R_scope.


End delay_recurrence_examples.

(** ** Calls that raise *)

Section failures.
Context `{Num F}.

Lemma broadcast_to_mismatch (m : nat) (vs : list F) :
  length vs ≠ m → length vs ≠ 1%nat → broadcast_to m (PSeq vs) = Raised ValueError.
Proof.
  intros Hm H1. unfold broadcast_to. rewrite bool_decide_eq_false_2 by done.
  by destruct vs as [|v [|? ?]].
Qed.

Lemma broadcast_to_single (m : nat) (v : F) :
  broadcast_to m (PSeq [v]) = Returned (replicate m v).
Proof.
  unfold broadcast_to. case_bool_decide as Hm; [|done].
  simpl in Hm. by subst m.
Qed.

(** The default initial condition of a flow never raises. *)
Lemma flow_x0_returns (x0 : pyval F) (centre : list F) (w : World F) :
  ∃ y w',
    (if py_not x0 then
       u <- np_random 3 ;; ret (PSeq (zip_with fadd centre (jitter (lit 0.25) u)))
     else ret x0) w = (Returned y, w') ∧
    (py_not x0 = false → y = x0 ∧ w' = w).
Proof.
  destruct (py_not x0).
  - eexists _, _. split; [|done].
    erewrite bind_returned; [|by apply np_random_returned]. done.
  - by exists x0, w.
Qed.

(** A stride that is zero or negative: the time grid is empty or cannot
    be built, and the slice [t[discard*stride::stride]] raises. *)
Lemma flow_grid_bad_stride (length : Z) (step sample : F) (discard : Z) :
  0 < length → 0 ≤ discard →
  fis_zero step = false → ftrunc (sample / step)%fl ≤ 0 →
  (let? (sample, t) := flow_grid length step sample discard in
   slice_from_step t (discard * sample) sample) = Raised ValueError.
Proof.
  intros HL HD Hstep Hs. unfold flow_grid.
  rewrite flow_stride_returned by done. simpl rbind.
  set (s := ftrunc _) in *. unfold np_linspace.
  case_bool_decide as Hneg; [done|].
  assert (s = 0) as -> by nia.
  by rewrite bool_decide_eq_true_2 by lia.
Qed.

Section flows_fail.
Variable odeint :
  (list F → F → result (list F)) → pyval F → list F → result (list (list F)).

Lemma lorenz_bad_stride (length : Z) (x0 : pyval F) (sigma beta rho step sample : F)
    (discard : Z) (w : World F) :
  0 < length → 0 ≤ discard →
  fis_zero step = false → ftrunc (sample / step)%fl ≤ 0 →
  (lorenz odeint length x0 sigma beta rho step sample discard w).1 = Raised ValueError.
Proof.
  intros HL HD Hstep Hs. unfold lorenz.
  destruct (flow_x0_returns x0 [lit 0.0; lit (-0.01); lit 9.0] w) as (y & w' & Hy & _).
  rewrite (bind_returned _ _ _ _ _ Hy). unfold lift. simpl.
  pose proof (flow_grid_bad_stride length step sample discard HL HD Hstep Hs) as Hbad.
  destruct (flow_grid length step sample discard) as [e|[s t]]; simpl in *;
    [by simplify_eq|].
  by rewrite Hbad.
Qed.

Lemma roessler_bad_stride (length : Z) (x0 : pyval F) (a b c step sample : F)
    (discard : Z) (w : World F) :
  0 < length → 0 ≤ discard →
  fis_zero step = false → ftrunc (sample / step)%fl ≤ 0 →
  (roessler odeint length x0 a b c step sample discard w).1 = Raised ValueError.
Proof.
  intros HL HD Hstep Hs. unfold roessler.
  pose proof (flow_grid_bad_stride length step sample discard HL HD Hstep Hs) as Hbad.
  unfold bind at 1, lift at 1.
  destruct (flow_grid length step sample discard) as [e|[s t]]; simpl in *;
    [by simplify_eq|].
  destruct (flow_x0_returns x0 [lit (-9.0); lit 0.0; lit 0.0] w) as (y & w' & Hy & _).
  rewrite (bind_returned _ _ _ _ _ Hy). unfold lift. simpl. by rewrite Hbad.
Qed.
End flows_fail.
End failures.

Section delay_failures.
Context `{Num F}.

Lemma assign_upto_mismatch (x : list F) (n : Z) (vs : list F) :
  length vs ≠ clip_stop (length x) n → length vs ≠ 1%nat →
  assign_upto x n (PSeq vs) = Raised ValueError.
Proof.
  intros Hm H1. unfold assign_upto. by rewrite broadcast_to_mismatch.
Qed.

(** The initial block does not fit its target [x[:n]]: the assignment, and
    with it the call, raises. *)
Lemma mg_seed_mismatch (length : Z) (x0 : pyval F) (tau : F)
    (n : Z) (sample : F) (discard : Z) (w : World F) :
  let sub := ftrunc (of_Z n * sample / tau)%fl in
  let G := n * discard + sub * length in
  fis_zero tau = false → 0 ≤ G → 0 ≤ n →
  (x0 = PNone ∧ Z.to_nat n ≠ clip_stop (Z.to_nat G) n ∧ n ≠ 1) ∨
  (∃ vs, x0 = PSeq vs ∧ vs ≠ [] ∧
         List.length vs ≠ clip_stop (Z.to_nat G) n ∧ List.length vs ≠ 1%nat) →
  ∃ w', mg_seed length x0 tau n sample discard w = (Raised ValueError, w').
Proof.
  intros sub G Htau HG Hn Hx0.
  unfold mg_seed, delay_stride, py_div. rewrite Htau.
  simpl rbind. fold sub. unfold bind at 1, lift at 1. fold G.
  rewrite (bind_returned _ _ _ _ _ (np_empty_returned G w HG)).
  set (x := stale w <$> seq 0 (Z.to_nat G)).
  assert (List.length x = Z.to_nat G) as Hlen
    by (unfold x; by rewrite length_fmap, length_seq).
  destruct Hx0 as [(-> & Hm & H1) | (vs & -> & Hne & Hm & H1)].
  - simpl py_not. cbv iota. eexists.
    eapply bind_raised. erewrite bind_returned; [|by apply np_random_returned].
    unfold lift. rewrite assign_upto_mismatch; [done | |].
    + rewrite Hlen. unfold jitter. by rewrite !length_fmap, length_seq.
    + unfold jitter. rewrite !length_fmap, length_seq. lia.
  - assert (py_not (PSeq vs) = false) as -> by (by apply bool_decide_eq_false_2).
    exists w. eapply bind_raised.
    unfold lift. rewrite assign_upto_mismatch; [done | by rewrite Hlen | done].
Qed.

Lemma mackey_glass_seed_mismatch (length : Z) (x0 : pyval F) (a b c tau : F)
    (n : Z) (sample : F) (discard : Z) (w : World F) :
  let sub := ftrunc (of_Z n * sample / tau)%fl in
  let G := n * discard + sub * length in
  fis_zero tau = false → 0 ≤ G → 0 ≤ n →
  (x0 = PNone ∧ Z.to_nat n ≠ clip_stop (Z.to_nat G) n ∧ n ≠ 1) ∨
  (∃ vs, x0 = PSeq vs ∧ vs ≠ [] ∧
         List.length vs ≠ clip_stop (Z.to_nat G) n ∧ List.length vs ≠ 1%nat) →
  (mackey_glass length x0 a b c tau n sample discard w).1 = Raised ValueError.
Proof.
  intros sub G Htau HG Hn Hx0.
  destruct (mg_seed_mismatch length x0 tau n sample discard w Htau HG Hn Hx0)
    as [w' Hseed].
  unfold mackey_glass, mg_grid.
  erewrite bind_raised; [done|]. by eapply bind_raised.
Qed.

Lemma mg_seed_stride (length : Z) (x0 : pyval F) (tau : F) (n : Z) (sample : F)
    (discard : Z) (w w' : World F) (s : Z) (x : list F) :
  mg_seed length x0 tau n sample discard w = (Returned (s, x), w') →
  delay_stride n sample tau = Returned s.
Proof.
  unfold mg_seed, bind, lift, ret.
  destruct (delay_stride n sample tau) as [e|s0]; [done|].
  destruct (np_empty _ w) as [[e|x1] w1]; [done|].
  destruct (py_not x0).
  - destruct (np_random n w1) as [[e|u] w2]; [done|].
    destruct (assign_upto _ _ _); [done|]. by intros [= <- _ _].
  - destruct (assign_upto _ _ _); [done|]. by intros [= <- _ _].
Qed.

Lemma mg_grid_stride (length : Z) (x0 : pyval F) (a b c tau : F) (n : Z)
    (sample : F) (discard : Z) (w w' : World F) (s : Z) (x : list F) :
  mg_grid length x0 a b c tau n sample discard w = (Returned (s, x), w') →
  delay_stride n sample tau = Returned s.
Proof.
  unfold mg_grid, bind.
  destruct (mg_seed length x0 tau n sample discard w) as [[e|[s0 x1]] w1] eqn:Hseed;
    [done|].
  apply mg_seed_stride in Hseed. unfold lift.
  destruct (mg_A b tau n); [done|]. destruct (mg_B a b tau n); [done|]. simpl.
  destruct (for_each _ _ _); [done|]. simpl. by intros [= <- _ _].
Qed.

(** With a stride of zero the final slice [x[n*discard::0]] always raises,
    if nothing did before it. *)
Lemma mackey_glass_zero_stride (length : Z) (x0 : pyval F) (a b c tau : F) (n : Z)
    (sample : F) (discard : Z) (w : World F) :
  delay_stride n sample tau = Returned 0 →
  raises (mackey_glass length x0 a b c tau n sample discard w).1.
Proof.
  intros Hs. unfold mackey_glass, bind.
  destruct (mg_grid length x0 a b c tau n sample discard w) as [[e|[s x]] w1] eqn:Hgrid;
    [by exists e|].
  apply mg_grid_stride in Hgrid. rewrite Hs in Hgrid. injection Hgrid as <-.
  by exists ValueError.
Qed.

(** A negative stride is not rejected: this call, with stride -1 and a grid
    of two slots, returns the grid read backwards. *)
Lemma mackey_glass_negative_stride (v a b c tau sample : F) (w : World F) :
  fis_zero tau = false →
  ftrunc (of_Z 1 * sample / tau)%fl = -1 →
  fis_zero (of_Z (2 * 1) + b * tau)%fl = false →
  ∃ x1, mackey_glass 3 (PSeq [v]) a b c tau 1 sample 5 w = (Returned [x1; v], w).
Proof.
  intros Htau Hs Hden.
  unfold mackey_glass, mg_grid, mg_seed, delay_stride, py_div. rewrite Htau.
  simpl rbind. rewrite Hs. unfold mg_A, mg_B, py_div. rewrite Hden.
  eexists. vm_compute. reflexivity.
Qed.
End delay_failures.

(** ** The length of the returned trajectory *)

(** C1 (as amended): for every positive [length] and non-negative [discard]
    each generator returns exactly [length] entries (the flows: [length]
    times and [length] states), provided the initial condition is absent or
    of the expected size, the divisors are nonzero, the stride obtained by
    truncation is at least 1, the external transform and integrator return
    what their contracts say and, for [mackey_glass], [n >= 1] and the
    initial block fits the fine grid. *)
Theorem generators_return_length `{Num F}
    (odeint : (list F → F → result (list F)) → pyval F → list F
              → result (list (list F)))
    (irfft : list (F * F) → Z → result (list F))
    (length discard : Z) (w : World F) :
  0 < length → 0 ≤ discard →
  (∀ alpha fl fu mean var,
     inverts irfft →
     ∃ xs w', falpha irfft length alpha fl fu mean var w = (Returned xs, w') ∧
              Z.of_nat (List.length xs) = length) ∧
  (∀ x0 a b,
     valid_x0 2 x0 →
     ∃ xs w', henon length x0 a b discard w = (Returned xs, w') ∧
              Z.of_nat (List.length xs) = length) ∧
  (∀ x0 alpha beta gamma mu,
     valid_x0 2 x0 →
     ∃ xs w', ikeda length x0 alpha beta gamma mu discard w = (Returned xs, w') ∧
              Z.of_nat (List.length xs) = length) ∧
  (∀ x0 sigma beta rho step sample,
     valid_x0 3 x0 → fis_zero step = false → 1 ≤ ftrunc (sample / step)%fl →
     integrates odeint (_lorenz sigma beta rho) →
     ∃ ts xs w',
       lorenz odeint length x0 sigma beta rho step sample discard w
       = (Returned (ts, xs), w') ∧
       Z.of_nat (List.length ts) = length ∧ Z.of_nat (List.length xs) = length) ∧
  (∀ x0 a b c step sample,
     valid_x0 3 x0 → fis_zero step = false → 1 ≤ ftrunc (sample / step)%fl →
     integrates odeint (_roessler a b c) →
     ∃ ts xs w',
       roessler odeint length x0 a b c step sample discard w
       = (Returned (ts, xs), w') ∧
       Z.of_nat (List.length ts) = length ∧ Z.of_nat (List.length xs) = length) ∧
  (∀ x0 a b c tau n sample sub,
     mg_valid length x0 b tau n sample discard sub →
     ∃ xs w', mackey_glass length x0 a b c tau n sample discard w = (Returned xs, w') ∧
              Z.of_nat (List.length xs) = length).
Proof.
  intros HL HD. repeat split.
  - intros alpha fl fu mean var Hirfft.
    destruct (falpha_runs irfft length alpha fl fu mean var w HL Hirfft)
      as (x & w' & _ & Hrun & Hlen).
    exists (rescale mean var x), w'. split; [done | lia].
  - intros x0 a b Hx0.
    destruct (henon_runs length x0 a b discard w HL HD Hx0) as (xs & w' & Hrun & Hlen & _).
    exists xs, w'. split; [done | lia].
  - intros x0 alpha beta gamma mu Hx0.
    destruct (ikeda_runs length x0 alpha beta gamma mu discard w HL HD Hx0)
      as (xs & w' & Hrun & Hlen & _).
    exists xs, w'. split; [done | lia].
  - intros x0 sigma beta rho step sample Hx0 Hstep Hs Hode.
    destruct (lorenz_runs odeint length x0 sigma beta rho step sample discard w
                HL HD Hx0 Hstep Hs Hode) as (ts & xs & w' & Hrun & Htl & Hxl).
    exists ts, xs, w'. split; [done|]. split; lia.
  - intros x0 a b c step sample Hx0 Hstep Hs Hode.
    destruct (roessler_runs odeint length x0 a b c step sample discard w
                HL HD Hx0 Hstep Hs Hode) as (ts & xs & w' & Hrun & Htl & Hxl).
    exists ts, xs, w'. split; [done|]. split; lia.
  - intros x0 a b c tau n sample sub Hv.
    destruct (mackey_glass_runs length x0 a b c tau n sample discard sub w Hv)
      as (x & xs & w' & _ & Hrun & Hlen & _).
    exists xs, w'. split; [done | lia].
Qed.

Section length_examples.
Local Open Scope R_scope.

Lemma Rtrunc_two : Rtrunc (2 / 1) = 2%Z.
Proof. replace (2 / 1) with (IZR 2) by lra. apply Rtrunc_IZR. Qed.

(** All six generators on the reals, with the reference integrator and
    transform, for [length = 2] and [discard = 1]. *)
Lemma generators_return_length_example :
  (∃ xs w', falpha dft_irfft 2 1 None None 0 1 world0 = (Returned xs, w') ∧
            Z.of_nat (List.length xs) = 2%Z) ∧
  (∃ xs w', henon 2 PNone 1.4 0.3 1 world0 = (Returned xs, w') ∧
            Z.of_nat (List.length xs) = 2%Z) ∧
  (∃ xs w', ikeda 2 (PSeq [0; 0]) 6 0.4 1 0.9 1 world0 = (Returned xs, w') ∧
            Z.of_nat (List.length xs) = 2%Z) ∧
  (∃ ts xs w', lorenz euler_odeint 2 PNone 10 (8 / 3) 28 1 2 1 world0
               = (Returned (ts, xs), w') ∧
               Z.of_nat (List.length ts) = 2%Z ∧ Z.of_nat (List.length xs) = 2%Z) ∧
  (∃ ts xs w', roessler euler_odeint 2 (PSeq [-9; 0; 0]) 0.2 0.2 5.7 1 2 1 world0
               = (Returned (ts, xs), w') ∧
               Z.of_nat (List.length ts) = 2%Z ∧ Z.of_nat (List.length xs) = 2%Z) ∧
  (∃ xs w', mackey_glass 2 (PSeq [1 / 2]) 1 0 1 1 1 1 1 world0 = (Returned xs, w') ∧
            Z.of_nat (List.length xs) = 2%Z).
Proof.
  destruct (generators_return_length euler_odeint dft_irfft 2 1 world0)
    as (Hfalpha & Hhenon & Hikeda & Hlorenz & Hroessler & Hmg); [lia | lia |].
  split; [apply Hfalpha, dft_inverts|].
  split; [by apply Hhenon|].
  split; [by apply Hikeda|].
  split.
  { apply Hlorenz;
      [done | apply fis_zero_R_false; lra | cbn [ftrunc fdiv Num_R]; rewrite Rtrunc_two; lia |].
    apply euler_integrates, _lorenz_returned. }
  split.
  { apply Hroessler;
      [done | apply fis_zero_R_false; lra | cbn [ftrunc fdiv Num_R]; rewrite Rtrunc_two; lia |].
    apply euler_integrates, _roessler_returned. }
  apply (Hmg _ _ _ _ _ _ _ 1%Z), mg_valid_example.
Defined.

(** The claim as first stated fails twice.  A stride ratio of 0.7 rounds to
    1, but [lorenz] truncates it to 0 and raises; and [mackey_glass] with
    its default [n = 1000] and stride 20 raises for [length = 10],
    [discard = 0], because the 1000 initial values do not fit a grid of 200
    slots. *)
Lemma generators_length_counterexample :
  (nearest_integer (0.0007 / 0.001) 1 ∧
   (lorenz euler_odeint 10 PNone 10 (8 / 3) 28 0.001 0.0007 0 world0).1
   = Raised ValueError) ∧
  (delay_stride 1000 0.46 23 = Returned 20%Z ∧
   (mackey_glass 10 PNone 0.2 0.1 10 23 1000 0.46 0 world0).1 = Raised ValueError).
Proof.
  split; split.
  - unfold nearest_integer. rewrite Rabs_left by lra. lra.
  - apply lorenz_bad_stride; [lia | lia | apply fis_zero_R_false; lra |].
    simpl. rewrite (Rtrunc_unique _ 0); [lia | lra | lra].
  - unfold delay_stride, py_div. rewrite fis_zero_R_false by lra. simpl.
    replace (1000 * 0.46 / 23) with (IZR 20) by lra. by rewrite Rtrunc_IZR.
  - assert (@ftrunc R _ (of_Z 1000 * 0.46 / 23)%fl = 20%Z) as Hs.
    { simpl. replace (1000 * 0.46 / 23) with (IZR 20) by lra. apply Rtrunc_IZR. }
    apply mackey_glass_seed_mismatch; rewrite ?Hs; [apply fis_zero_R_false; lra | lia | lia |].
    left. split; [done|]. split; [|lia].
    unfold clip_stop. rewrite bool_decide_eq_false_2 by lia. lia.
Qed.
End length_examples.

(** ** Strides that are not positive *)

Lemma flow_stride_inv `{Num F} (sample step : F) (s : Z) :
  flow_stride sample step = Returned s →
  fis_zero step = false ∧ s = ftrunc (sample / step)%fl.
Proof.
  unfold flow_stride, py_div. destruct (fis_zero step); [done|].
  simpl. by intros [= <-].
Qed.

(** C9 (as amended): for positive [length] and non-negative [discard], a
    flow whose stride truncates to zero or to a negative integer raises
    [ValueError], whatever the integrator would do, and [mackey_glass] with
    a stride that truncates to zero raises; no trajectory is returned. *)
Theorem nonpositive_stride_raises `{Num F}
    (odeint : (list F → F → result (list F)) → pyval F → list F
              → result (list (list F)))
    (length discard : Z) (w : World F) :
  0 < length → 0 ≤ discard →
  (∀ x0 sigma beta rho step sample stride,
     flow_stride sample step = Returned stride → stride ≤ 0 →
     (lorenz odeint length x0 sigma beta rho step sample discard w).1
     = Raised ValueError) ∧
  (∀ x0 a b c step sample stride,
     flow_stride sample step = Returned stride → stride ≤ 0 →
     (roessler odeint length x0 a b c step sample discard w).1
     = Raised ValueError) ∧
  (∀ x0 a b c tau n sample,
     delay_stride n sample tau = Returned 0 →
     raises (mackey_glass length x0 a b c tau n sample discard w).1).
Proof.
  intros HL HD. split; [|split].
  - intros x0 sigma beta rho step sample stride [Hstep ->]%flow_stride_inv Hs.
    by apply lorenz_bad_stride.
  - intros x0 a b c step sample stride [Hstep ->]%flow_stride_inv Hs.
    by apply roessler_bad_stride.
  - intros x0 a b c tau n sample Hs. by apply mackey_glass_zero_stride.
Qed.

Section stride_examples.
Local Open Scope R_scope.

Lemma flow_stride_zero_example : flow_stride (0 : R) 1 = Returned 0%Z.
Proof.
  unfold flow_stride, py_div. rewrite fis_zero_R_false by lra. simpl.
  replace (0 / 1) with (IZR 0) by lra. by rewrite Rtrunc_IZR.
Qed.

Lemma delay_stride_zero_example : delay_stride 1 (0 : R) 1 = Returned 0%Z.
Proof.
  unfold delay_stride, py_div. rewrite fis_zero_R_false by lra. simpl.
  replace (1 * 0 / 1) with (IZR 0) by lra. by rewrite Rtrunc_IZR.
Qed.

(** The three generators with [sample = 0]: the stride is 0. *)
Lemma nonpositive_stride_raises_example :
  flow_stride (0 : R) 1 = Returned 0%Z ∧
  delay_stride 1 (0 : R) 1 = Returned 0%Z ∧
  (lorenz euler_odeint 2 PNone 10 (8 / 3) 28 1 0 1 world0).1 = Raised ValueError ∧
  (roessler euler_odeint 2 PNone 0.2 0.2 5.7 1 0 1 world0).1 = Raised ValueError ∧
  raises (mackey_glass 2 PNone 0.2 0.1 10 1 1 0 1 world0).1.
Proof.
  destruct (nonpositive_stride_raises euler_odeint 2 1 world0)
    as (Hlorenz & Hroessler & Hmg); [lia | lia |].
  split; [exact flow_stride_zero_example|].
  split; [exact delay_stride_zero_example|].
  split; [apply (Hlorenz _ _ _ _ _ _ 0%Z flow_stride_zero_example); lia|].
  split; [apply (Hroessler _ _ _ _ _ _ 0%Z flow_stride_zero_example); lia|].
  apply Hmg, delay_stride_zero_example.
Defined.

(** [mackey_glass(length=3, x0=[0.5], a=1, b=0, c=1, tau=1, n=1, sample=-1,
    discard=5)] has stride -1 and does not fail: it returns two entries,
    the fine grid read backwards. *)
Lemma negative_stride_counterexample :
  delay_stride 1 (-1 : R) 1 = Returned (-1)%Z ∧
  ∃ x1, mackey_glass 3 (PSeq [1 / 2]) 1 0 1 1 1 (-1) 5 world0
        = (Returned [x1; 1 / 2], world0).
Proof.
  assert (@ftrunc R _ (fdiv (fmul (of_Z 1%Z) (-1)) 1) = (-1)%Z) as Hs.
  { simpl. replace (1 * -1 / 1) with (IZR (-1)) by lra. apply Rtrunc_IZR. }
  split.
  - unfold delay_stride, py_div. rewrite fis_zero_R_false by lra. simpl rbind.
    f_equal. exact Hs.
  - apply mackey_glass_negative_stride; [apply fis_zero_R_false; lra | exact Hs |].
    apply fis_zero_R_false. cbn [of_Z fadd fmul Num_R].
    change (2 * 1)%Z with 2%Z. lra.
Qed.
End stride_examples.

(** ** How the strides are rounded *)

Section strides_real.
Local Open Scope R_scope.


Lemma delay_stride_R (n : Z) (sample tau : R) :
  tau ≠ 0 → delay_stride n sample tau = Returned (Rtrunc (IZR n * sample / tau)).
Proof. intros Hs. unfold delay_stride, py_div. by rewrite fis_zero_R_false. Qed.

End strides_real.

Section int_of_float.
Context `{Num F}.
Local Open Scope R_scope.

(** What [int()] does to a float.  [value q] is the real number that a
    finite float [q] stands for, and [int(q)] is that number with its
    fraction dropped.  On a float that is not finite [int()] raises, so
    nothing is assumed there. *)
Variable value : F → R.
Variable finite : F → Prop.
Hypothesis int_drops_fraction : ∀ q, finite q → ftrunc q = Rtrunc (value q).

End int_of_float.

Section stride_examples_real.
Local Open Scope R_scope.


End stride_examples_real.

(** ** The time grid of the flows *)

Section time_grid.
Local Open Scope R_scope.

(** [np.linspace(0, stop, N)] on the reals for [N >= 2]: point [k] is
    [k * stop / (N - 1)], and the last point is [stop] itself. *)
Lemma np_linspace_R (stop : R) (N : Z) :
  (2 ≤ N)%Z →
  ∃ t, np_linspace (0 : R) stop N = Returned t ∧
       Z.of_nat (length t) = N ∧
       ∀ k : nat, (Z.of_nat k < N)%Z → t !! k = Some (INR k * (stop / IZR (N - 1))).
Proof.
  intros HN. unfold np_linspace.
  rewrite !bool_decide_eq_false_2 by lia.
  eexists; split; [done|]. split.
  { rewrite length_app, length_fmap, length_seqZ. simpl. lia. }
  intros k Hk. cbn [of_Z fadd fsub fmul fdiv Num_R].
  assert (IZR (N - 1) ≠ 0) as HN1 by (apply not_0_IZR; lia).
  destruct (decide (Z.of_nat k < N - 1)%Z) as [Hlt|Hge].
  - rewrite lookup_app_l by (rewrite length_fmap, length_seqZ; lia).
    rewrite list_lookup_fmap, lookup_seqZ_lt by lia. simpl. f_equal.
    rewrite Z.add_0_l, <- INR_IZR_INZ. unfold Rminus. rewrite Ropp_0, Rplus_0_r. lra.
  - rewrite lookup_app_r by (rewrite length_fmap, length_seqZ; lia).
    rewrite length_fmap, length_seqZ.
    replace (k - Z.to_nat (N - 1))%nat with 0%nat by lia. simpl. f_equal.
    replace (INR k) with (IZR (N - 1)); [by field|].
    rewrite INR_IZR_INZ. f_equal. lia.
Qed.

Lemma flow_time_grid_points (length discard : Z) (step sample : R) :
  step ≠ 0 →
  let stride := Rtrunc (sample / step) in
  let N := (stride * (length + discard))%Z in
  (2 ≤ N)%Z →
  ∃ t, flow_grid length step sample discard = Returned (stride, t) ∧
       Z.of_nat (List.length t) = N ∧
       ∀ k : nat, (Z.of_nat k < N)%Z →
                  t !! k = Some (INR k * (IZR N * step / IZR (N - 1))).
Proof.
  intros Hstep stride N HN.
  destruct (flow_grid_runs length step sample discard (fis_zero_R_false step Hstep))
    as (t & Hgrid & Hlin & Hlen); [change (0 ≤ N)%Z; lia|].
  destruct (np_linspace_R (IZR N * step) N HN) as (t' & Hlin' & Hlen' & Hpts).
  change (np_linspace (0 : R) (IZR N * step) N = Returned t) in Hlin.
  change (flow_grid length step sample discard = Returned (stride, t)) in Hgrid.
  change (Z.of_nat (List.length t) = N) in Hlen.
  rewrite Hlin' in Hlin. injection Hlin as <-.
  by exists t'.
Qed.

(** C7 (as amended): the time grid of [lorenz] and [roessler] has
    [N = stride * (length + discard)] points spanning the closed interval
    from 0 to [N * step], both ends included; for [N >= 2] consecutive
    points are separated by [N * step / (N - 1)], which exceeds [step],
    the first point is 0 and the last point is [N * step]. *)
Theorem flow_time_grid (length discard : Z) (step sample : R) :
  0 < step →
  let stride := Rtrunc (sample / step) in
  let N := (stride * (length + discard))%Z in
  (2 ≤ N)%Z →
  ∃ t, flow_grid length step sample discard = Returned (stride, t) ∧
       Z.of_nat (List.length t) = N ∧
       t !! 0%nat = Some 0 ∧
       t !! Z.to_nat (N - 1) = Some (IZR N * step) ∧
       (∀ (k : nat) u v, t !! k = Some u → t !! S k = Some v →
                         v - u = IZR N * step / IZR (N - 1)) ∧
       step < IZR N * step / IZR (N - 1) ∧
       (∀ (k : nat) u, t !! k = Some u → 0 <= u <= IZR N * step).
Proof.
  intros Hstep stride N HN.
  destruct (flow_time_grid_points length discard step sample) as (t & Hgrid & Hlen & Hpts);
    [lra | done |]. fold stride N in Hgrid, Hlen, Hpts.
  assert (0 < IZR (N - 1)) as HN1 by (apply IZR_lt; lia).
  assert (IZR N = IZR (N - 1) + 1) as HNN by (rewrite minus_IZR; lra).
  set (d := IZR N * step / IZR (N - 1)) in *.
  assert (step < d) as Hd.
  { unfold d. apply (Rmult_lt_reg_r (IZR (N - 1))); [done|].
    replace (IZR N * step / IZR (N - 1) * IZR (N - 1)) with (IZR N * step)
      by (field; lra). rewrite HNN. nra. }
  exists t. do 2 (split; [done|]). split; [|split; [|split; [|split; [done|]]]].
  - rewrite Hpts by lia. simpl. f_equal. lra.
  - rewrite Hpts by lia. f_equal. rewrite INR_IZR_INZ, Z2Nat.id by lia.
    unfold d. field. lra.
  - intros k u v Hu Hv. pose proof (lookup_lt_Some _ _ _ Hv) as Hk.
    rewrite Hpts in Hu, Hv by lia.
    assert (u = INR k * d) as -> by congruence.
    assert (v = INR (S k) * d) as -> by congruence.
    rewrite S_INR. lra.
  - intros k u Hu. pose proof (lookup_lt_Some _ _ _ Hu) as Hk.
    rewrite Hpts in Hu by lia.
    assert (u = INR k * d) as -> by congruence.
    assert (0 <= INR k) as Hk0 by apply pos_INR.
    assert (INR k <= IZR (N - 1)) as Hk1.
    { rewrite INR_IZR_INZ. apply IZR_le. lia. }
    assert (IZR N * step = IZR (N - 1) * d) as -> by (unfold d; field; lra).
    split; [apply Rmult_le_pos; lra | apply Rmult_le_compat_r; lra].
Qed.

(** The grid for [length = 2], [discard = 0], [step = 1], [sample = 1]. *)
Lemma flow_time_grid_example :
  ∃ t, flow_grid 2 1 1 0 = Returned (Rtrunc (1 / 1), t) ∧
       t !! 0%nat = Some 0 ∧ t !! 1%nat = Some 2.
Proof.
  assert (Rtrunc (1 / 1) = 1%Z) as Hs.
  { replace (1 / 1) with (IZR 1) by lra. apply Rtrunc_IZR. }
  destruct (flow_time_grid 2 0 1 1) as (t & Hgrid & _ & H0 & H1 & _);
    [lra | rewrite Hs; lia |].
  exists t. split; [done|]. split; [done|].
  rewrite Hs in H1. change (Z.to_nat (1 * (2 + 0) - 1)) with 1%nat in H1.
  change (1 * (2 + 0))%Z with 2%Z in H1. rewrite H1. f_equal. lra.
Defined.

(** With [length = 2], [discard = 0], [step = 1] and [sample = 1] the grid
    is [0, 2]: its two points are 2 apart, not [step = 1], and its last
    point is not below [stride * (length + discard) * step = 2]. *)
Lemma flow_time_grid_counterexample :
  ∃ t, flow_grid 2 1 1 0 = Returned (1%Z, t) ∧
       t !! 0%nat = Some 0 ∧ t !! 1%nat = Some 2 ∧
       2 - 0 ≠ 1 ∧ ¬ (2 < IZR (1 * (2 + 0)) * 1).
Proof.
  assert (Rtrunc (1 / 1) = 1%Z) as Hs.
  { replace (1 / 1) with (IZR 1) by lra. apply Rtrunc_IZR. }
  destruct (flow_time_grid_points 2 0 1 1) as (t & Hgrid & _ & Hpts);
    [lra | rewrite Hs; lia |].
  rewrite Hs in Hgrid, Hpts. exists t. split; [done|].
  change (1 * (2 + 0))%Z with 2%Z in *. change (2 - 1)%Z with 1%Z in *.
  split; [rewrite Hpts by lia; f_equal; simpl INR; lra|].
  split; [rewrite Hpts by lia; f_equal; simpl INR; lra|].
  lra.
Qed.
End time_grid.

(** ** Mean and variance of the rescaled noise *)

Section statistics.
Local Open Scope R_scope.
Implicit Types (x : list R).

Lemma np_mean_R x : np_mean x = np_sum x / INR (length x).
Proof. unfold np_mean. cbn [fdiv of_Z Num_R]. by rewrite <- INR_IZR_INZ. Qed.

Lemma np_sum_affine (a b : R) (f : R → R) x :
  (∀ v, f v = a * v + b) →
  np_sum (f <$> x) = a * np_sum x + b * INR (length x).
Proof.
  intros Hf. unfold np_sum. cbn [fadd of_Z Num_R].
  induction x as [|v x IH]; [simpl; lra|].
  rewrite fmap_cons. cbn [foldr]. rewrite IH, Hf.
  change (length (v :: x)) with (S (length x)). rewrite S_INR. lra.
Qed.

Lemma np_mean_affine (a b : R) (f : R → R) x :
  (∀ v, f v = a * v + b) → x ≠ [] →
  np_mean (f <$> x) = a * np_mean x + b.
Proof.
  intros Hf Hx. rewrite !np_mean_R, length_fmap, (np_sum_affine a b) by done.
  assert (INR (length x) ≠ 0) as Hn.
  { apply not_0_INR. by destruct x. }
  by field.
Qed.

Lemma np_var_R x :
  np_var x = np_mean ((λ v, (v - np_mean x) * (v - np_mean x)) <$> x).
Proof.
  unfold np_var. f_equal. apply list_fmap_ext. intros _ v _.
  cbn [fpow fabs fsub of_Z Num_R]. rewrite Rpow_2.
  rewrite <- Rabs_mult. apply Rabs_pos_eq. exact (Rle_0_sqr _).
Qed.

Lemma np_var_affine (a b : R) (f : R → R) x :
  (∀ v, f v = a * v + b) → x ≠ [] →
  np_var (f <$> x) = a * a * np_var x.
Proof.
  intros Hf Hx. rewrite !np_var_R, (np_mean_affine a b f) by done.
  rewrite <- list_fmap_compose.
  transitivity (np_mean ((λ u, a * a * u + 0)
                           <$> ((λ v, (v - np_mean x) * (v - np_mean x)) <$> x))).
  - rewrite <- list_fmap_compose. f_equal. apply list_fmap_ext. intros _ v _.
    simpl. rewrite Hf. lra.
  - rewrite (np_mean_affine (a * a) 0); [lra | done | by destruct x].
Qed.

Lemma np_sum_nonneg x : Forall (λ v, 0 <= v) x → 0 <= np_sum x.
Proof.
  unfold np_sum. cbn [fadd of_Z Num_R].
  induction 1 as [|v x Hv _ IH]; simpl; lra.
Qed.

Lemma np_var_nonneg x : 0 <= np_var x.
Proof.
  rewrite np_var_R, np_mean_R, length_fmap.
  destruct x as [|v x]; [simpl; unfold np_sum; simpl; lra|].
  apply Rmult_le_pos.
  - apply np_sum_nonneg, Forall_fmap, Forall_forall. intros u _.
    exact (Rle_0_sqr _).
  - apply Rlt_le, Rinv_0_lt_compat, lt_0_INR. simpl. lia.
Qed.

Lemma np_std_sqr x : np_std x * np_std x = np_var x.
Proof. apply sqrt_sqrt, np_var_nonneg. Qed.

(** Lines 92-93 give the requested mean and variance. *)
Lemma rescale_statistics (mean var : R) x :
  np_std x ≠ 0 → 0 <= var →
  np_mean (rescale mean var x) = mean ∧ np_var (rescale mean var x) = var.
Proof.
  intros Hs Hvar. unfold rescale. cbv zeta.
  set (s := np_std x) in *.
  assert (x ≠ []) as Hx.
  { intros ->. apply Hs. unfold s, np_std, np_var, np_mean, np_sum. simpl.
    rewrite Rdiv_0_r. apply sqrt_0. }
  set (x' := (λ v, fsqrt var * v / s)%fl <$> x).
  assert (x' ≠ []) as Hx' by (unfold x'; by destruct x).
  set (m := np_mean x').
  assert (∀ v, (mean + v - m)%fl = 1 * v + (mean - m)) as Hshift
    by (intros v; cbn [fadd fsub Num_R]; lra).
  assert (∀ v, (fsqrt var * v / s)%fl = sqrt var / s * v + 0) as Hscale
    by (intros v; cbn [fmul fdiv fsqrt Num_R]; by field).
  split.
  - rewrite (np_mean_affine 1 (mean - m)) by done. fold m. lra.
  - rewrite (np_var_affine 1 (mean - m)) by done.
    unfold x'. rewrite (np_var_affine (sqrt var / s) 0) by done.
    rewrite <- (np_std_sqr x). fold s.
    replace (1 * 1 * (sqrt var / s * (sqrt var / s) * (s * s)))
      with (sqrt var * sqrt var) by (by field).
    by apply sqrt_sqrt.
Qed.
End statistics.

(** C8: whenever the sequence before rescaling has a nonzero standard
    deviation, the sequence returned by [falpha] has mean exactly [mean]
    and variance exactly [var] (mean and variance as [np.mean] and the
    square of [np.std] compute them), for every length, exponent and
    cutoffs and every non-negative requested variance. *)
Theorem falpha_mean_and_variance
    (irfft : list (R * R) → Z → result (list R))
    (length : Z) (alpha : R) (fl fu : option R) (mean var : R) (w : World R) :
  0 < length → inverts irfft → (0 <= var)%R →
  ∃ x w',
    falpha_signal irfft length alpha fl fu w = (Returned x, w') ∧
    falpha irfft length alpha fl fu mean var w = (Returned (rescale mean var x), w') ∧
    (np_std x ≠ 0%R →
     np_mean (rescale mean var x) = mean ∧ np_var (rescale mean var x) = var).
Proof.
  intros HL Hirfft Hvar.
  destruct (falpha_runs irfft length alpha fl fu mean var w HL Hirfft)
    as (x & w' & Hsig & Hrun & _).
  exists x, w'. do 2 (split; [done|]). intros Hs. by apply rescale_statistics.
Qed.

(** [falpha_signal] for two samples and no cutoffs, with the reference
    transform: the zero-frequency bin, the Nyquist bin made real, and the
    two samples of the inverse transform. *)
Lemma falpha_signal_two `{Num F} (alpha : F) (w : World F) :
  let phase k := (2 * fpi * tape w (cursor w + k)%nat)%fl in
  let p1 := ((of_Z 1 * (1 / of_Z 2)) ** (- alpha))%fl in
  let c0 := (fsqrt 0 * fcos (phase 0%nat))%fl in
  let re := (fsqrt p1 * fcos (phase 1%nat) * fsqrt 2)%fl in
  let im := (fsqrt p1 * fsin (phase 1%nat) * fsqrt 2)%fl in
  let ny := fsqrt (re * re + im * im)%fl in
  falpha_signal dft_irfft 2 alpha None None w
  = (Returned [(1 / of_Z 2 * (c0 + 0 + ny * fcos (fpi * of_Z 0)))%fl;
               (1 / of_Z 2 * (c0 + 0 + ny * fcos (fpi * of_Z 1)))%fl],
     mkWorld (tape w) (cursor w + 2) (stale w)).
Proof. vm_compute. reflexivity. Qed.

Section noise_example.
Local Open Scope R_scope.

(** Pink noise of two samples on [world0]: before rescaling it is [1, -1]. *)
Lemma falpha_signal_example :
  falpha_signal dft_irfft 2 1 None None world0
  = (Returned [1; -1], mkWorld (tape world0) 2 (stale world0)).
Proof.
  rewrite falpha_signal_two. cbv zeta.
  cbn [fadd fsub fmul fdiv fopp fpow fsqrt fcos fsin fpi of_Z Num_R tape cursor world0].
  replace (2 * PI * (1 / 2)) with PI by lra.
  replace (PI * 0) with 0 by lra. replace (PI * 1) with PI by lra.
  rewrite cos_PI, sin_PI, sqrt_0, cos_0.
  rewrite <- opp_IZR, Rpow_IZR. simpl powerRZ.
  replace (/ (1 * (1 / 2) * 1)) with 2 by (by field).
  assert (sqrt 2 * sqrt 2 = 2) as Hr by (apply sqrt_sqrt; lra).
  set (r := sqrt 2) in *.
  match goal with
  | |- context [sqrt ?e] =>
      replace e with (2 * 2) by (transitivity (r * r * (r * r)); [rewrite Hr; lra | ring])
  end.
  rewrite sqrt_square by lra.
  do 2 f_equal. repeat (f_equal; try lra).
Qed.

Lemma np_std_example : np_std [1; -1] = 1.
Proof.
  unfold np_std. cbn [fsqrt Num_R]. rewrite np_var_R, !np_mean_R. simpl.
  unfold np_sum. simpl. cbn [fadd of_Z Num_R].
  replace (_ / _) with (1 * 1) by (by field).
  apply sqrt_square. lra.
Qed.

(** Pink noise of two samples, requested mean 3 and variance 4. *)
Lemma falpha_mean_and_variance_example :
  ∃ x w',
    falpha_signal dft_irfft 2 1 None None world0 = (Returned x, w') ∧
    np_std x ≠ 0 ∧
    falpha dft_irfft 2 1 None None 3 4 world0 = (Returned (rescale 3 4 x), w') ∧
    np_mean (rescale 3 4 x) = 3 ∧ np_var (rescale 3 4 x) = 4.
Proof.
  destruct (falpha_mean_and_variance dft_irfft 2 1 None None 3 4 world0)
    as (x & w' & Hsig & Hrun & Hstat); [lia | apply dft_inverts | lra |].
  assert (np_std x ≠ 0) as Hs.
  { rewrite falpha_signal_example in Hsig. injection Hsig as <- _.
    rewrite np_std_example. lra. }
  exists x, w'. do 3 (split; [done|]). by apply Hstat.
Defined.
End noise_example.

(** ** An empty passband *)

Section empty_passband.
Local Open Scope R_scope.

(** What a cutoff leaves in each bin. *)
Lemma cutoff_lookup (g : R → R → bool) (cut : option R) (power freqs : list R) :
  length power = length freqs →
  ∃ power',
    match cut with
    | Some c => if fis_zero c then Returned power
                else mask_zero power ((λ f, g f c) <$> freqs)
    | None => Returned power
    end = Returned power' ∧
    length power' = length freqs ∧
    ∀ (k : nat) p f, power !! k = Some p → freqs !! k = Some f →
      power' !! k
      = Some (match cut with
              | Some c => if fis_zero c then p else if g f c then 0 else p
              | None => p
              end).
Proof.
  intros Hlen. destruct cut as [c|]; [|by exists power].
  destruct (fis_zero c); [by exists power|].
  unfold mask_zero. rewrite bool_decide_eq_true_2 by (by rewrite length_fmap).
  eexists; split; [done|]. split.
  { rewrite length_zip_with, length_fmap. lia. }
  intros k p f Hp Hf. rewrite lookup_zip_with, Hp. simpl.
  rewrite list_lookup_fmap, Hf. done.
Qed.

Lemma fltb_R_true (x y : R) : x < y → fltb x y = true.
Proof. intros Hlt. simpl. by destruct (Rlt_dec x y). Qed.

(** A bin that one of the cutoffs masks ends at zero. *)
Lemma bin_zeroed (fl fu : option R) (p f : R) :
  (∃ c, fl = Some c ∧ c ≠ 0 ∧ f < c) ∨ (∃ c, fu = Some c ∧ c ≠ 0 ∧ c < f) →
  match fu with
  | Some c' =>
      if fis_zero c' then
        match fl with
        | Some c => if fis_zero c then p else if fltb f c then 0 else p
        | None => p
        end
      else if fltb c' f then 0
      else match fl with
           | Some c => if fis_zero c then p else if fltb f c then 0 else p
           | None => p
           end
  | None =>
      match fl with
      | Some c => if fis_zero c then p else if fltb f c then 0 else p
      | None => p
      end
  end = 0.
Proof.
  intros [(c & -> & Hc & Hlt)|(c & -> & Hc & Hlt)].
  - rewrite (fis_zero_R_false c Hc), (fltb_R_true f c Hlt).
    destruct fu as [c'|]; [|done]. by repeat case_match.
  - by rewrite (fis_zero_R_false c Hc), (fltb_R_true c f Hlt).
Qed.

(** The zero-frequency bin is zero before the cutoffs and after them. *)
Lemma bin_zero_stays (fl fu : option R) (f : R) :
  match fu with
  | Some c' =>
      if fis_zero c' then
        match fl with
        | Some c => if fis_zero c then 0 else if fltb f c then 0 else 0
        | None => 0
        end
      else if fltb c' f then 0
      else match fl with
           | Some c => if fis_zero c then 0 else if fltb f c then 0 else 0
           | None => 0
           end
  | None =>
      match fl with
      | Some c => if fis_zero c then 0 else if fltb f c then 0 else 0
      | None => 0
      end
  end = (0 : R).
Proof. by repeat case_match. Qed.

(** Bins without power have zero amplitude, whatever their phase. *)
Lemma zero_spectrum (phase : list R) :
  zip_with (λ p φ, (fsqrt p * fcos φ, fsqrt p * fsin φ)%fl)
    (replicate (length phase) (0 : R)) phase
  = replicate (length phase) (0, 0).
Proof.
  induction phase as [|φ phase IH]; [done|].
  cbn [length replicate zip_with]. rewrite IH.
  f_equal. cbn [fsqrt fmul fcos fsin Num_R]. rewrite sqrt_0. f_equal; lra.
Qed.

Lemma np_std_zeros (n : nat) : np_std (replicate n (0 : R)) = 0.
Proof.
  unfold np_std. cbn [fsqrt Num_R].
  assert (∀ m, np_sum (replicate m (0 : R)) = 0) as Hsum.
  { intros m. unfold np_sum. cbn [fadd of_Z Num_R].
    induction m as [|m IH]; simpl; [done | rewrite IH; lra]. }
  assert (np_mean (replicate n (0 : R)) = 0) as Hmean.
  { rewrite np_mean_R, Hsum. lra. }
  rewrite np_var_R, Hmean, fmap_replicate.
  replace ((0 - 0) * (0 - 0)) with 0 by lra.
  rewrite Hmean. apply sqrt_0.
Qed.

Lemma falpha_signal_empty_passband
    (irfft : list (R * R) → Z → result (list R))
    (length : Z) (alpha : R) (fl fu : option R) (w : World R) :
  (0 < length)%Z → zero_preserving irfft → passband_empty length fl fu →
  ∃ w', falpha_signal irfft length alpha fl fu w
        = (Returned (replicate (Z.to_nat length) 0), w').
Proof.
  intros HL Hirfft Hempty. unfold falpha_signal.
  destruct (np_rfftfreq_returned (F := R) length HL) as (freqs & Hfreqs & Hflen).
  rewrite Hfreqs. unfold bind at 1, lift at 1. cbv zeta.
  set (power := 0%fl :: _).
  assert (List.length power = List.length freqs) as Hp.
  { unfold power. simpl. rewrite length_fmap, slice_from_nonneg by lia.
    rewrite length_drop. pose proof (Z.div_pos length 2). lia. }
  destruct (cutoff_lookup (λ f c, fltb f c) fl power freqs Hp) as (p1 & -> & Hp1 & Hl1).
  unfold bind at 1, lift at 1.
  destruct (cutoff_lookup (λ f c, fltb c f) fu p1 freqs Hp1) as (p2 & -> & Hp2 & Hl2).
  unfold bind at 1, lift at 1.
  (* every bin is zero after the cutoffs *)
  assert (p2 = replicate (List.length freqs) 0) as ->.
  { apply list_eq. intros k. destruct (decide (k < List.length freqs)%nat) as [Hk|Hk].
    2:{ rewrite !lookup_ge_None_2; [done | rewrite length_replicate; lia | lia]. }
    rewrite lookup_replicate_2 by done.
    destruct (lookup_lt_is_Some_2 power k) as [p Hpk]; [lia|].
    destruct (lookup_lt_is_Some_2 freqs k) as [f Hfk]; [lia|].
    pose proof (Hl1 k p f Hpk Hfk) as H1.
    rewrite (Hl2 k _ f H1 Hfk). f_equal.
    destruct k as [|k].
    { unfold power in Hpk. injection Hpk as <-. apply bin_zero_stays. }
    unfold np_rfftfreq in Hfreqs. rewrite bool_decide_eq_false_2 in Hfreqs by lia.
    injection Hfreqs as <-. rewrite length_fmap, length_seqZ in Hk.
    rewrite list_lookup_fmap, lookup_seqZ_lt in Hfk by lia. injection Hfk as <-.
    apply bin_zeroed. rewrite Z.add_0_l. apply (Hempty (Z.of_nat (S k))). lia. }
  erewrite bind_returned; [|apply np_random_returned; lia].
  set (w' := mkWorld _ _ _). set (phase := _ <$> (_ <$> _)).
  assert (List.length phase = List.length freqs) as Hph.
  { unfold phase. rewrite !length_fmap, length_seq. lia. }
  unfold broadcast2. rewrite bool_decide_eq_true_2
    by (rewrite length_replicate; lia).
  unfold bind at 1, lift at 1.
  rewrite <- Hph, zero_spectrum, Hph.
  set (ny := if bool_decide (length `mod` 2 = 0)%Z then _ else _).
  assert (ny = Returned (replicate (List.length freqs) (0, 0))) as ->.
  { unfold ny. case_bool_decide; [|done].
    pose proof (Z.div_pos length 2).
    rewrite (getitem_minus_one _ (0, 0))
      by (rewrite length_replicate; apply lookup_replicate_2; lia).
    simpl. unfold setitem. rewrite norm_index_neg by (rewrite length_replicate; lia).
    rewrite !Rmult_0_l, Rplus_0_l, sqrt_0. by rewrite insert_replicate. }
  unfold bind, lift. rewrite Hirfft by done. by exists w'.
Qed.

Lemma falpha_empty_passband
    (irfft : list (R * R) → Z → result (list R))
    (length : Z) (alpha : R) (fl fu : option R) (mean var : R) (w : World R) :
  (0 < length)%Z → zero_preserving irfft → passband_empty length fl fu →
  let zeros := replicate (Z.to_nat length) (0 : R) in
  ∃ w',
    falpha_signal irfft length alpha fl fu w = (Returned zeros, w') ∧
    np_std zeros = 0 ∧
    falpha irfft length alpha fl fu mean var w
    = (Returned (rescale mean var zeros), w') ∧
    Z.of_nat (List.length (rescale mean var zeros)) = length.
Proof.
  intros HL Hirfft Hempty zeros.
  destruct (falpha_signal_empty_passband irfft length alpha fl fu w HL Hirfft Hempty)
    as [w' Hsig].
  exists w'. split; [done|]. split; [apply np_std_zeros|]. split.
  - unfold falpha. by rewrite (bind_returned _ _ _ _ _ Hsig).
  - rewrite rescale_length. unfold zeros. rewrite length_replicate. lia.
Qed.
End empty_passband.

Section empty_passband_examples.
Local Open Scope R_scope.

Lemma dft_zero_preserving : zero_preserving dft_irfft.
Proof.
  intros m n Hn. unfold dft_irfft. rewrite bool_decide_eq_false_2 by lia.
  f_equal. apply list_eq. intros k.
  destruct (decide (k < Z.to_nat n)%nat) as [Hk|Hk].
  2:{ rewrite !lookup_ge_None_2;
        [done | rewrite length_replicate; lia | rewrite length_fmap, length_seqZ; lia]. }
  rewrite lookup_replicate_2, list_lookup_fmap, lookup_seqZ_lt by lia.
  simpl. f_equal. unfold dft_sample. cbv zeta.
  assert (∀ j : Z, default (0%fl, 0%fl) (replicate m ((0, 0) : R * R) !! Z.to_nat j) = (0, 0))
    as Hbin.
  { intros j. destruct (_ !! _) as [c|] eqn:Hc; [|done].
    by apply lookup_replicate in Hc as [-> _]. }
  cbn [fadd fsub fmul fdiv of_Z Num_R].
  assert (∀ js : list Z,
            foldr (λ j acc,
                     2 * ((default (0%fl, 0%fl) (replicate m ((0, 0) : R * R) !! Z.to_nat j)).1
                          * fcos (2 * fpi * IZR (j * (0 + Z.of_nat k)) / IZR n)
                          - (default (0%fl, 0%fl) (replicate m ((0, 0) : R * R) !! Z.to_nat j)).2
                            * fsin (2 * fpi * IZR (j * (0 + Z.of_nat k)) / IZR n)) + acc)
              0 js = 0) as Hsum.
  { induction js as [|j js IH]; [done|]. cbn [foldr]. rewrite IH, Hbin. simpl. lra. }
  rewrite Hsum, !Hbin. simpl. case_bool_decide; lra.
Qed.

(** For [length = 4] a lower cutoff of 1 lies above every frequency. *)
Lemma passband_empty_example : passband_empty 4 (Some 1) None.
Proof.
  intros k Hk f. left. exists 1. split; [done|]. split; [lra|].
  change (4 `div` 2)%Z with 2%Z in Hk. unfold f.
  assert (IZR k <= 2) by (apply IZR_le; lia). lra.
Qed.
End empty_passband_examples.

(** C6 (as amended): when the cutoffs zero every frequency bin, [falpha]
    raises no error.  The sequence before rescaling is all zeros, its
    standard deviation is 0, and the call returns [length] entries, each
    obtained by dividing by that zero standard deviation. *)
Theorem falpha_empty_passband_returns
    (irfft : list (R * R) → Z → result (list R))
    (length : Z) (alpha : R) (fl fu : option R) (mean var : R) (w : World R) :
  0 < length → zero_preserving irfft → passband_empty length fl fu →
  let zeros := replicate (Z.to_nat length) 0%R in
  ∃ w',
    falpha_signal irfft length alpha fl fu w = (Returned zeros, w') ∧
    np_std zeros = 0%R ∧
    falpha irfft length alpha fl fu mean var w
    = (Returned (rescale mean var zeros), w') ∧
    rescale mean var zeros
    = (λ v, (mean + v - np_mean ((λ u, fsqrt var * u / np_std zeros) <$> zeros))%fl)
        <$> ((λ u, (fsqrt var * u / np_std zeros)%fl) <$> zeros) ∧
    Z.of_nat (List.length (rescale mean var zeros)) = length.
Proof.
  intros HL Hirfft Hempty zeros.
  destruct (falpha_empty_passband irfft length alpha fl fu mean var w HL Hirfft Hempty)
    as (w' & Hsig & Hstd & Hrun & Hlen).
  exists w'. by do 4 (split; [done|]).
Qed.

(** [falpha(length=4, fl=1.0)] with the reference transform. *)
Lemma falpha_empty_passband_example :
  passband_empty 4 (Some 1%R) None ∧
  ∃ w', falpha_signal dft_irfft 4 1%R (Some 1%R) None world0
        = (Returned [0; 0; 0; 0]%R, w') ∧
        np_std [0; 0; 0; 0]%R = 0%R ∧
        falpha dft_irfft 4 1%R (Some 1%R) None 0%R 1%R world0
        = (Returned (rescale 0%R 1%R [0; 0; 0; 0]%R), w').
Proof.
  split; [exact passband_empty_example|].
  destruct (falpha_empty_passband_returns dft_irfft 4 1%R (Some 1%R) None 0%R 1%R world0)
    as (w' & Hsig & Hstd & Hrun & _);
    [lia | exact dft_zero_preserving | exact passband_empty_example |].
  by exists w'.
Defined.

(** [falpha(length=4, fl=1.0)] zeroes every bin and still returns four
    entries instead of raising an error. *)
Lemma empty_passband_counterexample :
  passband_empty 4 (Some 1%R) None ∧
  ∃ xs w', falpha dft_irfft 4 1%R (Some 1%R) None 0%R 1%R world0 = (Returned xs, w') ∧
           List.length xs = 4%nat.
Proof.
  split; [exact passband_empty_example|].
  destruct (falpha_empty_passband dft_irfft 4 1%R (Some 1%R) None 0%R 1%R world0)
    as (w' & _ & _ & Hrun & Hlen);
    [lia | exact dft_zero_preserving | exact passband_empty_example |].
  eexists _, w'. split; [exact Hrun|]. lia.
Qed.

(** ** Initial conditions of the wrong size *)

Section initial_conditions.
Context `{Num F}.

Lemma row2_mismatch (vs : list F) :
  (3 ≤ length vs)%nat → row2 (PSeq vs) = Raised ValueError.
Proof.
  intros Hvs. unfold row2. rewrite broadcast_to_mismatch; [done | lia | lia].
Qed.

Lemma henon_x0_mismatch (length : Z) (vs : list F) (a b : F) (discard : Z)
    (w : World F) :
  0 < length → 0 ≤ discard → (3 ≤ List.length vs)%nat →
  henon length (PSeq vs) a b discard w = (Raised ValueError, w).
Proof.
  intros HL HD Hvs. unfold henon.
  destruct (np_empty2_returned (length + discard) w) as (x & Hx & Hlen); [lia|].
  rewrite (bind_returned _ _ _ _ _ Hx).
  assert (py_not (PSeq vs) = false) as ->.
  { simpl. apply bool_decide_eq_false_2. intros ->. simpl in Hvs. lia. }
  eapply bind_raised. unfold lift.
  by rewrite setrow_nonneg, row2_mismatch by (done || lia).
Qed.

Lemma ikeda_x0_mismatch (length : Z) (vs : list F) (alpha beta gamma mu : F)
    (discard : Z) (w : World F) :
  0 < length → 0 ≤ discard → (3 ≤ List.length vs)%nat →
  ikeda length (PSeq vs) alpha beta gamma mu discard w = (Raised ValueError, w).
Proof.
  intros HL HD Hvs. unfold ikeda.
  destruct (np_empty2_returned (length + discard) w) as (x & Hx & Hlen); [lia|].
  rewrite (bind_returned _ _ _ _ _ Hx).
  assert (py_not (PSeq vs) = false) as ->.
  { simpl. apply bool_decide_eq_false_2. intros ->. simpl in Hvs. lia. }
  eapply bind_raised. unfold lift.
  by rewrite setrow_nonneg, row2_mismatch by (done || lia).
Qed.

(** One value is repeated in both components of the first state. *)
Lemma henon_x0_broadcast (length : Z) (v a b : F) (discard : Z) (w : World F) :
  henon length (PSeq [v]) a b discard w = henon length (PSeq [v; v]) a b discard w.
Proof. done. Qed.

Lemma ikeda_x0_broadcast (length : Z) (v alpha beta gamma mu : F) (discard : Z)
    (w : World F) :
  ikeda length (PSeq [v]) alpha beta gamma mu discard w
  = ikeda length (PSeq [v; v]) alpha beta gamma mu discard w.
Proof. done. Qed.

(** With a supplied initial block, the seeding is the single assignment
    [x[:n] = x0]. *)
Lemma mg_seed_supplied (length : Z) (vs : list F) (tau : F) (n : Z) (sample : F)
    (discard sub : Z) (w : World F) :
  delay_stride n sample tau = Returned sub →
  0 ≤ n * discard + sub * length → vs ≠ [] →
  mg_seed length (PSeq vs) tau n sample discard w
  = (let? x := assign_upto (stale w <$> seq 0 (Z.to_nat (n * discard + sub * length)))
                 n (PSeq vs) in
     Returned (sub, x), w).
Proof.
  intros Hsub HG Hvs. unfold mg_seed. rewrite Hsub. unfold bind at 1, lift at 1.
  rewrite (bind_returned _ _ _ _ _ (np_empty_returned _ w HG)).
  assert (py_not (PSeq vs) = false) as -> by (by apply bool_decide_eq_false_2).
  unfold bind, lift, ret. by destruct (assign_upto _ _ _).
Qed.

(** One value is repeated over the whole initial block of [mackey_glass],
    when the block fits the fine grid. *)
Lemma mackey_glass_x0_broadcast (length : Z) (v a b c tau : F) (n : Z) (sample : F)
    (discard sub : Z) (w : World F) :
  delay_stride n sample tau = Returned sub →
  0 < n ≤ n * discard + sub * length →
  mackey_glass length (PSeq [v]) a b c tau n sample discard w
  = mackey_glass length (PSeq (replicate (Z.to_nat n) v)) a b c tau n sample discard w.
Proof.
  intros Hsub Hn.
  assert (mg_seed length (PSeq [v]) tau n sample discard w
          = mg_seed length (PSeq (replicate (Z.to_nat n) v)) tau n sample discard w)
    as Hseed.
  { rewrite !(mg_seed_supplied _ _ _ _ _ _ sub) by
      (done || lia || (intros Hr; apply (f_equal List.length) in Hr;
                       rewrite length_replicate in Hr; simpl in Hr; lia)).
    unfold assign_upto.
    rewrite clip_stop_fits by (rewrite length_fmap, length_seq; lia).
    rewrite broadcast_to_single. unfold broadcast_to.
    by rewrite bool_decide_eq_true_2 by apply length_replicate. }
  unfold mackey_glass, mg_grid, bind. by rewrite Hseed.
Qed.

(** The derivative functions on a state of the wrong size: too short a
    state is indexed out of range, of too long a state three components
    are used. *)
Lemma _lorenz_wrong_size (sigma beta rho : F) (y : list F) (t : F) :
  length y ≠ 3%nat →
  ((length y < 3)%nat ∧ _lorenz sigma beta rho y t = Raised IndexError) ∨
  ((3 < length y)%nat ∧
   ∃ d, _lorenz sigma beta rho y t = Returned d ∧ length d = 3%nat).
Proof.
  intros H3. destruct y as [|y0 [|y1 [|y2 [|y3 y]]]]; try done.
  - left. split; [simpl; lia | done].
  - left. split; [simpl; lia | done].
  - left. split; [simpl; lia | done].
  - right. split; [simpl; lia|]. unfold _lorenz.
    rewrite (getitem_lookup _ 1 y1), (getitem_lookup _ 0 y0), (getitem_lookup _ 2 y2)
      by (lia || done).
    by eexists.
Qed.

Lemma _roessler_wrong_size (a b c : F) (y : list F) (t : F) :
  length y ≠ 3%nat →
  ((length y < 3)%nat ∧ _roessler a b c y t = Raised IndexError) ∨
  ((3 < length y)%nat ∧
   ∃ d, _roessler a b c y t = Returned d ∧ length d = 3%nat).
Proof.
  intros H3. destruct y as [|y0 [|y1 [|y2 [|y3 y]]]]; try done.
  - left. split; [simpl; lia | done].
  - left. split; [simpl; lia | done].
  - left. split; [simpl; lia | done].
  - right. split; [simpl; lia|]. unfold _roessler.
    rewrite (getitem_lookup _ 1 y1), (getitem_lookup _ 2 y2), (getitem_lookup _ 0 y0)
      by (lia || done).
    by eexists.
Qed.

(** What an integrator that checks the state does with a derivative that
    fails or returns three components for a state of another size. *)
Lemma odeint_wrong_size
    (odeint : (list F → F → result (list F)) → pyval F → list F
              → result (list (list F)))
    (f : list F → F → result (list F)) (vs : list F) (t0 t1 : F) (ts : list F) :
  checks_state odeint f →
  ((length vs < 3)%nat ∧ f vs t0 = Raised IndexError) ∨
  ((3 < length vs)%nat ∧ ∃ d, f vs t0 = Returned d ∧ length d = 3%nat) →
  ∃ e, odeint f (PSeq vs) (t0 :: t1 :: ts) = Raised e ∧
       ((length vs < 3)%nat → e = IndexError) ∧
       ((3 < length vs)%nat → e = IntegrationError).
Proof.
  intros Hode [[Hlt Hf]|(Hgt & d & Hf & Hd)];
    destruct (Hode vs t0 t1 ts) as [Hraise Hsize].
  - exists IndexError. split; [by apply Hraise|]. split; [done | lia].
  - exists IntegrationError. split; [apply (Hsize d Hf); lia|]. split; [lia | done].
Qed.

(** A flow does not look at [x0]; the integrator fails on a state that
    does not have three components, and so does the flow. *)
Lemma flow_x0_rejected
    (odeint : (list F → F → result (list F)) → pyval F → list F
              → result (list (list F)))
    (length : Z) (vs : list F) (step sample : F) (discard : Z) (w : World F) :
  0 < length → 0 ≤ discard → vs ≠ [] → List.length vs ≠ 3%nat →
  fis_zero step = false →
  let stride := ftrunc (sample / step)%fl in
  1 ≤ stride → 2 ≤ stride * (length + discard) →
  (∀ sigma beta rho,
     checks_state odeint (_lorenz sigma beta rho) →
     ∃ e, lorenz odeint length (PSeq vs) sigma beta rho step sample discard w
          = (Raised e, w) ∧
          ((List.length vs < 3)%nat → e = IndexError) ∧
          ((3 < List.length vs)%nat → e = IntegrationError)) ∧
  (∀ a b c,
     checks_state odeint (_roessler a b c) →
     ∃ e, roessler odeint length (PSeq vs) a b c step sample discard w
          = (Raised e, w) ∧
          ((List.length vs < 3)%nat → e = IndexError) ∧
          ((3 < List.length vs)%nat → e = IntegrationError)).
Proof.
  intros HL HD Hvs H3 Hstep stride Hs HN.
  destruct (flow_grid_runs length step sample discard Hstep) as (t & Hgrid & _ & Hlen);
    [fold stride; lia|]. fold stride in Hgrid, Hlen.
  destruct (flow_sample t length discard stride) as (ts & Hts & _); [done..|].
  assert (py_not (PSeq vs) = false) as Hnot
    by (by apply bool_decide_eq_false_2).
  destruct t as [|t0 [|t1 t]]; [simpl in Hlen; lia | simpl in Hlen; lia |].
  split.
  - intros sigma beta rho Hode.
    destruct (odeint_wrong_size odeint (_lorenz sigma beta rho) vs t0 t1 t Hode
                (_lorenz_wrong_size sigma beta rho vs t0 H3)) as (e & He & Hcases).
    exists e. split; [|done]. unfold lorenz. rewrite Hnot.
    unfold bind, ret, lift. rewrite Hgrid. simpl. by rewrite Hts, He.
  - intros a b c Hode.
    destruct (odeint_wrong_size odeint (_roessler a b c) vs t0 t1 t Hode
                (_roessler_wrong_size a b c vs t0 H3)) as (e & He & Hcases).
    exists e. split; [|done]. unfold roessler. rewrite Hnot.
    unfold bind, ret, lift. rewrite Hgrid. simpl. by rewrite Hts, He.
Qed.
End initial_conditions.

Lemma delay_stride_inv `{Num F} (n : Z) (sample tau : F) (s : Z) :
  delay_stride n sample tau = Returned s →
  fis_zero tau = false ∧ s = ftrunc (of_Z n * sample / tau)%fl.
Proof.
  unfold delay_stride, py_div. destruct (fis_zero tau); [done|].
  simpl. by intros [= <-].
Qed.

(** C4 (as amended): for positive [length] and non-negative [discard], a
    supplied sequence [x0] of three or more values makes [henon] and
    [ikeda] raise [ValueError], and a non-empty [x0] whose size is neither
    1 nor [n] makes [mackey_glass] raise [ValueError] when the initial block
    fits the fine grid.  An [x0] of one value is not rejected by them: it
    is repeated over both components, or over the whole initial block.
    [lorenz] and [roessler] do not look at [x0], and on a grid of two or
    more points a non-empty [x0] that does not have three values makes
    them fail inside the integrator: with fewer than three values the
    derivative function raises [IndexError] at its first evaluation, with
    more it returns three components for a longer state, which the
    integrator rejects. *)
Theorem x0_size_mismatch `{Num F}
    (odeint : (list F → F → result (list F)) → pyval F → list F
              → result (list (list F)))
    (length discard : Z) (vs : list F) (w : World F) :
  0 < length → 0 ≤ discard →
  ((3 ≤ List.length vs)%nat →
   (∀ a b, henon length (PSeq vs) a b discard w = (Raised ValueError, w)) ∧
   (∀ alpha beta gamma mu,
      ikeda length (PSeq vs) alpha beta gamma mu discard w = (Raised ValueError, w))) ∧
  (∀ a b c tau n sample sub,
     delay_stride n sample tau = Returned sub →
     0 < n ≤ n * discard + sub * length →
     vs ≠ [] → List.length vs ≠ Z.to_nat n → List.length vs ≠ 1%nat →
     (mackey_glass length (PSeq vs) a b c tau n sample discard w).1
     = Raised ValueError) ∧
  (∀ v, vs = [v] →
     (∀ a b, henon length (PSeq vs) a b discard w
             = henon length (PSeq [v; v]) a b discard w) ∧
     (∀ alpha beta gamma mu,
        ikeda length (PSeq vs) alpha beta gamma mu discard w
        = ikeda length (PSeq [v; v]) alpha beta gamma mu discard w) ∧
     (∀ a b c tau n sample sub,
        delay_stride n sample tau = Returned sub →
        0 < n ≤ n * discard + sub * length →
        mackey_glass length (PSeq vs) a b c tau n sample discard w
        = mackey_glass length (PSeq (replicate (Z.to_nat n) v)) a b c tau n sample
            discard w)) ∧
  (∀ step sample,
     vs ≠ [] → List.length vs ≠ 3%nat →
     fis_zero step = false →
     1 ≤ ftrunc (sample / step)%fl →
     2 ≤ ftrunc (sample / step)%fl * (length + discard) →
     (∀ sigma beta rho,
        checks_state odeint (_lorenz sigma beta rho) →
        ∃ e, lorenz odeint length (PSeq vs) sigma beta rho step sample discard w
             = (Raised e, w) ∧
             ((List.length vs < 3)%nat → e = IndexError) ∧
             ((3 < List.length vs)%nat → e = IntegrationError)) ∧
     (∀ a b c,
        checks_state odeint (_roessler a b c) →
        ∃ e, roessler odeint length (PSeq vs) a b c step sample discard w
             = (Raised e, w) ∧
             ((List.length vs < 3)%nat → e = IndexError) ∧
             ((3 < List.length vs)%nat → e = IntegrationError))).
Proof.
  intros HL HD. split; [|split; [|split]].
  - intros Hvs. split; intros; [by apply henon_x0_mismatch | by apply ikeda_x0_mismatch].
  - intros a b c tau n sample sub [Htau ->]%delay_stride_inv Hn Hne Hlen H1.
    apply mackey_glass_seed_mismatch; [done | lia | lia |].
    right. exists vs. do 2 (split; [done|]). split; [|done].
    rewrite clip_stop_fits by lia. done.
  - intros v ->. split; [|split].
    + intros. apply henon_x0_broadcast.
    + intros. apply ikeda_x0_broadcast.
    + intros a b c tau n sample sub Hsub Hn. by apply (mackey_glass_x0_broadcast _ _ _ _ _ _ _ _ _ sub).
  - intros step sample Hvs H3 Hstep Hs HN. by apply flow_x0_rejected.
Qed.

Section initial_condition_examples.
Local Open Scope R_scope.

Lemma delay_stride_example : delay_stride 2 (1 / 2 : R) 1 = Returned 1%Z.
Proof.
  rewrite delay_stride_R by lra. f_equal.
  replace (2 * (1 / 2) / 1) with (IZR 1) by lra. apply Rtrunc_IZR.
Qed.

(** A four-component [x0] is rejected by [henon], [ikeda], [mackey_glass]
    with [n = 2] and, with the Euler integrator, by [lorenz] and
    [roessler]; a two-component [x0] makes the derivative of [lorenz]
    raise. *)
Lemma x0_size_mismatch_example :
  henon 1 (PSeq [1; 2; 3; 4]) 1.4 0.3 1 world0 = (Raised ValueError, world0) ∧
  ikeda 1 (PSeq [1; 2; 3; 4]) 6 0.4 1 0.9 1 world0 = (Raised ValueError, world0) ∧
  (mackey_glass 1 (PSeq [1; 2; 3; 4]) 1 0 1 1 2 (1 / 2) 1 world0).1
  = Raised ValueError ∧
  lorenz euler_odeint 1 (PSeq [1; 2; 3; 4]) 10 3 28 1 2 1 world0
  = (Raised IntegrationError, world0) ∧
  roessler euler_odeint 1 (PSeq [1; 2; 3; 4]) 0.2 0.2 5.7 1 2 1 world0
  = (Raised IntegrationError, world0) ∧
  lorenz euler_odeint 1 (PSeq [1; 2]) 10 3 28 1 2 1 world0
  = (Raised IndexError, world0).
Proof.
  destruct (x0_size_mismatch euler_odeint 1 1 [1; 2; 3; 4] world0)
    as ((Hhenon & Hikeda) & Hmg & _ & Hflows); [lia | lia | simpl; lia |].
  destruct (x0_size_mismatch euler_odeint 1 1 [1; 2] world0)
    as (_ & _ & _ & Hshort); [lia | lia |].
  split; [apply Hhenon|]. split; [apply Hikeda|].
  split.
  { apply (Hmg _ _ _ _ _ _ 1%Z delay_stride_example);
      [lia | done | simpl; lia | simpl; lia]. }
  assert (@fis_zero R _ 1 = false) as Hstep by (apply fis_zero_R_false; lra).
  assert (@ftrunc R _ (fdiv 2 1) = 2%Z) as Hstride by apply Rtrunc_two.
  destruct (Hflows 1 2) as [Hlorenz Hroessler];
    [done | simpl; lia | done | rewrite Hstride; lia | rewrite Hstride; lia |].
  destruct (Hshort 1 2) as [Hlorenz2 _];
    [done | simpl; lia | done | rewrite Hstride; lia | rewrite Hstride; lia |].
  destruct (Hlorenz 10 3 28 (euler_checks_state _)) as (e1 & -> & _ & He1).
  destruct (Hroessler 0.2 0.2 5.7 (euler_checks_state _)) as (e2 & -> & _ & He2).
  destruct (Hlorenz2 10 3 28 (euler_checks_state _)) as (e3 & -> & He3 & _).
  rewrite He1, He2, He3 by (simpl; lia). done.
Defined.

Lemma mg_valid_pair : mg_valid 1 (PSeq [1 / 2; 1 / 2]) 0 1 2 (1 / 2) 1 1.
Proof.
  pose proof delay_stride_example as [Htau Hs]%delay_stride_inv.
  unfold mg_valid. do 3 (split; [lia|]). do 2 (split; [done|]). split; [lia|].
  split; [|split; [done | lia]].
  apply fis_zero_R_false. cbn [of_Z fadd fmul Num_R]. change (2 * 2)%Z with 4%Z. lra.
Qed.

(** [mackey_glass] with [n = 2] and an [x0] of one value does not fail: it
    returns its one sample.  [henon] with an [x0] of one value does not
    fail either: its first state repeats the value. *)
Lemma initial_condition_counterexample :
  (∃ xs w', mackey_glass 1 (PSeq [1 / 2]) 1 0 1 1 2 (1 / 2) 1 world0 = (Returned xs, w') ∧
            List.length xs = 1%nat) ∧
  (∃ ys w', henon 2 (PSeq [1 / 2]) 1.4 0.3 0 world0 = (Returned ys, w') ∧
            ys !! 0%nat = Some (1 / 2, 1 / 2)).
Proof.
  split.
  - rewrite (mackey_glass_x0_broadcast _ _ _ _ _ _ _ _ _ 1%Z)
      by (exact delay_stride_example || lia).
    destruct (mackey_glass_runs 1 (PSeq [1 / 2; 1 / 2]) 1 0 1 1 2 (1 / 2) 1 1 world0
                mg_valid_pair) as (x & xs & w' & _ & Hrun & Hlen & _).
    by exists xs, w'.
  - rewrite henon_x0_broadcast.
    destruct (henon_runs 2 (PSeq [1 / 2; 1 / 2]) 1.4 0.3 0 world0)
      as (ys & w' & Hrun & _ & _ & Hfirst); [lia | lia | done |].
    exists ys, w'. split; [done|]. by apply Hfirst.
Qed.
End initial_condition_examples.

(** * Further properties of the generators *)

(** ** The transient: [discard] only drops states *)

Section discard.
Context `{Num F}.

Lemma bind_map_result {A B C} (g : B → C) (m : M F A) (k1 : A → M F C)
    (k2 : A → M F B) (w : World F) :
  (∀ v w', k1 v w' = map_result g (k2 v w')) →
  bind m k1 w = map_result g (bind m k2 w).
Proof.
  intros Hk. unfold bind. destruct (m w) as [[e|v] w']; [done | apply Hk].
Qed.

Lemma map_engine_discard (step : F * F → F * F) (x : list (F * F))
    (length d : Z) (w : World F) :
  0 ≤ d →
  (x' <- lift (for_each (py_range 1 (length + d)) (map_body step) x) ;;
   ret (slice_from x' d)) w
  = map_result (drop (Z.to_nat d))
      ((x' <- lift (for_each (py_range 1 (length + d)) (map_body step) x) ;;
        ret (slice_from x' 0)) w).
Proof.
  intros Hd. apply bind_map_result. intros x' w'. unfold ret. simpl.
  by rewrite !slice_from_nonneg by lia.
Qed.

Lemma henon_discard (length : Z) (x0 : pyval F) (a b : F) (d : Z) (w : World F) :
  0 ≤ d →
  henon length x0 a b d w
  = map_result (drop (Z.to_nat d)) (henon (length + d) x0 a b 0 w).
Proof.
  intros Hd. unfold henon. rewrite Z.add_0_r.
  apply bind_map_result. intros x w1. apply bind_map_result. intros x1 w2.
  by apply map_engine_discard.
Qed.

Lemma ikeda_discard (length : Z) (x0 : pyval F) (alpha beta gamma mu : F) (d : Z)
    (w : World F) :
  0 ≤ d →
  ikeda length x0 alpha beta gamma mu d w
  = map_result (drop (Z.to_nat d)) (ikeda (length + d) x0 alpha beta gamma mu 0 w).
Proof.
  intros Hd. unfold ikeda. rewrite Z.add_0_r.
  apply bind_map_result. intros x w1. apply bind_map_result. intros x1 w2.
  by apply map_engine_discard.
Qed.
End discard.

(** X1: for every non-negative [discard], [henon] and [ikeda] with
    [discard = d] behave as the same call with [length + d] states and no
    discard, followed by dropping the first [d] states: the same random
    draws, the same exception if one is raised, and otherwise the same
    trajectory without its first [d] states. *)
Theorem maps_discard_drops_transient `{Num F}
    (length d : Z) (x0 : pyval F) (w : World F) :
  0 ≤ d →
  (∀ a b,
     henon length x0 a b d w
     = match henon (length + d) x0 a b 0 w with
       | (Returned xs, w') => (Returned (drop (Z.to_nat d) xs), w')
       | (Raised e, w') => (Raised e, w')
       end) ∧
  (∀ alpha beta gamma mu,
     ikeda length x0 alpha beta gamma mu d w
     = match ikeda (length + d) x0 alpha beta gamma mu 0 w with
       | (Returned xs, w') => (Returned (drop (Z.to_nat d) xs), w')
       | (Raised e, w') => (Raised e, w')
       end).
Proof.
  intros Hd. split; intros.
  - rewrite henon_discard by done. unfold map_result. by repeat case_match.
  - rewrite ikeda_discard by done. unfold map_result. by repeat case_match.
Qed.

(** [henon] with two states after one discarded state, from (0, 0). *)
Lemma maps_discard_drops_transient_example :
  henon 2 (PSeq [0; 0]%R) 1.4%R 0.3%R 1 world0
  = match henon 3 (PSeq [0; 0]%R) 1.4%R 0.3%R 0 world0 with
    | (Returned xs, w') => (Returned (drop 1 xs), w')
    | (Raised e, w') => (Raised e, w')
    end.
Proof.
  destruct (maps_discard_drops_transient 2 1 (PSeq [0; 0]%R) world0) as [Hhenon _];
    [lia|].
  exact (Hhenon 1.4%R 0.3%R).
Defined.

(** ** The random stream *)

Section random_stream.
Context `{Num F}.

Lemma bind_keeps {A B} (m : M F A) (k : A → M F B) (w : World F) :
  (m w).2 = w → (∀ v, (k v w).2 = w) → (bind m k w).2 = w.
Proof.
  intros Hm Hk. unfold bind. destruct (m w) as [[e|v] w'] eqn:Hmw; simpl in Hm; subst w'.
  - done.
  - apply Hk.
Qed.

Lemma np_empty_keeps (n : Z) (w : World F) : (np_empty n w).2 = w.
Proof. unfold np_empty. by case_bool_decide. Qed.

Lemma np_empty2_keeps (n : Z) (w : World F) : (np_empty2 n w).2 = w.
Proof. unfold np_empty2. by case_bool_decide. Qed.

Lemma mg_seed_keeps (length : Z) (x0 : pyval F) (tau : F) (n : Z) (sample : F)
    (discard : Z) (w : World F) :
  py_not x0 = false → (mg_seed length x0 tau n sample discard w).2 = w.
Proof.
  intros Hx0. unfold mg_seed. rewrite Hx0.
  apply bind_keeps; [done|]. intros s.
  apply bind_keeps; [apply np_empty_keeps|]. intros x.
  by apply bind_keeps.
Qed.

(** What a call leaves of the stream when it had to draw [k] variates
    first and nothing after them. *)
Lemma bind_advances {A B} (m : M F A) (k : A → M F B) (w w1 : World F) (v : A) :
  m w = (Returned v, w1) → (k v w1).2 = w1 → (bind m k w).2 = w1.
Proof. intros Hm Hk. unfold bind. by rewrite Hm. Qed.
End random_stream.

(** X2: a call with an initial condition that Python takes as true (a
    non-empty sequence or a nonzero float) never draws from the random
    stream: whatever the other parameters are, and whether the call returns
    or raises, [henon], [ikeda], [lorenz], [roessler] and [mackey_glass]
    leave the world as they found it. *)
Theorem explicit_x0_keeps_random_stream `{Num F}
    (odeint : (list F → F → result (list F)) → pyval F → list F
              → result (list (list F)))
    (x0 : pyval F) (w : World F) :
  py_not x0 = false →
  (∀ length a b discard, (henon length x0 a b discard w).2 = w) ∧
  (∀ length alpha beta gamma mu discard,
     (ikeda length x0 alpha beta gamma mu discard w).2 = w) ∧
  (∀ length sigma beta rho step sample discard,
     (lorenz odeint length x0 sigma beta rho step sample discard w).2 = w) ∧
  (∀ length a b c step sample discard,
     (roessler odeint length x0 a b c step sample discard w).2 = w) ∧
  (∀ length a b c tau n sample discard,
     (mackey_glass length x0 a b c tau n sample discard w).2 = w).
Proof.
  intros Hx0. repeat split.
  - intros. unfold henon. rewrite Hx0.
    apply bind_keeps; [apply np_empty2_keeps|]. intros x.
    apply bind_keeps; [done|]. intros x1. by apply bind_keeps.
  - intros. unfold ikeda. rewrite Hx0.
    apply bind_keeps; [apply np_empty2_keeps|]. intros x.
    apply bind_keeps; [done|]. intros x1. by apply bind_keeps.
  - intros. unfold lorenz. rewrite Hx0. by apply bind_keeps.
  - intros. unfold roessler. rewrite Hx0.
    apply bind_keeps; [done|]. intros [s t]. by apply bind_keeps.
  - intros. unfold mackey_glass, mg_grid.
    apply bind_keeps.
    + apply bind_keeps; [by apply mg_seed_keeps|]. by intros [s x].
    + by intros [s x].
Qed.

(** The five generators started from explicit states on [world0]. *)
Lemma explicit_x0_keeps_random_stream_example :
  (henon 3 (PSeq [0; 0]%R) 1.4%R 0.3%R 1 world0).2 = world0 ∧
  (ikeda 3 (PSeq [0; 0]%R) 6%R 0.4%R 1%R 0.9%R 1 world0).2 = world0 ∧
  (lorenz euler_odeint 3 (PSeq [0; 0; 0]%R) 10%R 3%R 28%R 1%R 2%R 1 world0).2 = world0 ∧
  (roessler euler_odeint 3 (PSeq [0; 0; 0]%R) 0.2%R 0.2%R 5.7%R 1%R 2%R 1 world0).2
  = world0 ∧
  (mackey_glass 3 (PSeq [0; 0]%R) 0.2%R 0.1%R 10%R 23%R 2 0.46%R 1 world0).2 = world0.
Proof.
  destruct (explicit_x0_keeps_random_stream euler_odeint (PSeq [0; 0]%R) world0)
    as (Hhenon & Hikeda & _ & _ & Hmg); [done|].
  destruct (explicit_x0_keeps_random_stream euler_odeint (PSeq [0; 0; 0]%R) world0)
    as (_ & _ & Hlorenz & Hroessler & _); [done|].
  split; [apply Hhenon|]. split; [apply Hikeda|]. split; [apply Hlorenz|].
  split; [apply Hroessler | apply Hmg].
Defined.

(** X3: an initial condition that Python takes as false (an empty
    sequence or the float 0.0) is treated exactly as a missing one: each
    of the five generators then behaves as with [x0 = None] and starts from
    a random state. *)
Theorem falsy_x0_is_absent `{Num F}
    (odeint : (list F → F → result (list F)) → pyval F → list F
              → result (list (list F)))
    (x0 : pyval F) (w : World F) :
  py_not x0 = true →
  (∀ length a b discard,
     henon length x0 a b discard w = henon length PNone a b discard w) ∧
  (∀ length alpha beta gamma mu discard,
     ikeda length x0 alpha beta gamma mu discard w
     = ikeda length PNone alpha beta gamma mu discard w) ∧
  (∀ length sigma beta rho step sample discard,
     lorenz odeint length x0 sigma beta rho step sample discard w
     = lorenz odeint length PNone sigma beta rho step sample discard w) ∧
  (∀ length a b c step sample discard,
     roessler odeint length x0 a b c step sample discard w
     = roessler odeint length PNone a b c step sample discard w) ∧
  (∀ length a b c tau n sample discard,
     mackey_glass length x0 a b c tau n sample discard w
     = mackey_glass length PNone a b c tau n sample discard w).
Proof.
  intros Hx0. repeat split; intros.
  - unfold henon. by rewrite Hx0.
  - unfold ikeda. by rewrite Hx0.
  - unfold lorenz. by rewrite Hx0.
  - unfold roessler. by rewrite Hx0.
  - unfold mackey_glass, mg_grid, mg_seed. by rewrite Hx0.
Qed.

(** The zero float as initial condition of [henon], and the empty list as
    initial condition of [mackey_glass]. *)
Lemma falsy_x0_is_absent_example :
  henon 3 (PFloat 0%R) 1.4%R 0.3%R 1 world0 = henon 3 PNone 1.4%R 0.3%R 1 world0 ∧
  mackey_glass 3 (PSeq []) 0.2%R 0.1%R 10%R 23%R 2 0.46%R 1 world0
  = mackey_glass 3 PNone 0.2%R 0.1%R 10%R 23%R 2 0.46%R 1 world0.
Proof.
  split.
  - apply (falsy_x0_is_absent euler_odeint (PFloat 0%R) world0 fis_zero_R_true).
  - by apply (falsy_x0_is_absent euler_odeint (PSeq []) world0).
Defined.

Section draws.
Context `{Num F}.

Lemma bind_moves {A B} (m : M F A) (k : A → M F B) (w w1 : World F) :
  (m w).2 = w1 → (∀ v, (k v w1).2 = w1) → (bind m k w).2 = w1.
Proof.
  intros Hm Hk. unfold bind. destruct (m w) as [[e|v] w'] eqn:Hmw; simpl in Hm; subst w'.
  - done.
  - apply Hk.
Qed.

Lemma bind_then {A B} (m : M F A) (k : A → M F B) (w w' w1 : World F) (v : A) :
  m w = (Returned v, w') → (k v w').2 = w1 → (bind m k w).2 = w1.
Proof. intros Hm Hk. unfold bind. by rewrite Hm. Qed.

Lemma np_random_moves (k : Z) (w : World F) :
  0 ≤ k → (np_random k w).2 = advance w (Z.to_nat k).
Proof. intros Hk. by rewrite np_random_returned. Qed.

(** Drawing and then only computing. *)
Lemma draw_then_lift {A} (k : Z) (g : list F → result A) (w : World F) :
  0 ≤ k → ((u <- np_random k ;; lift (g u)) w).2 = advance w (Z.to_nat k).
Proof. intros Hk. apply bind_moves; [by apply np_random_moves | done]. Qed.

Lemma falpha_signal_draws (irfft : list (F * F) → Z → result (list F))
    (length : Z) (alpha : F) (fl fu : option F) (w : World F) :
  0 < length →
  (falpha_signal irfft length alpha fl fu w).2
  = advance w (Z.to_nat (length `div` 2 + 1)).
Proof.
  intros HL. unfold falpha_signal.
  destruct (np_rfftfreq_returned length HL) as (freqs & -> & Hfreqs).
  unfold bind at 1, lift at 1. cbv zeta.
  set (power := 0%fl :: _).
  assert (List.length power = List.length freqs) as Hp.
  { unfold power. simpl. rewrite length_fmap, slice_from_nonneg by lia.
    rewrite length_drop. pose proof (Z.div_pos length 2). lia. }
  destruct (cutoff_returned (λ f c, fltb f c) fl power freqs Hp) as (p1 & -> & Hp1).
  unfold bind at 1, lift at 1.
  destruct (cutoff_returned (λ f c, fltb c f) fu p1 freqs Hp1) as (p2 & -> & Hp2).
  unfold bind at 1, lift at 1.
  replace (Z.to_nat (length `div` 2 + 1)) with (Z.to_nat (Z.of_nat (List.length freqs)))
    by lia.
  eapply bind_advances; [apply np_random_returned; lia|].
  rewrite Nat2Z.id. apply bind_moves; [done|]. intros y.
  by apply bind_moves.
Qed.
End draws.

(** X4: how many uniform variates a call takes from the random stream, for
    positive [length] and non-negative [discard].  Without an initial
    condition [henon] and [ikeda] take 2 and [lorenz] takes 3, whether they
    return or raise; [roessler] takes 3 once its time grid is built, and
    [mackey_glass] takes [n] once its buffer is allocated; [falpha] always
    takes one variate per frequency bin, [length // 2 + 1]. *)
Theorem absent_x0_draws `{Num F}
    (odeint : (list F → F → result (list F)) → pyval F → list F
              → result (list (list F)))
    (irfft : list (F * F) → Z → result (list F))
    (length discard : Z) (w : World F) :
  0 < length → 0 ≤ discard →
  (∀ a b, (henon length PNone a b discard w).2 = advance w 2) ∧
  (∀ alpha beta gamma mu,
     (ikeda length PNone alpha beta gamma mu discard w).2 = advance w 2) ∧
  (∀ sigma beta rho step sample,
     (lorenz odeint length PNone sigma beta rho step sample discard w).2
     = advance w 3) ∧
  (∀ a b c step sample,
     returns (flow_grid length step sample discard) →
     (roessler odeint length PNone a b c step sample discard w).2 = advance w 3) ∧
  (∀ a b c tau n sample sub,
     delay_stride n sample tau = Returned sub →
     0 ≤ n → 0 ≤ n * discard + sub * length →
     (mackey_glass length PNone a b c tau n sample discard w).2
     = advance w (Z.to_nat n)) ∧
  (∀ alpha fl fu mean var,
     (falpha irfft length alpha fl fu mean var w).2
     = advance w (Z.to_nat (length `div` 2 + 1))).
Proof.
  intros HL HD. split; [|split; [|split; [|split; [|split]]]].
  - intros. unfold henon.
    destruct (np_empty2_returned (length + discard) w) as (x & Hx & _); [lia|].
    eapply bind_then; [exact Hx|]. simpl py_not. cbv iota.
    apply bind_moves; [by apply (draw_then_lift 2)|]. intros x1.
    by apply bind_moves.
  - intros. unfold ikeda.
    destruct (np_empty2_returned (length + discard) w) as (x & Hx & _); [lia|].
    eapply bind_then; [exact Hx|]. simpl py_not. cbv iota.
    apply bind_moves; [by apply (draw_then_lift 2)|]. intros x1.
    by apply bind_moves.
  - intros. unfold lorenz. simpl py_not. cbv iota.
    apply bind_moves; [|done].
    apply bind_moves; [by apply (np_random_moves 3) | done].
  - intros a b c step sample [[s t] Hgrid]. unfold roessler. rewrite Hgrid.
    eapply bind_then; [done|]. simpl py_not. cbv iota.
    apply bind_moves; [|done].
    apply bind_moves; [by apply (np_random_moves 3) | done].
  - intros a b c tau n sample sub Hsub Hn HG.
    unfold mackey_glass, mg_grid, mg_seed. rewrite Hsub.
    apply bind_moves; [|by intros [s x]].
    apply bind_moves; [|by intros [s x]].
    eapply bind_then; [done|].
    eapply bind_then; [by apply np_empty_returned|]. simpl py_not. cbv iota.
    apply bind_moves; [by apply draw_then_lift | done].
  - intros. unfold falpha.
    apply bind_moves; [by apply falpha_signal_draws | done].
Qed.

(** The variates taken on [world0] for [length = 3] and [discard = 1]. *)
Lemma absent_x0_draws_example :
  (henon 3 PNone 1.4%R 0.3%R 1 world0).2 = advance world0 2 ∧
  (lorenz euler_odeint 3 PNone 10%R 3%R 28%R 1%R 2%R 1 world0).2 = advance world0 3 ∧
  (mackey_glass 3 PNone 0.2%R 0.1%R 10%R 1%R 2 (1 / 2)%R 1 world0).2
  = advance world0 2 ∧
  (falpha dft_irfft 3 1%R None None 0%R 1%R world0).2 = advance world0 2.
Proof.
  destruct (absent_x0_draws euler_odeint dft_irfft 3 1 world0)
    as (Hhenon & _ & Hlorenz & _ & Hmg & Hfalpha); [lia | lia |].
  split; [apply Hhenon|]. split; [apply Hlorenz|]. split; [|apply Hfalpha].
  apply (Hmg _ _ _ _ _ _ 1%Z delay_stride_example); lia.
Defined.

(** ** The maps on the reals *)

Section maps_real.
Local Open Scope R_scope.

Lemma ikeda_step_R (alpha beta gamma mu : R) (p : R * R) :
  let phi := beta - alpha / (1 + p.1 ^ 2 + p.2 ^ 2) in
  ikeda_step alpha beta gamma mu p
  = (gamma + mu * (p.1 * cos phi - p.2 * sin phi),
     mu * (p.1 * sin phi + p.2 * cos phi)).
Proof.
  unfold ikeda_step. cbn [fadd fsub fmul fdiv fpow fcos fsin of_Z Num_R].
  rewrite !Rpow_2. simpl. by rewrite !Rmult_1_r.
Qed.

(** One step of the Ikeda map turns the state and scales its distance from
    the origin by [mu], then shifts it by [gamma]. *)
Lemma ikeda_step_norm (alpha beta gamma mu : R) (p : R * R) :
  let q := ikeda_step alpha beta gamma mu p in
  (q.1 - gamma) ^ 2 + q.2 ^ 2 = mu ^ 2 * (p.1 ^ 2 + p.2 ^ 2).
Proof.
  cbv zeta. rewrite ikeda_step_R. cbv zeta. cbn [fst snd].
  set (phi := beta - _). pose proof (sin2_cos2 phi) as Hsc. unfold Rsqr in Hsc.
  set (c := cos phi) in *. set (s := sin phi) in *.
  replace ((gamma + mu * (p.1 * c - p.2 * s) - gamma) ^ 2 + (mu * (p.1 * s + p.2 * c)) ^ 2)
    with (mu ^ 2 * (p.1 ^ 2 + p.2 ^ 2) * (s * s + c * c)) by ring.
  rewrite Hsc. ring.
Qed.

End maps_real.

(** X5: [ikeda] with an explicit two-component [x0], positive [length] and
    [discard = 0] returns [length] states without touching the random
    stream; the first state is [x0]; each further state is obtained from
    the one before by the angle [phi = beta - alpha / (1 + x^2 + y^2)] and
    [x' = gamma + mu*(x*cos(phi) - y*sin(phi))],
    [y' = mu*(x*sin(phi) + y*cos(phi))]; and its distance from
    [(gamma, 0)] is [mu] times the distance of its predecessor from the
    origin. *)
Theorem ikeda_trajectory (length : Z) (u v alpha beta gamma mu : R) (w : World R) :
  0 < length →
  ∃ xs,
    ikeda length (PSeq [u; v]) alpha beta gamma mu 0 w = (Returned xs, w) ∧
    Z.of_nat (List.length xs) = length ∧
    xs !! 0%nat = Some (u, v) ∧
    ∀ (k : nat) p q, xs !! k = Some p → xs !! S k = Some q →
      (let phi := (beta - alpha / (1 + p.1 ^ 2 + p.2 ^ 2))%R in
       q = (gamma + mu * (p.1 * cos phi - p.2 * sin phi),
            mu * (p.1 * sin phi + p.2 * cos phi))%R) ∧
      ((q.1 - gamma) ^ 2 + q.2 ^ 2 = mu ^ 2 * (p.1 ^ 2 + p.2 ^ 2))%R.
Proof.
  intros HL.
  destruct (ikeda_runs length (PSeq [u; v]) alpha beta gamma mu 0 w)
    as (xs & w' & Hrun & Hlen & Hrec & Hfirst); [done | done | done |].
  destruct (Hfirst u v) as [H0 ->]; [done | done |].
  exists xs. split; [done|]. split; [lia|]. split; [done|].
  intros k p q Hp Hq. pose proof (lookup_lt_Some _ _ _ Hq) as Hk.
  rewrite Hrec, Hp in Hq by lia. injection Hq as <-.
  split; [apply ikeda_step_R | apply ikeda_step_norm].
Qed.

(** Three states of the Ikeda map from (1, 0) with the default constants. *)
Lemma ikeda_trajectory_example :
  ∃ xs, ikeda 3 (PSeq [1; 0]%R) 6%R 0.4%R 1%R 0.9%R 0 world0 = (Returned xs, world0) ∧
        Z.of_nat (List.length xs) = 3 ∧ xs !! 0%nat = Some (1, 0)%R.
Proof.
  destruct (ikeda_trajectory 3 1%R 0%R 6%R 0.4%R 1%R 0.9%R world0) as (xs & Hrun & Hlen & H0 & _);
    [lia|].
  by exists xs.
Defined.

(** ** Edge cases of the maps: no room for the first state *)

Section map_edges.
Context `{Num F}.

(** With a valid or absent [x0], seeding is the single write [x[0] = r]. *)
Lemma henon_seed_writes (x0 : pyval F) (w : World F) :
  valid_x0 2 x0 →
  ∃ r w', ∀ x : list (F * F),
    (if py_not x0 then
       u <- np_random 2 ;;
       let v := zip_with fadd [lit 0.0; lit 0.9] (jitter (lit 0.01) u) in
       lift (setrow x 0 (PSeq v))
     else lift (setrow x 0 x0)) w
    = (setitem x 0 r, w').
Proof.
  intros Hx0. destruct x0 as [| |vs]; simpl in Hx0; [|done|].
  - eexists _, _. intros x. change (py_not (@PNone F)) with true. cbv iota.
    erewrite bind_returned; [|by apply np_random_returned]. done.
  - destruct vs as [|u [|v [|? ?]]]; try done. by exists (u, v), w.
Qed.

Lemma ikeda_seed_writes (x0 : pyval F) (w : World F) :
  valid_x0 2 x0 →
  ∃ r w', ∀ x : list (F * F),
    (if py_not x0 then
       u <- np_random 2 ;;
       lift (setrow x 0 (PSeq (jitter (lit 0.1) u)))
     else lift (setrow x 0 x0)) w
    = (setitem x 0 r, w').
Proof.
  intros Hx0. destruct x0 as [| |vs]; simpl in Hx0; [|done|].
  - eexists _, _. intros x. change (py_not (@PNone F)) with true. cbv iota.
    erewrite bind_returned; [|by apply np_random_returned]. done.
  - destruct vs as [|u [|v [|? ?]]]; try done. by exists (u, v), w.
Qed.

(** The engine of both maps when [length + discard] leaves no room, or
    [length] asks for nothing. *)
Lemma map_engine_edges (seed : list (F * F) → M F (list (F * F)))
    (step : F * F → F * F) (length discard : Z) (w : World F) :
  (∃ r w', ∀ x, seed x w = (setitem x 0 r, w')) →
  let run :=
    (x <- np_empty2 (length + discard) ;;
     x <- seed x ;;
     x <- lift (for_each (py_range 1 (length + discard)) (map_body step) x) ;;
     ret (slice_from x discard)) w in
  (length + discard < 0 → run = (Raised ValueError, w)) ∧
  (length + discard = 0 → run.1 = Raised IndexError) ∧
  (length ≤ 0 < length + discard → run.1 = Returned []).
Proof.
  intros (r & w' & Hseed) run. unfold run. split; [|split].
  - intros HN. eapply bind_raised. unfold np_empty2.
    by rewrite bool_decide_eq_true_2 by lia.
  - intros HN.
    destruct (np_empty2_returned (length + discard) w) as (x & Hx & Hlen); [lia|].
    rewrite (bind_returned _ _ _ _ _ Hx).
    erewrite bind_raised; [done|]. rewrite Hseed.
    destruct x; [done | simpl in Hlen; lia].
  - intros HN.
    destruct (np_empty2_returned (length + discard) w) as (x & Hx & Hlen); [lia|].
    rewrite (bind_returned _ _ _ _ _ Hx).
    erewrite bind_returned; [|rewrite Hseed; by rewrite setitem_nonneg by lia].
    destruct (map_loop step (Z.to_nat (length + discard - 1)) 1 (<[Z.to_nat 0 := r]> x))
      as (x' & Hrun & Hl & _); [lia | rewrite length_insert; lia |].
    rewrite Z2Nat.id in Hrun by lia. rewrite length_insert in Hl.
    erewrite bind_returned; [|unfold lift, py_range; by rewrite Hrun].
    unfold ret. simpl. rewrite slice_from_nonneg by lia.
    f_equal. apply drop_ge. lia.
Qed.
End map_edges.

(** X7: [henon] and [ikeda] with a valid or absent [x0] and a buffer that
    leaves no room.  When [length + discard] is negative the allocation
    raises [ValueError] before anything is drawn; when it is zero the write
    of the first state raises [IndexError]; and when [length <= 0] but
    [length + discard > 0] the call returns an empty trajectory. *)
Theorem maps_without_room `{Num F} (length discard : Z) (x0 : pyval F) (w : World F) :
  valid_x0 2 x0 →
  (∀ a b,
     (length + discard < 0 → henon length x0 a b discard w = (Raised ValueError, w)) ∧
     (length + discard = 0 → (henon length x0 a b discard w).1 = Raised IndexError) ∧
     (length ≤ 0 < length + discard → (henon length x0 a b discard w).1 = Returned [])) ∧
  (∀ alpha beta gamma mu,
     (length + discard < 0 →
      ikeda length x0 alpha beta gamma mu discard w = (Raised ValueError, w)) ∧
     (length + discard = 0 →
      (ikeda length x0 alpha beta gamma mu discard w).1 = Raised IndexError) ∧
     (length ≤ 0 < length + discard →
      (ikeda length x0 alpha beta gamma mu discard w).1 = Returned [])).
Proof.
  intros Hx0. split; intros.
  - apply (map_engine_edges _ (henon_step a b)), henon_seed_writes, Hx0.
  - apply (map_engine_edges _ (ikeda_step alpha beta gamma mu)), ikeda_seed_writes, Hx0.
Qed.

(** [henon(length=0, discard=0)] raises and [henon(length=0, discard=2)]
    returns nothing. *)
Lemma maps_without_room_example :
  (henon 0 (PSeq [0; 0]%R) 1.4%R 0.3%R 0 world0).1 = Raised IndexError ∧
  (henon 0 (PSeq [0; 0]%R) 1.4%R 0.3%R 2 world0).1 = Returned [] ∧
  henon (-1) (PSeq [0; 0]%R) 1.4%R 0.3%R 0 world0 = (Raised ValueError, world0).
Proof.
  split; [|split].
  - destruct (maps_without_room 0 0 (PSeq [0; 0]%R) world0 eq_refl) as [Hhenon _].
    by apply Hhenon.
  - destruct (maps_without_room 0 2 (PSeq [0; 0]%R) world0 eq_refl) as [Hhenon _].
    apply Hhenon. lia.
  - destruct (maps_without_room (-1) 0 (PSeq [0; 0]%R) world0 eq_refl) as [Hhenon _].
    apply Hhenon. lia.
Defined.

(** ** Divisions by zero *)

(** X8: the divisions of Python floats raise [ZeroDivisionError] on a zero
    divisor.  [lorenz] and [roessler] raise it for [step = 0] ([roessler]
    before anything is drawn), [mackey_glass] raises it for [tau = 0]
    before anything is allocated or drawn, and for [2n + b*tau = 0] once
    the buffer is seeded; [falpha] raises it for [length = 0]. *)
Theorem zero_divisors_raise `{Num F}
    (odeint : (list F → F → result (list F)) → pyval F → list F
              → result (list (list F)))
    (irfft : list (F * F) → Z → result (list F)) (w : World F) :
  (∀ length x0 sigma beta rho step sample discard,
     fis_zero step = true →
     (lorenz odeint length x0 sigma beta rho step sample discard w).1
     = Raised ZeroDivisionError) ∧
  (∀ length x0 a b c step sample discard,
     fis_zero step = true →
     roessler odeint length x0 a b c step sample discard w
     = (Raised ZeroDivisionError, w)) ∧
  (∀ length x0 a b c tau n sample discard,
     fis_zero tau = true →
     mackey_glass length x0 a b c tau n sample discard w
     = (Raised ZeroDivisionError, w)) ∧
  (∀ length x0 a b c tau n sample discard sub x w',
     mg_seed length x0 tau n sample discard w = (Returned (sub, x), w') →
     fis_zero (of_Z (2 * n) + b * tau)%fl = true →
     mackey_glass length x0 a b c tau n sample discard w
     = (Raised ZeroDivisionError, w')) ∧
  (∀ alpha fl fu mean var,
     falpha irfft 0 alpha fl fu mean var w = (Raised ZeroDivisionError, w)).
Proof.
  split; [|split; [|split; [|split]]].
  - intros length x0 sigma beta rho step sample discard Hstep. unfold lorenz.
    destruct (flow_x0_returns x0 [lit 0.0; lit (-0.01); lit 9.0] w) as (y & w' & Hy & _).
    rewrite (bind_returned _ _ _ _ _ Hy).
    unfold lift, flow_grid, flow_stride, py_div. by rewrite Hstep.
  - intros length x0 a b c step sample discard Hstep. unfold roessler.
    eapply bind_raised. unfold lift, flow_grid, flow_stride, py_div. by rewrite Hstep.
  - intros length x0 a b c tau n sample discard Htau.
    unfold mackey_glass, mg_grid, mg_seed.
    do 3 eapply bind_raised. unfold lift, delay_stride, py_div. by rewrite Htau.
  - intros length x0 a b c tau n sample discard sub x w' Hseed Hden.
    unfold mackey_glass, mg_grid. eapply bind_raised.
    rewrite (bind_returned _ _ _ _ _ Hseed). cbv beta iota zeta.
    unfold lift, mg_A, py_div. by rewrite Hden.
  - intros. unfold falpha, falpha_signal. by do 2 eapply bind_raised.
Qed.

(** [step = 0], [tau = 0] and [length = 0] on the reals. *)
Lemma zero_divisors_raise_example :
  (lorenz euler_odeint 3 PNone 10%R 3%R 28%R 0%R 1%R 1 world0).1
  = Raised ZeroDivisionError ∧
  roessler euler_odeint 3 PNone 0.2%R 0.2%R 5.7%R 0%R 1%R 1 world0
  = (Raised ZeroDivisionError, world0) ∧
  mackey_glass 3 PNone 0.2%R 0.1%R 10%R 0%R 2 0.46%R 1 world0
  = (Raised ZeroDivisionError, world0) ∧
  falpha dft_irfft 0 1%R None None 0%R 1%R world0 = (Raised ZeroDivisionError, world0).
Proof.
  destruct (zero_divisors_raise euler_odeint dft_irfft world0)
    as (Hlorenz & Hroessler & Htau & _ & Hfalpha).
  split; [apply Hlorenz, fis_zero_R_true|].
  split; [apply Hroessler, fis_zero_R_true|].
  split; [apply Htau, fis_zero_R_true | apply Hfalpha].
Defined.

(** ** What the flows return *)

Section flow_samples.
Context `{Num F}.
Variable odeint :
  (list F → F → result (list F)) → pyval F → list F → result (list (list F)).

Lemma flow_tail_lookup (f : list F → F → result (list F)) (x0 : pyval F)
    (t : list F) (ys : list (list F)) (length discard stride : Z) :
  0 < length → 0 ≤ discard → 1 ≤ stride →
  Z.of_nat (List.length t) = stride * (length + discard) →
  odeint f x0 t = Returned ys → List.length ys = List.length t →
  ∃ ts xs,
    (let? ts := slice_from_step t (discard * stride) stride in
     let? xs := odeint f x0 t in
     let? xs := slice_from_step xs (discard * stride) stride in
     Returned (ts, xs)) = Returned (ts, xs) ∧
    Z.of_nat (List.length ts) = length ∧ Z.of_nat (List.length xs) = length ∧
    ∀ k : nat, Z.of_nat k < length →
      ts !! k = t !! Z.to_nat ((discard + Z.of_nat k) * stride) ∧
      xs !! k = ys !! Z.to_nat ((discard + Z.of_nat k) * stride).
Proof.
  intros HL HD Hs Hlen Hys Hyl.
  destruct (slice_from_step_exact t (discard * stride) stride length)
    as (ts & Hts & Htl & Htk); [lia | nia | lia | lia |].
  destruct (slice_from_step_exact ys (discard * stride) stride length)
    as (xs & Hxs & Hxl & Hxk); [lia | nia | lia | lia |].
  exists ts, xs. rewrite Hts. simpl. rewrite Hys. simpl. rewrite Hxs.
  split; [done|]. split; [lia|]. split; [lia|].
  intros k Hk. rewrite Htk, Hxk by lia.
  by replace (discard * stride + Z.of_nat k * stride)
    with ((discard + Z.of_nat k) * stride) by lia.
Qed.

Lemma flows_aligned (length discard : Z) (vs : list F) (step sample : F)
    (w : World F) :
  0 < length → 0 ≤ discard → vs ≠ [] →
  fis_zero step = false →
  let stride := ftrunc (sample / step)%fl in
  1 ≤ stride →
  ∃ t,
    flow_grid length step sample discard = Returned (stride, t) ∧
    Z.of_nat (List.length t) = stride * (length + discard) ∧
    (∀ sigma beta rho ys,
       odeint (_lorenz sigma beta rho) (PSeq vs) t = Returned ys →
       List.length ys = List.length t →
       ∃ ts xs,
         lorenz odeint length (PSeq vs) sigma beta rho step sample discard w
         = (Returned (ts, xs), w) ∧
         Z.of_nat (List.length ts) = length ∧ Z.of_nat (List.length xs) = length ∧
         ∀ k : nat, Z.of_nat k < length →
           ts !! k = t !! Z.to_nat ((discard + Z.of_nat k) * stride) ∧
           xs !! k = ys !! Z.to_nat ((discard + Z.of_nat k) * stride)) ∧
    (∀ a b c ys,
       odeint (_roessler a b c) (PSeq vs) t = Returned ys →
       List.length ys = List.length t →
       ∃ ts xs,
         roessler odeint length (PSeq vs) a b c step sample discard w
         = (Returned (ts, xs), w) ∧
         Z.of_nat (List.length ts) = length ∧ Z.of_nat (List.length xs) = length ∧
         ∀ k : nat, Z.of_nat k < length →
           ts !! k = t !! Z.to_nat ((discard + Z.of_nat k) * stride) ∧
           xs !! k = ys !! Z.to_nat ((discard + Z.of_nat k) * stride)).
Proof.
  intros HL HD Hvs Hstep stride Hs.
  destruct (flow_grid_runs length step sample discard Hstep) as (t & Hgrid & _ & Hlen);
    [fold stride; nia|]. fold stride in Hgrid, Hlen.
  assert (py_not (PSeq vs) = false) as Hnot by (by apply bool_decide_eq_false_2).
  exists t. do 2 (split; [done|]). split.
  - intros sigma beta rho ys Hys Hyl.
    destruct (flow_tail_lookup (_lorenz sigma beta rho) (PSeq vs) t ys length discard
                stride HL HD Hs Hlen Hys Hyl) as (ts & xs & Hrun & Hrest).
    exists ts, xs. split; [|done].
    unfold lorenz. rewrite Hnot. unfold bind, ret, lift. rewrite Hgrid. simpl rbind.
    by rewrite Hrun.
  - intros a b c ys Hys Hyl.
    destruct (flow_tail_lookup (_roessler a b c) (PSeq vs) t ys length discard
                stride HL HD Hs Hlen Hys Hyl) as (ts & xs & Hrun & Hrest).
    exists ts, xs. split; [|done].
    unfold roessler. rewrite Hnot. unfold bind, ret, lift. rewrite Hgrid.
    cbv beta iota. by rewrite Hrun.
Qed.
End flow_samples.

(** X9: for positive [length], non-negative [discard], an explicit initial
    state and a stride of at least 1, the times and the states that
    [lorenz] and [roessler] return are taken at the same points of the time
    grid given to the integrator: entry [k] of both is the grid point, and
    the integrator's state, with index [(discard + k) * stride].  The first
    [discard * stride] grid points are never returned. *)
Theorem flows_times_and_states_aligned `{Num F}
    (odeint : (list F → F → result (list F)) → pyval F → list F
              → result (list (list F)))
    (length discard : Z) (vs : list F) (step sample : F) (w : World F) :
  0 < length → 0 ≤ discard → vs ≠ [] →
  fis_zero step = false →
  let stride := ftrunc (sample / step)%fl in
  1 ≤ stride →
  ∃ t,
    flow_grid length step sample discard = Returned (stride, t) ∧
    Z.of_nat (List.length t) = stride * (length + discard) ∧
    (∀ sigma beta rho ys,
       odeint (_lorenz sigma beta rho) (PSeq vs) t = Returned ys →
       List.length ys = List.length t →
       ∃ ts xs,
         lorenz odeint length (PSeq vs) sigma beta rho step sample discard w
         = (Returned (ts, xs), w) ∧
         Z.of_nat (List.length ts) = length ∧ Z.of_nat (List.length xs) = length ∧
         ∀ k : nat, Z.of_nat k < length →
           ts !! k = t !! Z.to_nat ((discard + Z.of_nat k) * stride) ∧
           xs !! k = ys !! Z.to_nat ((discard + Z.of_nat k) * stride)) ∧
    (∀ a b c ys,
       odeint (_roessler a b c) (PSeq vs) t = Returned ys →
       List.length ys = List.length t →
       ∃ ts xs,
         roessler odeint length (PSeq vs) a b c step sample discard w
         = (Returned (ts, xs), w) ∧
         Z.of_nat (List.length ts) = length ∧ Z.of_nat (List.length xs) = length ∧
         ∀ k : nat, Z.of_nat k < length →
           ts !! k = t !! Z.to_nat ((discard + Z.of_nat k) * stride) ∧
           xs !! k = ys !! Z.to_nat ((discard + Z.of_nat k) * stride)).
Proof. apply flows_aligned. Qed.

(** [lorenz] with the Euler integrator, stride 2, two samples after one
    discarded sample. *)
Lemma flows_times_and_states_aligned_example :
  ∃ t ts xs,
    flow_grid 2 1%R 2%R 1 = Returned (2, t) ∧
    lorenz euler_odeint 2 (PSeq [0; 1; 0]%R) 10%R 3%R 28%R 1%R 2%R 1 world0
    = (Returned (ts, xs), world0) ∧
    ts !! 0%nat = t !! 2%nat ∧ ts !! 1%nat = t !! 4%nat.
Proof.
  destruct (flows_times_and_states_aligned euler_odeint 2 1 [0; 1; 0]%R 1%R 2%R world0)
    as (t & Hgrid & Hlen & Hlorenz & _);
    [lia | lia | done | apply fis_zero_R_false; lra
     | cbn [ftrunc fdiv Num_R]; rewrite Rtrunc_two; lia |].
  cbn [ftrunc fdiv Num_R] in Hgrid, Hlen, Hlorenz. rewrite Rtrunc_two in Hgrid, Hlen, Hlorenz.
  destruct (euler_integrates (_lorenz 10%R 3%R 28%R) (_lorenz_returned _ _ _)
              [0; 1; 0]%R t eq_refl) as (ys & Hys & Hyl).
  destruct (Hlorenz _ _ _ ys Hys Hyl) as (ts & xs & Hrun & _ & _ & Hk).
  exists t, ts, xs. do 2 (split; [done|]).
  split; [apply (Hk 0%nat); lia | apply (Hk 1%nat); lia].
Defined.

(** ** What mackey_glass returns *)

(** X11: on every valid call [mackey_glass] returns every [sub]-th value
    of the fine grid from index [n * discard] on: entry [k] is grid value
    [n * discard + k * sub].  With [discard = 0] and an explicit initial
    block the returned series therefore starts inside that block: as long
    as [k * sub < n], entry [k] is [x0[k * sub]] itself. *)
Theorem mackey_glass_samples `{Num F} (length : Z) (x0 : pyval F)
    (a b c tau : F) (n : Z) (sample : F) (discard sub : Z) (w : World F) :
  mg_valid length x0 b tau n sample discard sub →
  ∃ x xs w',
    mg_grid length x0 a b c tau n sample discard w = (Returned (sub, x), w') ∧
    mackey_glass length x0 a b c tau n sample discard w = (Returned xs, w') ∧
    (∀ k : nat, Z.of_nat k < length →
       xs !! k = x !! Z.to_nat (n * discard + Z.of_nat k * sub)) ∧
    (∀ vs, x0 = PSeq vs → discard = 0 →
       ∀ k : nat, Z.of_nat k * sub < n → xs !! k = vs !! Z.to_nat (Z.of_nat k * sub)).
Proof.
  intros Hv.
  destruct (mg_grid_runs length x0 a b c tau n sample discard sub w Hv)
    as (seeded & x & w' & _ & Hgrid & _ & _ & Hkeep & _ & Htake & _).
  destruct (mackey_glass_runs length x0 a b c tau n sample discard sub w Hv)
    as (x' & xs & w'' & Hgrid' & Hrun & Hlen & Hlook).
  rewrite Hgrid in Hgrid'. injection Hgrid' as <- <-.
  destruct Hv as (HL & HD & Hn & _ & _ & Hsub1 & _ & _ & HG).
  exists x, xs, w'. do 2 (split; [done|]). split.
  - intros k Hk. apply Hlook. lia.
  - intros vs Hvs -> k Hk. destruct (Htake vs Hvs) as [<- _].
    rewrite Hlook by nia. rewrite Z.mul_0_r, Z.add_0_l.
    rewrite Hkeep by lia. by rewrite lookup_take_lt by lia.
Qed.

(** [mackey_glass(length=2, x0=[0.5, 0.25], n=2, tau=1, sample=0.5,
    discard=0)]: stride 1, a grid of 2 values, and the call returns the
    initial block. *)
Lemma mackey_glass_samples_example :
  ∃ xs w',
    mackey_glass 2 (PSeq [1 / 2; 1 / 4]%R) 1%R 0%R 1%R 1%R 2 (1 / 2)%R 0 world0
    = (Returned xs, w') ∧
    xs !! 0%nat = Some (1 / 2)%R ∧ xs !! 1%nat = Some (1 / 4)%R.
Proof.
  assert (mg_valid 2 (PSeq [1 / 2; 1 / 4]%R) 0%R 1%R 2 (1 / 2)%R 0 1) as Hv.
  { pose proof delay_stride_example as [Htau Hs]%delay_stride_inv.
    unfold mg_valid. do 3 (split; [lia|]). do 2 (split; [done|]). split; [lia|].
    split; [|split; [done | lia]].
    apply fis_zero_R_false. cbn [of_Z fadd fmul Num_R]. change (2 * 2)%Z with 4%Z. lra. }
  destruct (mackey_glass_samples 2 (PSeq [1 / 2; 1 / 4]%R) 1%R 0%R 1%R 1%R 2 (1 / 2)%R 0 1
              world0 Hv) as (x & xs & w' & _ & Hrun & _ & Hblock).
  exists xs, w'. split; [done|].
  split; [apply (Hblock _ eq_refl eq_refl 0%nat) | apply (Hblock _ eq_refl eq_refl 1%nat)]; lia.
Defined.

(** ** The spectrum falpha inverts *)

Lemma falpha_signal_spectrum `{Num F}
    (irfft : list (F * F) → Z → result (list F))
    (length : Z) (alpha : F) (fl fu : option F) (w : World F) :
  falpha_signal irfft length alpha fl fu w
  = (y <- falpha_spectrum length alpha fl fu ;; lift (irfft y length)) w.
Proof.
  unfold falpha_signal, falpha_spectrum. cbv zeta.
  unfold bind. repeat case_match; simplify_eq; done.
Qed.

Section spectrum.
Local Open Scope R_scope.

Lemma Rpow_pos (x y : R) : 0 < x → 0 < Rpow x y.
Proof.
  intros Hx. unfold Rpow. destruct (Req_dec_T _ _); [by apply powerRZ_lt|].
  unfold Rpower. apply exp_pos.
Qed.

(** A bin in the passband keeps its power. *)
Lemma bin_kept (fl fu : option R) (p f : R) :
  in_passband fl fu f →
  match fu with
  | Some c' =>
      if fis_zero c' then
        match fl with
        | Some c => if fis_zero c then p else if fltb f c then 0 else p
        | None => p
        end
      else if fltb c' f then 0
      else match fl with
           | Some c => if fis_zero c then p else if fltb f c then 0 else p
           | None => p
           end
  | None =>
      match fl with
      | Some c => if fis_zero c then p else if fltb f c then 0 else p
      | None => p
      end
  end = p.
Proof.
  intros [Hl Hu].
  assert (match fl with
          | Some c => if fis_zero c then p else if fltb f c then 0 else p
          | None => p
          end = p) as Hfl.
  { destruct fl as [c|]; [|done].
    destruct (fis_zero c) eqn:Hz; [done|]. destruct (fltb f c) eqn:Hlt; [|done].
    exfalso. apply (Hl c eq_refl).
    - intros ->. cbn [fis_zero Num_R] in Hz. by destruct (Req_dec_T 0 0).
    - cbn [fltb Num_R] in Hlt. by destruct (Rlt_dec f c). }
  destruct fu as [c'|]; [|done].
  destruct (fis_zero c') eqn:Hz; [done|]. destruct (fltb c' f) eqn:Hlt; [|done].
  exfalso. apply (Hu c' eq_refl).
  - intros ->. cbn [fis_zero Num_R] in Hz. by destruct (Req_dec_T 0 0).
  - cbn [fltb Num_R] in Hlt. by destruct (Rlt_dec c' f).
Qed.

(** The amplitude of a bin of power [p] and phase [φ]. *)
Lemma amplitude_power (p φ : R) :
  0 <= p →
  (sqrt p * cos φ) * (sqrt p * cos φ) + (sqrt p * sin φ) * (sqrt p * sin φ) = p.
Proof.
  intros Hp. pose proof (sqrt_sqrt p Hp) as Hs. pose proof (sin2_cos2 φ) as Hc.
  unfold Rsqr in Hc.
  replace (sqrt p * cos φ * (sqrt p * cos φ) + sqrt p * sin φ * (sqrt p * sin φ))
    with (sqrt p * sqrt p * (sin φ * sin φ + cos φ * cos φ)) by ring.
  rewrite Hs, Hc. ring.
Qed.

(** X12: for a positive [length], [falpha] draws one phase per frequency bin
    and hands the inverse transform a spectrum of [length // 2 + 1] bins
    that follows the power law: the zero-frequency bin is empty; a bin
    [k >= 1] of frequency [f = k / length] that no cutoff masks has squared
    modulus [f ** -alpha], doubled in the Nyquist bin of an even [length],
    which is real and non-negative; a bin strictly below [fl] or strictly
    above [fu] is empty.  What [falpha] returns is that spectrum inverted
    and rescaled. *)
Theorem falpha_spectrum_power_law
    (irfft : list (R * R) → Z → result (list R))
    (length : Z) (alpha : R) (fl fu : option R) (mean var : R) (w : World R) :
  (0 < length)%Z →
  ∃ y,
    falpha_spectrum length alpha fl fu w
      = (Returned y, advance w (Z.to_nat (length `div` 2 + 1))) ∧
    falpha irfft length alpha fl fu mean var w
      = map_result (rescale mean var)
          (irfft y length, advance w (Z.to_nat (length `div` 2 + 1))) ∧
    List.length y = Z.to_nat (length `div` 2 + 1) ∧
    y !! 0%nat = Some (0, 0) ∧
    ∀ k : Z, (1 ≤ k ≤ length `div` 2)%Z →
      let f := IZR k * (1 / IZR length) in
      ∃ re im, y !! Z.to_nat k = Some (re, im) ∧
        (in_passband fl fu f →
           re * re + im * im
           = (if bool_decide (2 * k = length)%Z then 2 else 1) * Rpow f (- alpha)) ∧
        ((∃ c, fl = Some c ∧ c ≠ 0 ∧ f < c) ∨ (∃ c, fu = Some c ∧ c ≠ 0 ∧ c < f) →
           re = 0 ∧ im = 0) ∧
        ((2 * k = length)%Z → im = 0 ∧ 0 <= re).
Proof.
  intros HL.
  pose proof (Z.div_pos length 2 ltac:(lia) ltac:(lia)) as Hdiv.
  assert (∃ y,
    falpha_spectrum length alpha fl fu w
      = (Returned y, advance w (Z.to_nat (length `div` 2 + 1))) ∧
    List.length y = Z.to_nat (length `div` 2 + 1) ∧
    y !! 0%nat = Some (0, 0) ∧
    ∀ k : Z, (1 ≤ k ≤ length `div` 2)%Z →
      let f := IZR k * (1 / IZR length) in
      ∃ re im, y !! Z.to_nat k = Some (re, im) ∧
        (in_passband fl fu f →
           re * re + im * im
           = (if bool_decide (2 * k = length)%Z then 2 else 1) * Rpow f (- alpha)) ∧
        ((∃ c, fl = Some c ∧ c ≠ 0 ∧ f < c) ∨ (∃ c, fu = Some c ∧ c ≠ 0 ∧ c < f) →
           re = 0 ∧ im = 0) ∧
        ((2 * k = length)%Z → im = 0 ∧ 0 <= re)) as (y & Hspec & Hlen & H0 & Hbins).
  2:{ exists y. split; [done|]. split; [|done].
      unfold falpha. unfold bind at 1. rewrite falpha_signal_spectrum.
      unfold bind at 1. rewrite Hspec. unfold lift, map_result, ret.
      by destruct (irfft y length). }
  unfold falpha_spectrum.
  destruct (np_rfftfreq_returned (F := R) length HL) as (freqs & Hfreqs & Hflen).
  rewrite Hfreqs. unfold bind at 1, lift at 1. cbv zeta.
  set (power := 0%fl :: _).
  assert (List.length power = List.length freqs) as Hp.
  { unfold power. simpl. rewrite length_fmap, slice_from_nonneg by lia.
    rewrite length_drop. lia. }
  destruct (cutoff_lookup (λ f c, fltb f c) fl power freqs Hp) as (p1 & -> & Hp1 & Hl1).
  unfold bind at 1, lift at 1.
  destruct (cutoff_lookup (λ f c, fltb c f) fu p1 freqs Hp1) as (p2 & -> & Hp2 & Hl2).
  unfold bind at 1, lift at 1.
  erewrite bind_returned; [|apply np_random_returned; lia].
  set (w' := mkWorld _ _ _). set (phase := _ <$> (_ <$> _)).
  assert (List.length phase = List.length freqs) as Hph.
  { unfold phase. rewrite !length_fmap, length_seq. lia. }
  unfold broadcast2. rewrite bool_decide_eq_true_2 by lia.
  unfold bind at 1, lift at 1.
  set (y0 := zip_with _ p2 phase).
  assert (List.length y0 = List.length freqs) as Hy0.
  { unfold y0. rewrite length_zip_with. lia. }
  assert (w' = advance w (Z.to_nat (length `div` 2 + 1))) as ->.
  { unfold w', advance. by rewrite Hflen. }
  unfold np_rfftfreq in Hfreqs. rewrite bool_decide_eq_false_2 in Hfreqs by lia.
  injection Hfreqs as Hfreqs.
  assert (∀ k : nat, (k < List.length freqs)%nat →
            freqs !! k = Some (IZR (Z.of_nat k) * (1 / IZR length))) as Hfk.
  { intros k Hk. rewrite <- Hfreqs. rewrite <- Hfreqs, length_fmap, length_seqZ in Hk.
    rewrite list_lookup_fmap, lookup_seqZ_lt by lia. by rewrite Z.add_0_l. }
  assert (y0 !! 0%nat = Some (0, 0)) as Hy00.
  { destruct (lookup_lt_is_Some_2 phase 0) as [φ Hφ]; [lia|].
    pose proof (Hl1 0%nat 0 _ eq_refl (Hfk 0%nat ltac:(lia))) as H1.
    pose proof (Hl2 0%nat _ _ H1 (Hfk 0%nat ltac:(lia))) as H2.
    assert (p2 !! 0%nat = Some 0) as H3.
    { rewrite H2. f_equal. apply bin_zero_stays. }
    unfold y0. rewrite lookup_zip_with, H3, Hφ. simpl.
    rewrite sqrt_0. do 2 f_equal; lra. }
  assert (∀ k : Z, (1 ≤ k ≤ length `div` 2)%Z →
            let f := IZR k * (1 / IZR length) in
            ∃ q φ, y0 !! Z.to_nat k = Some (sqrt q * cos φ, sqrt q * sin φ) ∧
                   0 <= q ∧
                   (in_passband fl fu f → q = Rpow f (- alpha)) ∧
                   ((∃ c, fl = Some c ∧ c ≠ 0 ∧ f < c) ∨
                    (∃ c, fu = Some c ∧ c ≠ 0 ∧ c < f) → q = 0)) as Hy0k.
  { intros k Hk f.
    destruct (lookup_lt_is_Some_2 phase (Z.to_nat k)) as [φ Hφ]; [lia|].
    assert (freqs !! Z.to_nat k = Some f) as Hf.
    { rewrite Hfk by lia. by rewrite Z2Nat.id by lia. }
    assert (0 < f) as Hfpos.
    { unfold f. apply Rmult_lt_0_compat; [apply IZR_lt; lia|].
      apply Rdiv_lt_0_compat; [lra | apply IZR_lt; lia]. }
    assert (power !! Z.to_nat k = Some (Rpow f (- alpha))) as Hpk.
    { unfold power. rewrite lookup_cons_ne_0 by lia.
      rewrite list_lookup_fmap, slice_from_nonneg by lia. rewrite lookup_drop.
      replace (Z.to_nat 1 + Nat.pred (Z.to_nat k))%nat with (Z.to_nat k) by lia.
      by rewrite Hf. }
    pose proof (Hl1 _ _ _ Hpk Hf) as H1. pose proof (Hl2 _ _ _ H1 Hf) as H2.
    eexists _, φ. split; [|split; [|split]].
    - unfold y0. rewrite lookup_zip_with, H2, Hφ. done.
    - pose proof (Rpow_pos f (- alpha) Hfpos). repeat case_match; lra.
    - apply bin_kept.
    - apply bin_zeroed. }
  clearbody y0. unfold lift. case_bool_decide as Hpar.
  - assert (2 * (length `div` 2) = length)%Z as Heven.
    { pose proof (Z.div_mod length 2). lia. }
    destruct (Hy0k (length `div` 2) ltac:(lia)) as (q & φ & Hlast & Hq & Hkeep & Hzero).
    cbv zeta in Hkeep, Hzero.
    replace (Z.to_nat (length `div` 2)) with (List.length y0 - 1)%nat in Hlast by lia.
    rewrite (getitem_minus_one y0 _ Hlast). simpl.
    unfold setitem. rewrite norm_index_neg by lia.
    replace (Z.to_nat (-1 + Z.of_nat (List.length y0))) with (List.length y0 - 1)%nat by lia.
    set (X := sqrt q * cos φ * sqrt 2 * (sqrt q * cos φ * sqrt 2) +
              sqrt q * sin φ * sqrt 2 * (sqrt q * sin φ * sqrt 2)).
    assert (X = 2 * q) as HX.
    { pose proof (amplitude_power q φ Hq) as Ha.
      pose proof (sqrt_sqrt 2 ltac:(lra)) as H2. unfold X.
      replace (sqrt q * cos φ * sqrt 2 * (sqrt q * cos φ * sqrt 2) +
               sqrt q * sin φ * sqrt 2 * (sqrt q * sin φ * sqrt 2))
        with (sqrt 2 * sqrt 2 *
              (sqrt q * cos φ * (sqrt q * cos φ) + sqrt q * sin φ * (sqrt q * sin φ)))
        by ring.
      by rewrite H2, Ha. }
    eexists. split; [reflexivity|]. split; [rewrite length_insert; lia|].
    split; [rewrite list_lookup_insert_ne by lia; done|].
    intros k Hk. destruct (decide (k = length `div` 2)) as [->|Hne].
    + replace (Z.to_nat (length `div` 2)) with (List.length y0 - 1)%nat by lia.
      rewrite list_lookup_insert_eq by lia. eexists _, _. split; [done|].
      rewrite bool_decide_eq_true_2 by done. split; [|split].
      * intros Hin. rewrite sqrt_sqrt by lra. rewrite HX, (Hkeep Hin). lra.
      * intros Hm. rewrite HX, (Hzero Hm), Rmult_0_r, sqrt_0. done.
      * intros _. split; [done | apply sqrt_pos].
    + rewrite list_lookup_insert_ne by lia.
      destruct (Hy0k k Hk) as (q' & φ' & Hyk & Hq' & Hkeep' & Hzero').
      eexists _, _. split; [done|]. rewrite bool_decide_eq_false_2 by lia.
      split; [|split].
      * intros Hin. rewrite amplitude_power by done. rewrite (Hkeep' Hin). lra.
      * intros Hm. rewrite (Hzero' Hm), sqrt_0. lra.
      * lia.
  - eexists. split; [reflexivity|]. split; [lia|]. split; [done|].
    intros k Hk. cbv zeta.
    destruct (Hy0k k Hk) as (q' & φ' & Hyk & Hq' & Hkeep' & Hzero').
    eexists _, _. split; [done|].
    rewrite bool_decide_eq_false_2 by (intros <-; apply Hpar; by rewrite Z.mul_comm, Z_mod_mult).
    split; [|split].
    + intros Hin. rewrite amplitude_power by done. rewrite (Hkeep' Hin). lra.
    + intros Hm. rewrite (Hzero' Hm), sqrt_0. lra.
    + intros <-. exfalso. apply Hpar. by rewrite Z.mul_comm, Z_mod_mult.
Qed.
(** [falpha(length=2, alpha=1)]: two bins, the zero-frequency bin empty and
    the Nyquist bin (frequency 1/2) real with squared amplitude
    [2 * (1/2) ** -1 = 4]. *)
Lemma falpha_spectrum_power_law_example :
  ∃ y re,
    falpha_spectrum 2 1 None None world0 = (Returned y, advance world0 2) ∧
    y !! 0%nat = Some (0, 0) ∧ y !! 1%nat = Some (re, 0) ∧ re * re = 4.
Proof.
  destruct (falpha_spectrum_power_law dft_irfft 2 1 None None 0 1 world0 ltac:(lia))
    as (y & Hspec & _ & _ & H0 & Hbins).
  destruct (Hbins 1%Z ltac:(change (2 `div` 2)%Z with 1%Z; lia))
    as (re & im & Hy & Hpow & _ & Hnyq).
  destruct (Hnyq eq_refl) as [-> _].
  exists y, re. split; [exact Hspec|]. split; [exact H0|]. split; [exact Hy|].
  assert (in_passband None None (1 * (1 / 2))) as Hin by (split; intros c [=]).
  specialize (Hpow Hin). rewrite bool_decide_eq_true_2 in Hpow by done.
  replace (- (1)) with (IZR (-1)) in Hpow by lra. rewrite Rpow_IZR in Hpow.
  change (powerRZ (1 * (1 / 2)) (-1)) with (/ (1 * (1 / 2) * 1)) in Hpow.
  replace (/ (1 * (1 / 2) * 1)) with 2 in Hpow by field. lra.
Defined.
End spectrum.

(** ** The normalisation of the inverse transform *)

Section normalisation.
Local Open Scope R_scope.

Lemma np_std_affine (c b : R) (x : list R) :
  0 <= c → x ≠ [] → np_std ((λ v, c * v + b) <$> x) = c * np_std x.
Proof.
  intros Hc Hx. unfold np_std. cbn [fsqrt Num_R].
  rewrite (np_var_affine c b) by done.
  rewrite sqrt_mult by (try apply np_var_nonneg; nra).
  by rewrite sqrt_square.
Qed.

(** Lines 92-93 forget the scale and the offset of the sequence. *)
Lemma rescale_affine (mean var c b : R) (x : list R) :
  0 < c → np_std x ≠ 0 →
  rescale mean var ((λ v, c * v + b) <$> x) = rescale mean var x.
Proof.
  intros Hc Hs.
  assert (x ≠ []) as Hx.
  { intros ->. apply Hs. unfold np_std, np_var, np_mean, np_sum. simpl.
    rewrite Rdiv_0_r. apply sqrt_0. }
  unfold rescale. cbv zeta. rewrite np_std_affine by (done || lra).
  set (s := np_std x) in *. cbn [fadd fsub fmul fdiv fsqrt Num_R].
  set (d := sqrt var * b / (c * s)).
  rewrite <- (list_fmap_compose (λ v, c * v + b)).
  assert ((λ v, sqrt var * v / (c * s)) ∘ (λ v, c * v + b) <$> x
          = (λ u, 1 * u + d) <$> ((λ v, sqrt var * v / s) <$> x)) as ->.
  { rewrite <- list_fmap_compose. apply list_fmap_ext. intros _ v _.
    unfold compose, d. field. split; lra. }
  set (L := (λ v, sqrt var * v / s) <$> x).
  assert (L ≠ []) as HL by (unfold L; by destruct x).
  rewrite (np_mean_affine 1 d (λ u, 1 * u + d)) by done.
  rewrite <- list_fmap_compose. apply list_fmap_ext. intros _ u _.
  unfold compose. lra.
Qed.

(** X13: what [falpha] returns does not depend on the normalisation of the
    inverse transform: if the sequence the transform gives has a nonzero
    standard deviation, a transform whose samples are scaled by [c > 0] and
    shifted by [b] leads to the same result. *)
Theorem falpha_forgets_normalisation
    (irfft : list (R * R) → Z → result (list R)) (c b : R)
    (length : Z) (alpha : R) (fl fu : option R) (mean var : R) (w : World R)
    (x : list R) (w' : World R) :
  0 < c →
  falpha_signal irfft length alpha fl fu w = (Returned x, w') →
  np_std x ≠ 0 →
  falpha (renormalised c b irfft) length alpha fl fu mean var w
  = falpha irfft length alpha fl fu mean var w.
Proof.
  intros Hc Hsig Hs. unfold falpha, bind.
  rewrite Hsig. rewrite falpha_signal_spectrum in Hsig |- *.
  unfold bind in Hsig |- *.
  destruct (falpha_spectrum length alpha fl fu w) as [[e|y] w1]; [done|].
  unfold lift, renormalised in Hsig |- *. injection Hsig as Hy <-.
  rewrite Hy. cbn [rbind]. unfold ret. by rewrite rescale_affine.
Qed.

(** Pink noise of two samples: the reference transform doubled and shifted
    by one gives the same noise. *)
Lemma falpha_forgets_normalisation_example :
  falpha (renormalised 2 1 dft_irfft) 2 1 None None 3 4 world0
  = falpha dft_irfft 2 1 None None 3 4 world0.
Proof.
  apply (falpha_forgets_normalisation dft_irfft 2 1 2 1 None None 3 4 world0 [1; -1]
           (mkWorld (tape world0) 2 (stale world0))).
  - lra.
  - apply falpha_signal_example.
  - rewrite np_std_example. lra.
Defined.
End normalisation.

(** ** The random initial conditions *)

Section random_start.
Context `{Num F}.
Variable odeint :
  (list F → F → result (list F)) → pyval F → list F → result (list (list F)).

Lemma bind_result {A B} (m1 m2 : M F A) (k1 k2 : A → M F B) (w1 w2 : World F) :
  (m1 w1).1 = (m2 w2).1 → (∀ v w w', (k1 v w).1 = (k2 v w').1) →
  (bind m1 k1 w1).1 = (bind m2 k2 w2).1.
Proof.
  intros Hm Hk. unfold bind.
  destruct (m1 w1) as [[e|v] w1'], (m2 w2) as [[e'|v'] w2'];
    simpl in Hm; simplify_eq; [done | apply Hk].
Qed.

Lemma np_random_drawn (k : Z) (w : World F) :
  0 ≤ k → np_random k w = (Returned (drawn w (Z.to_nat k)), advance w (Z.to_nat k)).
Proof. intros Hk. unfold np_random. by rewrite bool_decide_eq_false_2 by lia. Qed.

Ltac draw_row :=
  unfold bind at 1 5; unfold np_empty2; case_bool_decide; [done|];
  apply bind_result;
  [ change (py_not (@PNone F)) with true; cbv iota;
    unfold bind at 1; rewrite np_random_drawn by lia;
    unfold py_not; rewrite bool_decide_eq_false_2 by done; done
  | intros x' w3 w4; unfold bind, lift, ret; by case_match ].

Lemma henon_absent_x0 (length : Z) (a b : F) (discard : Z) (w : World F) :
  (henon length PNone a b discard w).1
  = (henon length
       (PSeq (zip_with fadd [lit 0.0; lit 0.9] (jitter (lit 0.01) (drawn w 2))))
       a b discard w).1.
Proof. unfold henon. draw_row. Qed.

Lemma ikeda_absent_x0 (length : Z) (alpha beta gamma mu : F) (discard : Z)
    (w : World F) :
  (ikeda length PNone alpha beta gamma mu discard w).1
  = (ikeda length (PSeq (jitter (lit 0.1) (drawn w 2)))
       alpha beta gamma mu discard w).1.
Proof. unfold ikeda. draw_row. Qed.

Lemma lorenz_absent_x0 (length : Z) (sigma beta rho step sample : F) (discard : Z)
    (w : World F) :
  (lorenz odeint length PNone sigma beta rho step sample discard w).1
  = (lorenz odeint length
       (PSeq (zip_with fadd [lit 0.0; lit (-0.01); lit 9.0]
                (jitter (lit 0.25) (drawn w 3))))
       sigma beta rho step sample discard w).1.
Proof.
  unfold lorenz. apply bind_result; [|done].
  change (py_not (@PNone F)) with true. cbv iota.
  unfold bind at 1. rewrite np_random_drawn by lia.
  unfold py_not. rewrite bool_decide_eq_false_2 by done. done.
Qed.

Lemma roessler_absent_x0 (length : Z) (a b c step sample : F) (discard : Z)
    (w : World F) :
  (roessler odeint length PNone a b c step sample discard w).1
  = (roessler odeint length
       (PSeq (zip_with fadd [lit (-9.0); lit 0.0; lit 0.0]
                (jitter (lit 0.25) (drawn w 3))))
       a b c step sample discard w).1.
Proof.
  unfold roessler. unfold bind at 1 4, lift at 1 3.
  destruct (flow_grid length step sample discard) as [e|[sub t]]; [done|].
  apply bind_result; [|done].
  change (py_not (@PNone F)) with true. cbv iota.
  unfold bind at 1. rewrite np_random_drawn by lia.
  unfold py_not. rewrite bool_decide_eq_false_2 by done. done.
Qed.
Lemma mackey_glass_absent_x0 (length : Z) (a b c tau : F) (n : Z) (sample : F)
    (discard : Z) (w : World F) :
  1 ≤ n →
  (mackey_glass length PNone a b c tau n sample discard w).1
  = (mackey_glass length
       (PSeq (fadd (lit 0.5) <$> jitter (lit 0.05) (drawn w (Z.to_nat n))))
       a b c tau n sample discard w).1.
Proof.
  intros Hn. unfold mackey_glass.
  apply bind_result; [|by intros [s x] w1 w2].
  unfold mg_grid. apply bind_result; [|by intros [s x] w1 w2].
  unfold mg_seed. unfold bind at 1 5, lift at 1 4.
  destruct (delay_stride n sample tau) as [e|sub]; [done|].
  unfold bind at 1 4, np_empty. case_bool_decide; [done|].
  apply bind_result; [|done].
  change (py_not (@PNone F)) with true. cbv iota.
  unfold bind at 1. rewrite np_random_drawn by lia.
  unfold py_not. rewrite bool_decide_eq_false_2; [done|].
  intros Hnil. apply (f_equal List.length) in Hnil.
  unfold jitter, drawn in Hnil. rewrite !length_fmap, length_seq in Hnil.
  simpl in Hnil. lia.
Qed.
End random_start.

Section random_start_R.
Local Open Scope R_scope.

Lemma jitter_at_bound (s e : R) :
  0 <= s → 0 <= e < 1 → - s <= jitter_at s e <= s.
Proof.
  intros Hs He. unfold jitter_at. cbn [fadd fmul of_Z Num_R]. nra.
Qed.

Ltac near Hj s i :=
  unfold lit; cbn [Qnum Qden fadd fdiv of_Z Num_R]; apply Rabs_le;
  pose proof (Hj s i ltac:(lra)); lra.

(** X14: a call without [x0] is the call with an explicit [x0] read off the
    random stream, and with variates in [0, 1) that [x0] lies within the
    stated radius of the nominal point: (0, 0.9) +- 0.01 for [henon],
    (0, 0) +- 0.1 for [ikeda], (0, -0.01, 9) +- 0.25 for [lorenz],
    (-9, 0, 0) +- 0.25 for [roessler], and [n] values 0.5 +- 0.05 for
    [mackey_glass]. *)
Theorem absent_x0_is_drawn_near_nominal
    (odeint : (list R → R → result (list R)) → pyval R → list R
              → result (list (list R)))
    (w : World R) :
  (∀ i, 0 <= tape w i < 1) →
  (∃ u v, Rabs u <= 0.01 ∧ Rabs (v - 0.9) <= 0.01 ∧
     ∀ length a b discard,
       (henon length PNone a b discard w).1
       = (henon length (PSeq [u; v]) a b discard w).1) ∧
  (∃ u v, Rabs u <= 0.1 ∧ Rabs v <= 0.1 ∧
     ∀ length alpha beta gamma mu discard,
       (ikeda length PNone alpha beta gamma mu discard w).1
       = (ikeda length (PSeq [u; v]) alpha beta gamma mu discard w).1) ∧
  (∃ x y z, Rabs x <= 0.25 ∧ Rabs (y + 0.01) <= 0.25 ∧ Rabs (z - 9) <= 0.25 ∧
     ∀ length sigma beta rho step sample discard,
       (lorenz odeint length PNone sigma beta rho step sample discard w).1
       = (lorenz odeint length (PSeq [x; y; z]) sigma beta rho step sample discard w).1) ∧
  (∃ x y z, Rabs (x + 9) <= 0.25 ∧ Rabs y <= 0.25 ∧ Rabs z <= 0.25 ∧
     ∀ length a b c step sample discard,
       (roessler odeint length PNone a b c step sample discard w).1
       = (roessler odeint length (PSeq [x; y; z]) a b c step sample discard w).1) ∧
  (∀ n : Z, (1 ≤ n)%Z →
     ∃ vs, List.length vs = Z.to_nat n ∧
           Forall (λ v, Rabs (v - 0.5) <= 0.05) vs ∧
           ∀ length a b c tau sample discard,
             (mackey_glass length PNone a b c tau n sample discard w).1
             = (mackey_glass length (PSeq vs) a b c tau n sample discard w).1).
Proof.
  intros Hw.
  assert (∀ (s : R) (i : nat), 0 <= s → - s <= jitter_at s (tape w i) <= s) as Hj.
  { intros s i Hs. by apply jitter_at_bound. }
  split; [|split; [|split; [|split]]].
  - exists (fadd (lit 0.0) (jitter_at (lit 0.01) (tape w (cursor w + 0)%nat))),
           (fadd (lit 0.9) (jitter_at (lit 0.01) (tape w (cursor w + 1)%nat))).
    split; [|split; [|intros; apply henon_absent_x0]].
    + near Hj (1 / 100) (cursor w + 0)%nat.
    + near Hj (1 / 100) (cursor w + 1)%nat.
  - exists (jitter_at (lit 0.1) (tape w (cursor w + 0)%nat)),
           (jitter_at (lit 0.1) (tape w (cursor w + 1)%nat)).
    split; [|split; [|intros; apply ikeda_absent_x0]].
    + near Hj (1 / 10) (cursor w + 0)%nat.
    + near Hj (1 / 10) (cursor w + 1)%nat.
  - exists (fadd (lit 0.0) (jitter_at (lit 0.25) (tape w (cursor w + 0)%nat))),
           (fadd (lit (-0.01)) (jitter_at (lit 0.25) (tape w (cursor w + 1)%nat))),
           (fadd (lit 9.0) (jitter_at (lit 0.25) (tape w (cursor w + 2)%nat))).
    split; [|split; [|split; [|intros; apply lorenz_absent_x0]]].
    + near Hj (25 / 100) (cursor w + 0)%nat.
    + near Hj (25 / 100) (cursor w + 1)%nat.
    + near Hj (25 / 100) (cursor w + 2)%nat.
  - exists (fadd (lit (-9.0)) (jitter_at (lit 0.25) (tape w (cursor w + 0)%nat))),
           (fadd (lit 0.0) (jitter_at (lit 0.25) (tape w (cursor w + 1)%nat))),
           (fadd (lit 0.0) (jitter_at (lit 0.25) (tape w (cursor w + 2)%nat))).
    split; [|split; [|split; [|intros; apply roessler_absent_x0]]].
    + near Hj (25 / 100) (cursor w + 0)%nat.
    + near Hj (25 / 100) (cursor w + 1)%nat.
    + near Hj (25 / 100) (cursor w + 2)%nat.
  - intros n Hn.
    exists (fadd (lit 0.5) <$> jitter (lit 0.05) (drawn w (Z.to_nat n))).
    split; [unfold jitter, drawn; by rewrite !length_fmap, length_seq|].
    split; [|intros; by apply mackey_glass_absent_x0].
    unfold jitter, drawn. rewrite <- !list_fmap_compose.
    apply Forall_fmap, Forall_forall. intros j _. unfold compose.
    near Hj (5 / 100) (cursor w + j)%nat.
Qed.

(** On [world0] every variate is 1/2, so the perturbation vanishes: a call
    of [henon] without [x0] starts at the nominal point. *)
Lemma absent_x0_is_drawn_near_nominal_example :
  ∃ u v, Rabs u <= 0.01 ∧ Rabs (v - 0.9) <= 0.01 ∧
    (henon 3 PNone 1.4 0.3 0 world0).1 = (henon 3 (PSeq [u; v]) 1.4 0.3 0 world0).1.
Proof.
  destruct (absent_x0_is_drawn_near_nominal euler_odeint world0) as [(u & v & Hu & Hv & Hrun) _].
  { intros i. cbn [tape world0]. lra. }
  exists u, v. split; [exact Hu|]. split; [exact Hv|]. apply Hrun.
Defined.
End random_start_R.

(** ** The sign of the Mackey-Glass series *)

Section delay_sign.
Local Open Scope R_scope.

Lemma Rpow_nonneg (u c : R) : 0 <= u → 0 <= Rpow u c.
Proof.
  intros Hu. unfold Rpow. destruct (Req_dec_T _ _) as [_|_].
  - destruct (Int_part c) as [|p|p]; simpl; [lra | by apply pow_le |].
    destruct (Req_dec (u ^ Pos.to_nat p) 0) as [->|Hne]; [rewrite Rinv_0; lra|].
    apply Rlt_le, Rinv_0_lt_compat. pose proof (pow_le u (Pos.to_nat p) Hu). lra.
  - unfold Rpower. apply Rlt_le, exp_pos.
Qed.

Lemma mg_f_nonneg (c u : R) : 0 <= u → 0 <= mg_f c u.
Proof.
  intros Hu. unfold mg_f. cbn [fadd fdiv fpow of_Z Num_R].
  pose proof (Rpow_nonneg u c Hu). apply Rmult_le_pos; [done|].
  apply Rlt_le, Rinv_0_lt_compat. lra.
Qed.

(** X15: the discrete delay map keeps the sign of its initial block: with
    [0 <= a*tau] and [0 <= b*tau <= 2n] (so that both coefficients are
    non-negative), non-negative initial values, and a non-negative value
    in the last slot of the fresh buffer (which the first step reads),
    every value [mackey_glass] returns is non-negative. *)
Theorem mackey_glass_nonnegative (length : Z) (vs : list R) (a b c tau : R)
    (n : Z) (sample : R) (discard sub : Z) (w : World R) :
  mg_valid length (PSeq vs) b tau n sample discard sub →
  0 <= a * tau → 0 <= b * tau <= IZR (2 * n) →
  Forall (λ v, 0 <= v) vs →
  0 <= stale w (Z.to_nat (n * discard + sub * length - 1)) →
  ∃ xs, mackey_glass length (PSeq vs) a b c tau n sample discard w = (Returned xs, w) ∧
        List.length xs = Z.to_nat length ∧
        Forall (λ v, 0 <= v) xs.
Proof.
  intros Hv Ha Hb Hvs Hst.
  destruct (mg_grid_runs length (PSeq vs) a b c tau n sample discard sub w Hv)
    as (seeded & x & w' & _ & Hgrid & Hslen & Hxlen & Hkeep & Hstale & Htake & Hrec).
  destruct (mackey_glass_runs length (PSeq vs) a b c tau n sample discard sub w Hv)
    as (x' & xs & w'' & Hgrid' & Hrun & Hlen & Hlook).
  rewrite Hgrid in Hgrid'. injection Hgrid' as <- <-.
  destruct (Htake vs eq_refl) as [Htk ->].
  destruct Hv as (HL & HD & Hn & _ & _ & Hsub1 & Hden & Hx0 & HG).
  set (G := (n * discard + sub * length)%Z) in *.
  cbn [fadd fsub fmul fdiv of_Z Num_R] in Hrec.
  set (A := (IZR (2 * n) - b * tau) / (IZR (2 * n) + b * tau)) in *.
  set (B := a * tau / (IZR (2 * n) + b * tau)) in *.
  assert (0 < IZR (2 * n)) as H2n by (apply IZR_lt; lia).
  assert (0 <= A) as HA.
  { unfold A. apply Rmult_le_pos; [lra|]. apply Rlt_le, Rinv_0_lt_compat. lra. }
  assert (0 <= B) as HB.
  { unfold B. apply Rmult_le_pos; [lra|]. apply Rlt_le, Rinv_0_lt_compat. lra. }
  assert (∀ (j : nat) v, x !! j = Some v → 0 <= v) as Hpos.
  { intros j. induction (lt_wf j) as [j _ IH]. intros v Hj.
    pose proof (lookup_lt_Some _ _ _ Hj) as Hjlt.
    destruct (decide (Z.of_nat j < n)%Z) as [Hlow|Hhigh].
    - rewrite Hkeep in Hj by lia. rewrite <- Htk in Hvs.
      rewrite Forall_lookup in Hvs. apply (Hvs j).
      by rewrite lookup_take_lt by lia.
    - destruct (Hrec (Z.of_nat j - 1)%Z) as (xi & xd & xd1 & Hxi & Hxd & Hxd1 & Hnext); [lia|].
      replace (Z.to_nat (Z.of_nat j - 1 + 1)) with j in Hnext by lia.
      rewrite Hnext in Hj. injection Hj as <-.
      assert (0 <= xi) as Hi
        by (apply (IH (Z.to_nat (Z.of_nat j - 1))); [lia | done]).
      assert (0 <= xd1) as Hd1
        by (apply (IH (Z.to_nat (Z.of_nat j - 1 - n + 1))); [lia | done]).
      assert (0 <= xd) as Hd.
      { case_bool_decide as Hfirst.
        - replace (Z.of_nat j - 1 - n)%Z with (-1)%Z in Hxd by lia.
          assert (seeded !! (List.length seeded - 1)%nat
                  = Some (stale w (Z.to_nat (G - 1)))) as Hlast.
          { replace (List.length seeded - 1)%nat with (Z.to_nat (G - 1)) by lia.
            apply Hstale. lia. }
          rewrite (getitem_minus_one _ _ Hlast) in Hxd. by injection Hxd as <-.
        - apply getitem_returned_lookup in Hxd; [|lia].
          apply (IH (Z.to_nat (Z.of_nat j - 1 - n))); [lia | done]. }
      pose proof (mg_f_nonneg c xd Hd). pose proof (mg_f_nonneg c xd1 Hd1).
      apply Rplus_le_le_0_compat; [by apply Rmult_le_pos|].
      apply Rmult_le_pos; [done|]. by apply Rplus_le_le_0_compat. }
  exists xs. split; [done|]. split; [done|].
  apply Forall_lookup. intros k v Hk. pose proof (lookup_lt_Some _ _ _ Hk).
  apply (Hpos (Z.to_nat (n * discard + Z.of_nat k * sub))).
  rewrite <- Hlook by lia. done.
Qed.

(** [mackey_glass(length=2, x0=[0.5], a=1, b=0, c=1, tau=1, n=1, sample=1,
    discard=1)] on a world whose fresh buffers hold 7. *)
Lemma mackey_glass_nonnegative_example :
  ∃ xs, mackey_glass 2 (PSeq [1 / 2]) 1 0 1 1 1 1 1 world0 = (Returned xs, world0) ∧
        List.length xs = 2%nat ∧ Forall (λ v, 0 <= v) xs.
Proof.
  apply (mackey_glass_nonnegative 2 [1 / 2] 1 0 1 1 1 1 1 1 world0 mg_valid_example).
  - lra.
  - change (2 * 1)%Z with 2%Z. lra.
  - apply Forall_cons. split; [lra | apply Forall_nil_2].
  - cbn [stale world0]. lra.
Defined.
End delay_sign.

(** ** falpha with a negative length *)

Section negative_length.
Context `{Num F}.
Variable irfft : list (F * F) → Z → result (list F).

(** Without frequency bins the power array is the single zero of line 71,
    the cutoff masks are empty and select nothing, and the phases are an
    empty array: the spectrum is empty, and an even [length] fails at
    [y[-1]]. *)
Lemma falpha_spectrum_negative (length : Z) (alpha : F) (fl fu : option F)
    (w : World F) :
  length < 0 →
  falpha_spectrum length alpha fl fu w
  = (if bool_decide (length `mod` 2 = 0) then Raised IndexError else Returned [], w).
Proof.
  intros HL. unfold falpha_spectrum, np_rfftfreq.
  rewrite bool_decide_eq_false_2 by lia.
  assert (length `div` 2 + 1 ≤ 0) as Hbins.
  { pose proof (Z.div_lt_upper_bound length 2 0). lia. }
  replace (seqZ 0 (length `div` 2 + 1)) with (@nil Z)
    by (unfold seqZ; replace (Z.to_nat (length `div` 2 + 1)) with 0%nat by lia; done).
  unfold bind at 1, lift at 1. cbv zeta. cbn [fmap list_fmap].
  change (slice_from [] 1) with (@nil F). cbn [fmap list_fmap].
  assert (mkWorld (tape w) (cursor w + 0) (stale w) = w) as Hw.
  { destruct w as [t k s]. simpl. f_equal. lia. }
  unfold bind, lift.
  destruct fl as [c1|]; [destruct (fis_zero c1)|].
  all: destruct fu as [c2|]; [destruct (fis_zero c2)|].
  all: simpl; change (Z.to_nat (Z.of_nat 0)) with 0%nat; rewrite Hw.
  all: by case_bool_decide.
Qed.

(** X16: a negative [length] leaves [falpha] without frequency bins, and
    cutoffs then have no effect (an empty mask selects nothing).  For an
    even [length] the call raises IndexError at [y[-1]], before the
    inverse transform is reached; for an odd [length] the inverse
    transform is called with an empty spectrum and the negative [length],
    so that the call fails exactly when the transform does.  No variate is
    consumed either way. *)
Theorem falpha_negative_length (length : Z) (alpha : F) (fl fu : option F)
    (mean var : F) (w : World F) :
  length < 0 →
  (length `mod` 2 = 0 →
   falpha irfft length alpha fl fu mean var w = (Raised IndexError, w)) ∧
  (length `mod` 2 ≠ 0 →
   falpha irfft length alpha fl fu mean var w
   = map_result (rescale mean var) (irfft [] length, w)).
Proof.
  intros HL.
  assert (falpha irfft length alpha fl fu mean var w
          = match falpha_spectrum length alpha fl fu w with
            | (Returned y, w') => map_result (rescale mean var) (irfft y length, w')
            | (Raised e, w') => (Raised e, w')
            end) as ->.
  { unfold falpha, bind. rewrite falpha_signal_spectrum. unfold bind.
    destruct (falpha_spectrum length alpha fl fu w) as [[e|y] w']; [done|].
    unfold lift, map_result, ret. by destruct (irfft y length). }
  rewrite falpha_spectrum_negative by done.
  split; intros Hpar.
  - by rewrite bool_decide_eq_true_2.
  - by rewrite bool_decide_eq_false_2.
Qed.
End negative_length.

(** [falpha(length=-2, fl=0.1)] fails at the Nyquist bin, and
    [falpha(length=-3, fl=0.1)] fails in the reference transform, which
    like NumPy's rejects a negative number of samples with ValueError. *)
Lemma falpha_negative_length_example :
  falpha dft_irfft (-2) 1%R (Some 0.1%R) None 0%R 1%R world0
  = (Raised IndexError, world0) ∧
  falpha dft_irfft (-3) 1%R (Some 0.1%R) None 0%R 1%R world0
  = (Raised ValueError, world0).
Proof.
  split.
  - by apply (falpha_negative_length dft_irfft (-2) 1%R (Some 0.1%R) None 0%R 1%R world0).
  - destruct (falpha_negative_length dft_irfft (-3) 1%R (Some 0.1%R) None 0%R 1%R world0)
      as [_ Hodd]; [lia|].
    by rewrite Hodd.
Defined.

(** ** A trapping disc of the Ikeda map *)

Section ikeda_disc.
Local Open Scope R_scope.

(** A disc around the origin whose radius [r] satisfies
    [|gamma| + mu * r <= r] is mapped into itself. *)
Lemma ikeda_step_disc (alpha beta gamma mu r : R) (p : R * R) :
  0 <= mu → 0 <= r → Rabs gamma + mu * r <= r →
  p.1 ^ 2 + p.2 ^ 2 <= r ^ 2 →
  let q := ikeda_step alpha beta gamma mu p in
  q.1 ^ 2 + q.2 ^ 2 <= r ^ 2.
Proof.
  intros Hmu Hr Hfit Hp q.
  pose proof (ikeda_step_norm alpha beta gamma mu p) as Hn. cbv zeta in Hn.
  fold q in Hn. set (a := q.1 - gamma) in *. set (b := q.2) in *.
  replace (q.1) with (gamma + a) by (unfold a; ring).
  set (s := p.1 ^ 2 + p.2 ^ 2) in *.
  assert (0 <= s) as Hs by (unfold s; nra).
  set (g := Rabs gamma) in *.
  assert (0 <= g) as Hg by apply Rabs_pos.
  assert (- g <= gamma <= g) as Hgam.
  { unfold g. split; [pose proof (Rle_abs (- gamma)); rewrite Rabs_Ropp in *; lra
                     | apply Rle_abs]. }
  assert (a ^ 2 + b ^ 2 <= (mu * r) ^ 2) as Hab by (rewrite Hn; nra).
  assert (- (mu * r) <= a <= mu * r) as Ha.
  { assert (0 <= mu * r) by nra. split; nra. }
  assert (gamma * a <= g * (mu * r)) as Hga.
  { assert (0 <= mu * r) by nra. destruct (Rle_dec 0 a); nra. }
  assert ((g + mu * r) ^ 2 <= r ^ 2) as Hsq by nra.
  nra.
Qed.

(** X17: the Ikeda map has trapping discs.  Whenever [0 <= mu] and a radius
    [r >= 0] satisfies [|gamma| + mu * r <= r] (for [mu < 1] every
    [r >= |gamma| / (1 - mu)] does), a call of [ikeda] whose explicit
    initial state lies in the disc [x^2 + y^2 <= r^2] returns [length]
    states, all of them in that disc, whatever [discard] is. *)
Theorem ikeda_stays_in_disc (length discard : Z) (u v alpha beta gamma mu r : R)
    (w : World R) :
  (0 < length)%Z → (0 ≤ discard)%Z →
  0 <= mu → 0 <= r → Rabs gamma + mu * r <= r →
  u ^ 2 + v ^ 2 <= r ^ 2 →
  ∃ xs,
    ikeda length (PSeq [u; v]) alpha beta gamma mu discard w = (Returned xs, w) ∧
    List.length xs = Z.to_nat length ∧
    Forall (λ p, p.1 ^ 2 + p.2 ^ 2 <= r ^ 2) xs.
Proof.
  intros HL HD Hmu Hr Hfit H0.
  destruct (ikeda_runs (length + discard) (PSeq [u; v]) alpha beta gamma mu 0 w)
    as (xs & w' & Hrun & Hlen & Hrec & Hfirst); [lia | done | done |].
  destruct (Hfirst u v) as [Hx0 ->]; [done | done |].
  assert (∀ (k : nat) p, xs !! k = Some p → p.1 ^ 2 + p.2 ^ 2 <= r ^ 2) as Hin.
  { induction k as [|k IH]; intros p Hp.
    - rewrite Hx0 in Hp. by injection Hp as <-.
    - pose proof (lookup_lt_Some _ _ _ Hp) as Hk.
      rewrite Hrec in Hp by lia.
      destruct (xs !! k) as [p'|] eqn:Hp'; [|done]. injection Hp as <-.
      by apply ikeda_step_disc, IH. }
  exists (drop (Z.to_nat discard) xs). split; [|split].
  - rewrite ikeda_discard by done. by rewrite Hrun.
  - rewrite length_drop. lia.
  - apply Forall_drop, Forall_lookup. exact Hin.
Qed.

(** The default constants [gamma = 1], [mu = 0.9] and the disc of radius 10:
    from (1, 0), after 2 discarded steps. *)
Lemma ikeda_stays_in_disc_example :
  ∃ xs, ikeda 3 (PSeq [1; 0]) 6 0.4 1 0.9 2 world0 = (Returned xs, world0) ∧
        List.length xs = 3%nat ∧
        Forall (λ p, p.1 ^ 2 + p.2 ^ 2 <= 10 ^ 2) xs.
Proof.
  apply (ikeda_stays_in_disc 3 2 1 0 6 0.4 1 0.9 10 world0); try lia; try lra.
  rewrite Rabs_R1. lra.
Defined.
End ikeda_disc.

(** ** The times the flows return *)

Section flow_times.
Local Open Scope R_scope.

Lemma flow_times_explicit
    (odeint : (list R → R → result (list R)) → pyval R → list R
              → result (list (list R)))
    (length discard : Z) (vs : list R) (step sample : R) (w : World R) :
  (0 < length)%Z → (0 ≤ discard)%Z → List.length vs = 3%nat → 0 < step →
  let stride := Rtrunc (sample / step) in
  let N := (stride * (length + discard))%Z in
  let d := IZR N * step / IZR (N - 1) in
  (1 ≤ stride)%Z → (2 ≤ N)%Z →
  (∀ sigma beta rho,
     integrates odeint (_lorenz sigma beta rho) →
     ∃ ts xs,
       lorenz odeint length (PSeq vs) sigma beta rho step sample discard w
       = (Returned (ts, xs), w) ∧
       ∀ k : nat, (Z.of_nat k < length)%Z →
         ts !! k = Some (IZR ((discard + Z.of_nat k) * stride) * d)) ∧
  (∀ a b c,
     integrates odeint (_roessler a b c) →
     ∃ ts xs,
       roessler odeint length (PSeq vs) a b c step sample discard w
       = (Returned (ts, xs), w) ∧
       ∀ k : nat, (Z.of_nat k < length)%Z →
         ts !! k = Some (IZR ((discard + Z.of_nat k) * stride) * d)).
Proof.
  intros HL HD Hvs Hstep stride N d Hs HN.
  destruct (flows_aligned odeint length discard vs step sample w)
    as (t & Hgrid & Hlen & Hlorenz & Hroessler);
    [done | done | by destruct vs | apply fis_zero_R_false; lra | exact Hs |].
  destruct (flow_time_grid_points length discard step sample) as (t' & Hgrid' & _ & Hpts);
    [lra | exact HN |].
  change (flow_grid length step sample discard = Returned (stride, t)) in Hgrid.
  fold stride in Hgrid'. rewrite Hgrid in Hgrid'. injection Hgrid' as <-.
  fold stride N d in Hpts.
  change (Z.of_nat (List.length t) = N) in Hlen.
  assert (∀ k : nat, (Z.of_nat k < length)%Z →
            t !! Z.to_nat ((discard + Z.of_nat k) * stride)
            = Some (IZR ((discard + Z.of_nat k) * stride) * d)) as Htimes.
  { intros k Hk. rewrite Hpts by (unfold N; nia).
    by rewrite INR_IZR_INZ, Z2Nat.id by nia. }
  split.
  - intros sigma beta rho Hode. destruct (Hode vs t Hvs) as (ys & Hys & Hyl).
    destruct (Hlorenz sigma beta rho ys Hys Hyl) as (ts & xs & Hrun & _ & _ & Hk).
    exists ts, xs. split; [done|]. intros k Hlt.
    destruct (Hk k Hlt) as [-> _]. by apply Htimes.
  - intros a b c Hode. destruct (Hode vs t Hvs) as (ys & Hys & Hyl).
    destruct (Hroessler a b c ys Hys Hyl) as (ts & xs & Hrun & _ & _ & Hk).
    exists ts, xs. split; [done|]. intros k Hlt.
    destruct (Hk k Hlt) as [-> _]. by apply Htimes.
Qed.

(** X10: on the reals, for an initial state that is absent or has three
    components, a positive [step], a stride of at least 1 and a grid of
    [N >= 2] points, the times returned by [lorenz] and [roessler] are
    [(discard + k) * stride * d] for [k = 0 .. length-1], with
    [d = N * step / (N - 1)] the spacing of the grid: they start at
    [discard * stride * d] and are [stride * d] apart. *)
Theorem flow_returned_times
    (odeint : (list R → R → result (list R)) → pyval R → list R
              → result (list (list R)))
    (length discard : Z) (x0 : pyval R) (step sample : R) (w : World R) :
  (0 < length)%Z → (0 ≤ discard)%Z → valid_x0 3 x0 → 0 < step →
  let stride := Rtrunc (sample / step) in
  let N := (stride * (length + discard))%Z in
  let d := IZR N * step / IZR (N - 1) in
  (1 ≤ stride)%Z → (2 ≤ N)%Z →
  (∀ sigma beta rho,
     integrates odeint (_lorenz sigma beta rho) →
     ∃ ts xs w',
       lorenz odeint length x0 sigma beta rho step sample discard w
       = (Returned (ts, xs), w') ∧
       ∀ k : nat, (Z.of_nat k < length)%Z →
         ts !! k = Some (IZR ((discard + Z.of_nat k) * stride) * d)) ∧
  (∀ a b c,
     integrates odeint (_roessler a b c) →
     ∃ ts xs w',
       roessler odeint length x0 a b c step sample discard w
       = (Returned (ts, xs), w') ∧
       ∀ k : nat, (Z.of_nat k < length)%Z →
         ts !! k = Some (IZR ((discard + Z.of_nat k) * stride) * d)).
Proof.
  intros HL HD Hx0 Hstep stride N d Hs HN.
  destruct x0 as [| |vs]; [|done|].
  - set (y0 := zip_with fadd [lit 0.0; lit (-0.01); lit 9.0]
                 (jitter (lit 0.25) (drawn w 3))).
    set (z0 := zip_with fadd [lit (-9.0); lit 0.0; lit 0.0]
                 (jitter (lit 0.25) (drawn w 3))).
    destruct (flow_times_explicit odeint length discard y0 step sample w)
      as [Hlorenz _]; [done..|].
    destruct (flow_times_explicit odeint length discard z0 step sample w)
      as [_ Hroessler]; [done..|].
    split.
    + intros sigma beta rho Hode.
      destruct (Hlorenz sigma beta rho Hode) as (ts & xs & Hrun & Hk).
      pose proof (lorenz_absent_x0 odeint length sigma beta rho step sample discard w)
        as Heq.
      fold y0 in Heq. rewrite Hrun in Heq.
      destruct (lorenz odeint length PNone sigma beta rho step sample discard w)
        as [r w'].
      simpl in Heq. subst r. by exists ts, xs, w'.
    + intros a b c Hode.
      destruct (Hroessler a b c Hode) as (ts & xs & Hrun & Hk).
      pose proof (roessler_absent_x0 odeint length a b c step sample discard w) as Heq.
      fold z0 in Heq. rewrite Hrun in Heq.
      destruct (roessler odeint length PNone a b c step sample discard w) as [r w'].
      simpl in Heq. subst r. by exists ts, xs, w'.
  - destruct (flow_times_explicit odeint length discard vs step sample w)
      as [Hlorenz Hroessler]; [done..|].
    split.
    + intros sigma beta rho Hode.
      destruct (Hlorenz sigma beta rho Hode) as (ts & xs & Hrun & Hk).
      by exists ts, xs, w.
    + intros a b c Hode.
      destruct (Hroessler a b c Hode) as (ts & xs & Hrun & Hk).
      by exists ts, xs, w.
Qed.

(** [lorenz(length=2, step=1, sample=2, discard=1)] without [x0]: stride 2,
    a grid of 6 points 6/5 apart, returned times 12/5 and 24/5. *)
Lemma flow_returned_times_example :
  ∃ ts xs w',
    lorenz euler_odeint 2 PNone 10 3 28 1 2 1 world0 = (Returned (ts, xs), w') ∧
    ts !! 0%nat = Some (12 / 5) ∧ ts !! 1%nat = Some (24 / 5).
Proof.
  destruct (flow_returned_times euler_odeint 2 1 PNone 1 2 world0)
    as [Hlorenz _];
    [lia | lia | done | lra | rewrite Rtrunc_two; lia | rewrite Rtrunc_two; lia |].
  rewrite Rtrunc_two in Hlorenz.
  destruct (Hlorenz 10 3 28) as (ts & xs & w' & Hrun & Hk).
  { apply euler_integrates, _lorenz_returned. }
  exists ts, xs, w'. split; [done|].
  split; [rewrite (Hk 0%nat) by lia | rewrite (Hk 1%nat) by lia]; f_equal.
  - change ((1 + Z.of_nat 0) * 2)%Z with 2%Z. change (2 * (2 + 1))%Z with 6%Z.
    change (6 - 1)%Z with 5%Z. lra.
  - change ((1 + Z.of_nat 1) * 2)%Z with 4%Z. change (2 * (2 + 1))%Z with 6%Z.
    change (6 - 1)%Z with 5%Z. lra.
Defined.
End flow_times.
